(** * Replacit: the find-and-replace core and the session handlers

    A shallow embedding of [src/core/replacer.js], [src/core/docxProcessor.js],
    [src/core/txtProcessor.js], [src/components/Preview.js],
    [src/components/ReplacementList.js], [src/components/FileUpload.js],
    [src/components/ThemeToggle.js], [src/utils/fileHelpers.js] and
    [src/main.js].

    JavaScript strings are lists of code units; a code unit is modelled by
    [ascii], so the development speaks about 8-bit text.  Exceptions are
    explicit ([result]); objects that the handlers share by reference (the
    JSZip archives) live in an explicit heap. *)

From Stdlib Require Import List Ascii String Arith Lia Bool NArith.
From stdpp Require Import base option list gmap strings.
Import ListNotations.

Set Default Proof Using "Type".

(* ===================================================================== *)
(** ** JavaScript values *)
(* ===================================================================== *)

Abbreviation jsstring := (list ascii).

(** A string literal as a list of code units. *)
Definition str (s : string) : jsstring := list_ascii_of_string s.

(** [s.slice(a, b)] for [0 <= a] and [0 <= b]: empty when [b <= a], clamped
    to the end of [s]. *)
Definition slice (s : jsstring) (a b : nat) : jsstring := take (b - a) (drop a s).

(** [s.startsWith(p)]. *)
Fixpoint startsWith (p s : jsstring) : bool :=
  match p, s with
  | [], _ => true
  | a :: p', b :: s' => Ascii.eqb a b && startsWith p' s'
  | _ :: _, [] => false
  end.

Definition jsstring_eqb (a b : jsstring) : bool := bool_decide (a = b).

(** What a JavaScript function can throw here. *)
Inductive exn : Type :=
| SyntaxError (source : jsstring)   (* [new RegExp] on a malformed pattern *)
| Error (message : string).         (* [throw new Error(...)], rejected promises *)

(** The outcome of a call: a value or an exception in flight. *)
Inductive result (A : Type) : Type :=
| Ok (a : A)
| Throw (e : exn).
Arguments Ok {A} a.
Arguments Throw {A} e.

Definition bind {A B} (r : result A) (f : A -> result B) : result B :=
  match r with
  | Ok a => f a
  | Throw e => Throw e
  end.

Notation "x <- r ;; k" := (bind r (fun x => k))
  (at level 100, r at next level, right associativity).

(* ===================================================================== *)
(** ** The built-in regular expression objects

    [RegExp.prototype.exec], [String.prototype.replace] and
    [GetSubstitution] as ECMA-262 defines them for a regular expression with
    the global flag and without the sticky and unicode flags, which is how
    every regular expression of this program is built. *)
(* ===================================================================== *)

Module RegExpBuiltin.

(** A compiled pattern: run at an index of the input, it fails or gives the
    number of code units matched and the captures of groups 1, 2, ... *)
Definition Matcher : Type := jsstring -> nat -> option (nat * list (option jsstring)).

(** A regular expression object: the compiled pattern and the mutable
    [lastIndex] property. *)
Record RegExp : Type := mkRegExp {
  matcher : Matcher;
  lastIndex : nat;
}.

(** The array [exec] returns: [match.index], [match[0]], [match[1..]]. *)
Record MatchResult : Type := mkMatch {
  m_index : nat;
  m_matched : jsstring;
  m_captures : list (option jsstring);
}.

Definition set_lastIndex (r : RegExp) (i : nat) : RegExp :=
  {| matcher := matcher r; lastIndex := i |}.

(** The search loop of RegExpBuiltinExec: try index [i], then [i + 1], ...
    for [n] candidate indices. *)
Fixpoint exec_scan (M : Matcher) (s : jsstring) (n i : nat) : option (MatchResult * nat) :=
  match n with
  | 0 => None
  | S n' =>
      match M s i with
      | Some (len, caps) =>
          Some ({| m_index := i; m_matched := slice s i (i + len); m_captures := caps |},
                i + len)
      | None => exec_scan M s n' (S i)
      end
  end.

(** [regex.exec(s)]: search from [lastIndex]; on success [lastIndex] becomes
    the end of the match, on failure (also when [lastIndex] is past the end
    of [s]) it is reset to 0 and the result is [null]. *)
Definition exec (r : RegExp) (s : jsstring) : option MatchResult * RegExp :=
  match exec_scan (matcher r) s (S (length s) - lastIndex r) (lastIndex r) with
  | Some (m, e) => (Some m, set_lastIndex r e)
  | None => (None, set_lastIndex r 0)
  end.

(** The collecting loop of [RegExp.prototype[Symbol.replace]] for a global
    regular expression: call [exec] until it returns [null]; after an empty
    match advance [lastIndex] by one.  [fuel] bounds the iterations. *)
Fixpoint replace_collect (fuel : nat) (r : RegExp) (s : jsstring) : list MatchResult :=
  match fuel with
  | 0 => []
  | S fuel' =>
      match exec r s with
      | (None, _) => []
      | (Some m, r') =>
          let r'' := match m_matched m with
                     | [] => set_lastIndex r' (S (lastIndex r'))
                     | _ :: _ => r'
                     end in
          m :: replace_collect fuel' r'' s
      end
  end.

(** All matches [s.replace(r, ...)] substitutes.  [lastIndex] is set to 0
    first; [length s + 2] iterations always reach the final [null]
    (lemma [replace_collect_fuel]). *)
Definition matchAll (M : Matcher) (s : jsstring) : list MatchResult :=
  replace_collect (length s + 2) {| matcher := M; lastIndex := 0 |} s.

(** The accumulation loop of [Symbol.replace]: copy the text between the
    matches and put [f m] in place of each match [m]. *)
Fixpoint replace_build (s : jsstring) (f : MatchResult -> jsstring)
    (results : list MatchResult) (nextSourcePosition : nat) : jsstring :=
  match results with
  | [] =>
      if length s <=? nextSourcePosition then [] else drop nextSourcePosition s
  | m :: rest =>
      let position := Nat.min (m_index m) (length s) in
      if nextSourcePosition <=? position then
        slice s nextSourcePosition position ++ f m
          ++ replace_build s f rest (position + length (m_matched m))
      else replace_build s f rest nextSourcePosition
  end.

(** [s.replace(r, callback)] for a global [r]. *)
Definition String_replace_fn (M : Matcher) (s : jsstring)
    (f : MatchResult -> jsstring) : jsstring :=
  replace_build s f (matchAll M s) 0.

Definition is_digit (c : ascii) : bool :=
  let n := nat_of_ascii c in (48 <=? n) && (n <=? 57).

Definition digit_value (c : ascii) : nat := nat_of_ascii c - 48.

(** The replacement of [$n]: the capture if group [n] exists, else [None]
    (the reference is then copied literally). *)
Definition capture_ref (captures : list (option jsstring)) (n : nat) : option jsstring :=
  if (1 <=? n) && (n <=? length captures) then
    Some (match nth_error captures (n - 1) with
          | Some (Some c) => c
          | _ => []
          end)
  else None.

(** GetSubstitution: expand [$$], [$&], [$`], [$'], [$n] and [$nn] in the
    replacement template.  There are no named groups, so [$<] is literal. *)
Fixpoint GetSubstitution (matched s : jsstring) (position : nat)
    (captures : list (option jsstring)) (template : jsstring) : jsstring :=
  match template with
  | [] => []
  | "$"%char :: rest =>
      match rest with
      | "$"%char :: rest' =>
          "$"%char :: GetSubstitution matched s position captures rest'
      | "`"%char :: rest' =>
          take position s ++ GetSubstitution matched s position captures rest'
      | "&"%char :: rest' =>
          matched ++ GetSubstitution matched s position captures rest'
      | "'"%char :: rest' =>
          drop (Nat.min (position + length matched) (length s)) s
            ++ GetSubstitution matched s position captures rest'
      | d1 :: rest' =>
          if is_digit d1 then
            let one :=
              match capture_ref captures (digit_value d1) with
              | Some c => c ++ GetSubstitution matched s position captures rest'
              | None => "$"%char :: d1 :: GetSubstitution matched s position captures rest'
              end in
            match rest' with
            | d2 :: rest'' =>
                if is_digit d2 &&
                   (10 * digit_value d1 + digit_value d2 <=? length captures) then
                  match capture_ref captures (10 * digit_value d1 + digit_value d2) with
                  | Some c => c ++ GetSubstitution matched s position captures rest''
                  | None =>
                      "$"%char :: d1 :: d2
                        :: GetSubstitution matched s position captures rest''
                  end
                else one
            | [] => one
            end
          else "$"%char :: GetSubstitution matched s position captures rest
      | [] => ["$"%char]
      end
  | c :: rest => c :: GetSubstitution matched s position captures rest
  end.

(** [s.replace(r, template)] for a global [r]. *)
Definition String_replace (M : Matcher) (s template : jsstring) : jsstring :=
  String_replace_fn M s
    (fun m => GetSubstitution (m_matched m) s (m_index m) (m_captures m) template).

End RegExpBuiltin.

(* ===================================================================== *)
(** ** A pattern engine

    [new RegExp(source, flags)] for a fragment of the pattern grammar of
    ECMA-262 (with its Annex B extensions): pattern characters, [.],
    character classes, the escapes [\d \D \w \W \s \S \b \B \n \r \t \f \v \0]
    and identity escapes, capturing and non-capturing groups, lookahead,
    alternation, the quantifiers [* + ? {n} {n,} {n,m}] (greedy and lazy) and
    the anchors.  Back-references, legacy octal escapes, named groups,
    lookbehind and the [\x \u \c \k] escapes are outside the fragment; this
    engine rejects them.  Matching is
    the backtracking semantics of the standard, written with continuations;
    case-insensitive matching compares the upper-case forms of the code
    units. *)
(* ===================================================================== *)

Module PatternEngine.
Import RegExpBuiltin.

Inductive class_item : Type :=
| CChar (c : ascii)
| CRange (lo hi : ascii)
| CDigit (neg : bool)
| CWord (neg : bool)
| CSpace (neg : bool).

Inductive token : Type :=
| TChar (c : ascii)
| TDot
| TClass (neg : bool) (items : list class_item)
| TOpen
| TOpenNC
| TLook (neg : bool)
| TClose
| TBar
| TQuant (min : nat) (max : option nat) (greedy : bool)
| TBol
| TEol
| TWordB (neg : bool).

Inductive re : Type :=
| REmpty
| RChar (c : ascii)
| RDot
| RSet (neg : bool) (items : list class_item)
| RSeq (a b : re)
| RAlt (a b : re)
| RGroup (idx : nat) (a : re)
| RLook (neg : bool) (a : re)
| RQuant (min : nat) (max : option nat) (greedy : bool) (a : re)
| RBol
| REol
| RWordB (neg : bool).

(** *** Lexing *)

(** The token of the escape [\e] outside a class. *)
Definition escape_token (e : ascii) : option token :=
  match e with
  | "d"%char => Some (TClass false [CDigit false])
  | "D"%char => Some (TClass false [CDigit true])
  | "w"%char => Some (TClass false [CWord false])
  | "W"%char => Some (TClass false [CWord true])
  | "s"%char => Some (TClass false [CSpace false])
  | "S"%char => Some (TClass false [CSpace true])
  | "b"%char => Some (TWordB false)
  | "B"%char => Some (TWordB true)
  | "n"%char => Some (TChar (ascii_of_nat 10))
  | "r"%char => Some (TChar (ascii_of_nat 13))
  | "t"%char => Some (TChar (ascii_of_nat 9))
  | "f"%char => Some (TChar (ascii_of_nat 12))
  | "v"%char => Some (TChar (ascii_of_nat 11))
  | "0"%char => Some (TChar (ascii_of_nat 0))
  | "x"%char | "u"%char | "c"%char | "k"%char => None
  | _ => if is_digit e then None else Some (TChar e)
  end.

(** The class item of the escape [\e] inside a class. *)
Definition class_escape (e : ascii) : option class_item :=
  match e with
  | "d"%char => Some (CDigit false)
  | "D"%char => Some (CDigit true)
  | "w"%char => Some (CWord false)
  | "W"%char => Some (CWord true)
  | "s"%char => Some (CSpace false)
  | "S"%char => Some (CSpace true)
  | "b"%char => Some (CChar (ascii_of_nat 8))
  | "n"%char => Some (CChar (ascii_of_nat 10))
  | "r"%char => Some (CChar (ascii_of_nat 13))
  | "t"%char => Some (CChar (ascii_of_nat 9))
  | "f"%char => Some (CChar (ascii_of_nat 12))
  | "v"%char => Some (CChar (ascii_of_nat 11))
  | "0"%char => Some (CChar (ascii_of_nat 0))
  | "x"%char | "u"%char | "c"%char | "k"%char => None
  | _ => if is_digit e then None else Some (CChar e)
  end.

(** [\0] before a digit is a legacy octal escape, outside the fragment. *)
Definition legacy_octal (e : ascii) (rest : jsstring) : bool :=
  Ascii.eqb e "0"%char && match rest with d :: _ => is_digit d | [] => false end.

(** A class atom: an item, or the unescaped [-] that may form a range. *)
Inductive class_atom : Type :=
| AItem (it : class_item)
| ADash.

(** The atoms of a class body up to the closing bracket, and the number of
    code units read including the bracket. *)
Fixpoint class_atoms (s : jsstring) : option (list class_atom * nat) :=
  match s with
  | [] => None
  | "]"%char :: _ => Some ([], 1)
  | "\"%char :: rest =>
      match rest with
      | [] => None
      | e :: rest' =>
          if legacy_octal e rest' then None
          else
            it ← class_escape e;
            '(atoms, n) ← class_atoms rest';
            Some (AItem it :: atoms, S (S n))
      end
  | "-"%char :: rest =>
      '(atoms, n) ← class_atoms rest;
      Some (ADash :: atoms, S n)
  | c :: rest =>
      '(atoms, n) ← class_atoms rest;
      Some (AItem (CChar c) :: atoms, S n)
  end.

Definition dash : class_item := CChar "-"%char.

(** The item a class atom stands for. *)
Definition atom_item (a : class_atom) : class_item :=
  match a with
  | AItem it => it
  | ADash => dash
  end.

(** ClassRanges: an atom, a dash and an atom form a range (of the two
    characters, in order; with a class escape on either side the three are
    taken one by one); any other atom stands for itself. *)
Fixpoint class_ranges (atoms : list class_atom) : option (list class_item) :=
  match atoms with
  | [] => Some []
  | a :: rest =>
      match rest with
      | ADash :: b :: rest' =>
          items ← class_ranges rest';
          match atom_item a, atom_item b with
          | CChar lo, CChar hi =>
              if nat_of_ascii lo <=? nat_of_ascii hi
              then Some (CRange lo hi :: items) else None
          | ia, ib => Some (ia :: dash :: ib :: items)
          end
      | _ => items ← class_ranges rest; Some (atom_item a :: items)
      end
  end.

(** A class after its opening bracket: negation, items, code units read. *)
Definition scan_class (s : jsstring) : option (bool * list class_item * nat) :=
  match s with
  | "^"%char :: rest =>
      '(atoms, n) ← class_atoms rest;
      items ← class_ranges atoms;
      Some (true, items, S n)
  | _ =>
      '(atoms, n) ← class_atoms s;
      items ← class_ranges atoms;
      Some (false, items, n)
  end.

(** A run of decimal digits: its value and its length. *)
Fixpoint scan_digits (s : jsstring) (acc n : nat) : nat * nat * jsstring :=
  match s with
  | c :: rest =>
      if is_digit c then scan_digits rest (10 * acc + digit_value c) (S n)
      else (acc, n, s)
  | [] => (acc, n, s)
  end.

(** A braced quantifier after its opening brace: bounds and code units
    read including the closing brace. *)
Definition scan_braces (s : jsstring) : option (nat * option nat * nat) :=
  let '(lo, n1, rest) := scan_digits s 0 0 in
  if n1 =? 0 then None
  else
    match rest with
    | "}"%char :: _ => Some (lo, Some lo, S n1)
    | ","%char :: rest' =>
        let '(hi, n2, rest'') := scan_digits rest' 0 0 in
        match rest'' with
        | "}"%char :: _ =>
            Some (lo, if n2 =? 0 then None else Some hi, S (S (n1 + n2)))
        | _ => None
        end
    | _ => None
    end.

(** A quantifier token; a following [?] makes it lazy and is read too. *)
Definition quant_token (min : nat) (max : option nat) (rest : jsstring) : token * nat :=
  match rest with
  | "?"%char :: _ => (TQuant min max false, 1)
  | _ => (TQuant min max true, 0)
  end.

Definition cons_token (t : token) (ts : option (list token)) : option (list token) :=
  ts' ← ts; Some (t :: ts').

(** The lexer: [skip] code units are still part of the previous token. *)
Fixpoint lex (skip : nat) (s : jsstring) : option (list token) :=
  match s with
  | [] => Some []
  | c :: rest =>
      match skip with
      | S skip' => lex skip' rest
      | 0 =>
          match c with
          | "\"%char =>
              match rest with
              | [] => None
              | e :: rest' =>
                  if legacy_octal e rest' then None
                  else t ← escape_token e; cons_token t (lex 1 rest)
              end
          | "["%char =>
              '(neg, items, n) ← scan_class rest;
              cons_token (TClass neg items) (lex n rest)
          | "("%char =>
              match rest with
              | "?"%char :: ":"%char :: _ => cons_token TOpenNC (lex 2 rest)
              | "?"%char :: "="%char :: _ => cons_token (TLook false) (lex 2 rest)
              | "?"%char :: "!"%char :: _ => cons_token (TLook true) (lex 2 rest)
              | "?"%char :: _ => None
              | _ => cons_token TOpen (lex 0 rest)
              end
          | ")"%char => cons_token TClose (lex 0 rest)
          | "|"%char => cons_token TBar (lex 0 rest)
          | "."%char => cons_token TDot (lex 0 rest)
          | "^"%char => cons_token TBol (lex 0 rest)
          | "$"%char => cons_token TEol (lex 0 rest)
          | "*"%char => let '(t, n) := quant_token 0 None rest in cons_token t (lex n rest)
          | "+"%char => let '(t, n) := quant_token 1 None rest in cons_token t (lex n rest)
          | "?"%char => let '(t, n) := quant_token 0 (Some 1) rest in cons_token t (lex n rest)
          | "{"%char =>
              match scan_braces rest with
              | Some (lo, hi, n) =>
                  match hi with
                  | Some h => if h <? lo then None
                              else let '(t, k) := quant_token lo hi (drop n rest) in
                                   cons_token t (lex (n + k) rest)
                  | None => let '(t, k) := quant_token lo hi (drop n rest) in
                            cons_token t (lex (n + k) rest)
                  end
              | None => cons_token (TChar c) (lex 0 rest)
              end
          | _ => cons_token (TChar c) (lex 0 rest)
          end
      end
  end.

(** *** Parsing *)

(** An atom and the quantifier that may follow it. *)
Definition quantified (atom : re) (ts : list token) : re * list token :=
  match ts with
  | TQuant min max greedy :: ts' => (RQuant min max greedy atom, ts')
  | _ => (atom, ts)
  end.

(** Disjunction, Alternative and Term of the grammar; [g] counts the
    capturing groups opened so far. *)
Fixpoint pDisjunction (fuel : nat) (ts : list token) (g : nat)
    : option (re * list token * nat) :=
  match fuel with
  | 0 => None
  | S fuel' =>
      '(a, ts1, g1) ← pAlternative fuel' ts g;
      match ts1 with
      | TBar :: ts2 =>
          '(b, ts3, g2) ← pDisjunction fuel' ts2 g1;
          Some (RAlt a b, ts3, g2)
      | _ => Some (a, ts1, g1)
      end
  end
with pAlternative (fuel : nat) (ts : list token) (g : nat)
    : option (re * list token * nat) :=
  match fuel with
  | 0 => None
  | S fuel' =>
      match ts with
      | [] | TBar :: _ | TClose :: _ => Some (REmpty, ts, g)
      | _ =>
          '(t, ts1, g1) ← pTerm fuel' ts g;
          '(r, ts2, g2) ← pAlternative fuel' ts1 g1;
          Some (RSeq t r, ts2, g2)
      end
  end
with pTerm (fuel : nat) (ts : list token) (g : nat)
    : option (re * list token * nat) :=
  match fuel with
  | 0 => None
  | S fuel' =>
      match ts with
      | TBol :: ts' => Some (RBol, ts', g)
      | TEol :: ts' => Some (REol, ts', g)
      | TWordB neg :: ts' => Some (RWordB neg, ts', g)
      | TChar c :: ts' => let '(r, ts'') := quantified (RChar c) ts' in Some (r, ts'', g)
      | TDot :: ts' => let '(r, ts'') := quantified RDot ts' in Some (r, ts'', g)
      | TClass neg items :: ts' =>
          let '(r, ts'') := quantified (RSet neg items) ts' in Some (r, ts'', g)
      | TOpen :: ts' =>
          '(d, ts1, g1) ← pDisjunction fuel' ts' (S g);
          match ts1 with
          | TClose :: ts2 =>
              let '(r, ts3) := quantified (RGroup g d) ts2 in Some (r, ts3, g1)
          | _ => None
          end
      | TOpenNC :: ts' =>
          '(d, ts1, g1) ← pDisjunction fuel' ts' g;
          match ts1 with
          | TClose :: ts2 => let '(r, ts3) := quantified d ts2 in Some (r, ts3, g1)
          | _ => None
          end
      | TLook neg :: ts' =>
          '(d, ts1, g1) ← pDisjunction fuel' ts' g;
          match ts1 with
          | TClose :: ts2 =>
              let '(r, ts3) := quantified (RLook neg d) ts2 in Some (r, ts3, g1)
          | _ => None
          end
      | TQuant _ _ _ :: _ | TBar :: _ | TClose :: _ | [] => None
      end
  end.

(** A whole pattern: a disjunction that uses every token. *)
Definition parse (ts : list token) : option (re * nat) :=
  '(r, rest, g) ← pDisjunction (3 * length ts + 3) ts 0;
  match rest with
  | [] => Some (r, g)
  | _ :: _ => None
  end.

(** *** Matching *)

Definition in_range (lo hi n : nat) : bool := (lo <=? n) && (n <=? hi).

Definition is_lower (c : ascii) : bool := in_range 97 122 (nat_of_ascii c).
Definition is_upper (c : ascii) : bool := in_range 65 90 (nat_of_ascii c).

(** The letters of the upper half of Latin-1 that have their other case
    among the 8-bit code units: all of 224..254 but the division sign, and
    all of 192..222 but the multiplication sign. *)
Definition is_lower_latin1 (c : ascii) : bool :=
  let n := nat_of_ascii c in in_range 224 254 n && negb (n =? 247).
Definition is_upper_latin1 (c : ascii) : bool :=
  let n := nat_of_ascii c in in_range 192 222 n && negb (n =? 215).

(** [toUpperCase] and [toLowerCase] on one code unit, when the result is
    one 8-bit code unit; else the code unit itself. *)
Definition to_upper (c : ascii) : ascii :=
  if is_lower c || is_lower_latin1 c then ascii_of_nat (nat_of_ascii c - 32) else c.
Definition to_lower (c : ascii) : ascii :=
  if is_upper c || is_upper_latin1 c then ascii_of_nat (nat_of_ascii c + 32) else c.

(** Canonicalize of the standard. *)
Definition canonicalize (ignoreCase : bool) (c : ascii) : ascii :=
  if ignoreCase then to_upper c else c.

Definition is_word_char (c : ascii) : bool :=
  is_lower c || is_upper c || is_digit c || Ascii.eqb c "_"%char.

Definition is_space_char (c : ascii) : bool :=
  let n := nat_of_ascii c in in_range 9 13 n || (n =? 32) || (n =? 160).

Definition is_line_terminator (c : ascii) : bool :=
  let n := nat_of_ascii c in (n =? 10) || (n =? 13).

Definition item_mem (it : class_item) (c : ascii) : bool :=
  match it with
  | CChar a => Ascii.eqb a c
  | CRange lo hi => in_range (nat_of_ascii lo) (nat_of_ascii hi) (nat_of_ascii c)
  | CDigit neg => xorb neg (is_digit c)
  | CWord neg => xorb neg (is_word_char c)
  | CSpace neg => xorb neg (is_space_char c)
  end.

(** Membership in a class: some member has the same canonical form. *)
Definition set_mem (ignoreCase : bool) (items : list class_item) (c : ascii) : bool :=
  existsb (fun it =>
    item_mem it c ||
    (ignoreCase && (item_mem it (to_upper c) || item_mem it (to_lower c)))) items.

Definition captures : Type := list (option (nat * nat)).

(** The capturing groups inside a pattern. *)
Fixpoint groups (r : re) : list nat :=
  match r with
  | RSeq a b | RAlt a b => groups a ++ groups b
  | RGroup idx a => idx :: groups a
  | RLook _ a | RQuant _ _ _ a => groups a
  | _ => []
  end.

Definition clear_groups (gs : list nat) (cs : captures) : captures :=
  foldr (fun g acc => <[g := None]> acc) cs gs.

Definition word_at (s : jsstring) (i : nat) : bool :=
  match s !! i with
  | Some c => is_word_char c
  | None => false
  end.

Definition or_else {A} (a : option A) (b : option A) : option A :=
  match a with
  | Some x => Some x
  | None => b
  end.

Definition continuation : Type := nat -> captures -> option (nat * captures).

(** RepeatMatcher of the standard for the matcher [m] of the quantified
    atom, whose capturing groups are [gs]: at least [min] and at most [max]
    iterations from index [x], then the continuation [k].  An iteration
    that may be skipped must consume input, so [fuel = min + length s + 2]
    nested iterations are never exceeded. *)
Fixpoint RepeatMatcher (m : nat -> captures -> continuation -> option (nat * captures))
    (gs : list nat) (greedy : bool) (k : continuation)
    (fuel min : nat) (max : option nat) (x : nat) (cs : captures)
    {struct fuel} : option (nat * captures) :=
  match fuel with
  | 0 => None
  | S fuel' =>
      match max with
      | Some 0 => k x cs
      | _ =>
          let d := fun y cs' =>
            if (min =? 0) && (y =? x) then None
            else RepeatMatcher m gs greedy k fuel' (Nat.pred min) (Nat.pred <$> max) y cs' in
          let cap := clear_groups gs cs in
          if negb (min =? 0) then m x cap d
          else if greedy then or_else (m x cap d) (k x cs)
          else or_else (k x cs) (m x cap d)
      end
  end.

(** The matcher of a pattern, run at index [i] with captures [cs] and
    continuation [k]. *)
Fixpoint rmatch (ic : bool) (s : jsstring) (r : re) (i : nat) (cs : captures)
    (k : continuation) {struct r} : option (nat * captures) :=
  match r with
  | REmpty => k i cs
  | RChar c =>
      match s !! i with
      | Some c' =>
          if Ascii.eqb (canonicalize ic c) (canonicalize ic c') then k (S i) cs else None
      | None => None
      end
  | RDot =>
      match s !! i with
      | Some c' => if is_line_terminator c' then None else k (S i) cs
      | None => None
      end
  | RSet neg items =>
      match s !! i with
      | Some c' => if xorb neg (set_mem ic items c') then k (S i) cs else None
      | None => None
      end
  | RSeq a b => rmatch ic s a i cs (fun j cs' => rmatch ic s b j cs' k)
  | RAlt a b => or_else (rmatch ic s a i cs k) (rmatch ic s b i cs k)
  | RGroup idx a => rmatch ic s a i cs (fun j cs' => k j (<[idx := Some (i, j)]> cs'))
  | RLook neg a =>
      match rmatch ic s a i cs (fun j cs' => Some (j, cs')) with
      | Some (_, cs') => if neg then None else k i cs'
      | None => if neg then k i cs else None
      end
  | RQuant min max greedy a =>
      RepeatMatcher (fun x cs' d => rmatch ic s a x cs' d) (groups a) greedy k
        (min + length s + 2) min max i cs
  | RBol => if i =? 0 then k i cs else None
  | REol => if i =? length s then k i cs else None
  | RWordB neg =>
      let a := match i with 0 => false | S j => word_at s j end in
      let b := word_at s i in
      if xorb neg (xorb a b) then k i cs else None
  end.

(** The captured substrings of a match. *)
Definition capture_strings (s : jsstring) (cs : captures) : list (option jsstring) :=
  map (fun c : option (nat * nat) =>
         match c with
         | Some (a, b) => Some (slice s a b)
         | None => None
         end) cs.

(** The matcher of a parsed pattern with [g] capturing groups. *)
Definition matcher_of (ignoreCase : bool) (r : re) (g : nat) : Matcher :=
  fun s i =>
    match rmatch ignoreCase s r i (replicate g None) (fun j cs => Some (j, cs)) with
    | Some (e, cs) => Some (e - i, capture_strings s cs)
    | None => None
    end.

(** [new RegExp(source, flags)]: [None] when the constructor throws. *)
Definition compile (source : jsstring) (ignoreCase : bool) : option Matcher :=
  match lex 0 source with
  | Some ts =>
      match parse ts with
      | Some (r, g) => Some (matcher_of ignoreCase r g)
      | None => None
      end
  | None => None
  end.

End PatternEngine.

(* ===================================================================== *)
(** ** The environment of the program *)
(* ===================================================================== *)

Import RegExpBuiltin.

(** The regular expression engine behind [new RegExp] for the patterns the
    user types: given the source and the ignore-case flag it compiles a
    matcher or rejects the pattern. *)
Class RegExpEngine : Type := {
  compile_pattern : jsstring -> bool -> option Matcher;
}.

(** The engine of the fragment above. *)
Definition FragmentEngine : RegExpEngine :=
  {| compile_pattern := PatternEngine.compile |}.

(** [new RegExp(source, flags)]: a fresh object with [lastIndex = 0], or a
    SyntaxError. *)
Definition RegExp_new `{RegExpEngine} (source flags : jsstring) : result RegExp :=
  match compile_pattern source (existsb (Ascii.eqb "i"%char) flags) with
  | Some M => Ok {| matcher := M; lastIndex := 0 |}
  | None => Throw (SyntaxError source)
  end.

(** A regular expression literal of the program text.  The literals of this
    program are all within the fragment of [PatternEngine]; the matcher that
    fails everywhere stands for a literal that would not compile. *)
Definition regex_literal (source : string) : Matcher :=
  match PatternEngine.compile (str source) false with
  | Some M => M
  | None => fun _ _ => None
  end.

(** [s.replace(r, template)] for a regular expression without the global
    flag: only the first match from index 0 is replaced. *)
Definition String_replace_first (M : Matcher) (s template : jsstring) : jsstring :=
  match exec_scan M s (S (length s)) 0 with
  | Some (m, _) =>
      take (m_index m) s
        ++ GetSubstitution (m_matched m) s (m_index m) (m_captures m) template
        ++ drop (m_index m + length (m_matched m)) s
  | None => s
  end.

Fixpoint drop_while (p : ascii -> bool) (s : jsstring) : jsstring :=
  match s with
  | [] => []
  | c :: s' => if p c then drop_while p s' else s
  end.

(** [s.trim()]: white space is removed at both ends. *)
Definition trim (s : jsstring) : jsstring :=
  rev (drop_while PatternEngine.is_space_char
         (rev (drop_while PatternEngine.is_space_char s))).

(** The double quote character. *)
Definition dquote : ascii := ascii_of_nat 34.

(* ===================================================================== *)
(** ** src/core/replacer.js *)
(* ===================================================================== *)

Record Options : Type := mkOptions {
  isCaseSensitive : bool;
  isWholeWord : bool;
  isRegex : bool;
}.

(** The default of the destructured parameter: every flag false. *)
Definition defaultOptions : Options :=
  {| isCaseSensitive := false; isWholeWord := false; isRegex := false |}.

(** [escapeRegexChars]: every match of the class of special characters is
    replaced by a backslash and the match itself. *)
Definition escapeRegexChars (s : jsstring) : jsstring :=
  String_replace (regex_literal "[.*+?^${}()|[\]\\]") s (str "\$&").

(** [buildRegex]: [null] ([None]) for an empty pattern, else the compiled
    regular expression with the global flag; the constructor may throw. *)
Definition buildRegex `{RegExpEngine} (pattern : jsstring) (options : Options)
    : result (option RegExp) :=
  match pattern with
  | [] => Ok None
  | _ :: _ =>
      let source := if isRegex options then pattern else escapeRegexChars pattern in
      let source := if isWholeWord options then str "\b" ++ source ++ str "\b" else source in
      let flags := if isCaseSensitive options then str "g" else str "gi" in
      regex <- RegExp_new source flags ;;
      Ok (Some regex)
  end.

(** An element of [positions]. *)
Record Position : Type := mkPosition {
  pos_start : nat;
  pos_end : nat;
  pos_match : jsstring;
}.

(** The object [findMatches] returns. *)
Record Matches : Type := mkMatches {
  count : nat;
  positions : list Position;
}.

(** The [while ((match = regex.exec(text)) !== null)] loop of [findMatches];
    [None] when [fuel] iterations did not reach the final [null]. *)
Fixpoint findMatches_loop (fuel : nat) (regex : RegExp) (text : jsstring)
    (positions : list Position) : option (list Position) :=
  match fuel with
  | 0 => None
  | S fuel' =>
      match exec regex text with
      | (None, _) => Some positions
      | (Some m, regex') =>
          let positions' :=
            positions ++ [ {| pos_start := m_index m;
                              pos_end := m_index m + length (m_matched m);
                              pos_match := m_matched m |} ] in
          (* Prevent infinite loops on zero-length matches *)
          let regex'' :=
            if length (m_matched m) =? 0
            then set_lastIndex regex' (S (lastIndex regex'))
            else regex' in
          findMatches_loop fuel' regex'' text positions'
      end
  end.

(** [findMatches] with a bound on the iterations of its loop. *)
Definition findMatches_fuel `{RegExpEngine} (fuel : nat) (text pattern : jsstring)
    (options : Options) : option (result Matches) :=
  match buildRegex pattern options with
  | Throw e => Some (Throw e)
  | Ok None => Some (Ok {| count := 0; positions := [] |})
  | Ok (Some regex) =>
      match findMatches_loop fuel regex text [] with
      | Some ps => Some (Ok {| count := length ps; positions := ps |})
      | None => None
      end
  end.

(** [findMatches]: the loop needs at most [length text + 2] iterations
    (lemma [findMatches_fuel_enough]), so the last branch is never taken. *)
Definition findMatches `{RegExpEngine} (text pattern : jsstring) (options : Options)
    : result Matches :=
  match findMatches_fuel (length text + 2) text pattern options with
  | Some r => r
  | None => Ok {| count := 0; positions := [] |}
  end.

(** [replaceAll]. *)
Definition replaceAll `{RegExpEngine} (text pattern replacement : jsstring)
    (options : Options) : result jsstring :=
  regex <- buildRegex pattern options ;;
  match regex with
  | None => Ok text
  | Some regex => Ok (String_replace (matcher regex) text replacement)
  end.

(* ===================================================================== *)
(** ** src/core/docxProcessor.js *)
(* ===================================================================== *)

Definition DOCUMENT_XML_PATH : string := "word/document.xml".

(** A JSZip archive: its entries by path. *)
Abbreviation Zip := (gmap string jsstring).

(** JSZip objects are shared by reference: the heap holds them, a [loc] is a
    reference to one. *)
Abbreviation loc := nat.
Abbreviation Heap := (list Zip).

(** [getDocumentXml]. *)
Definition getDocumentXml (zip : Zip) : result jsstring :=
  match zip !! DOCUMENT_XML_PATH with
  | Some xml => Ok xml
  | None => Throw (Error "Invalid .docx: word/document.xml not found.")
  end.

(** [extractTextFromXml]: all matches of the text-tag pattern in [xml], then
    the opening and the closing tag are removed from every match. *)
Definition extractTextFromXml (xml : jsstring) : jsstring :=
  let textMatches :=
    map m_matched (matchAll (regex_literal "<w:t[^>]*>([^<]*)<\/w:t>") xml) in
  concat
    (map (fun tag =>
            String_replace_first (regex_literal "<\/w:t>")
              (String_replace_first (regex_literal "<w:t[^>]*>") tag []) [])
         textMatches).

(** An element of [segments]. *)
Record Segment : Type := mkSegment {
  seg_fullMatch : jsstring;
  seg_attrs : jsstring;
  seg_text : jsstring;
  seg_start : nat;
  seg_end : nat;
}.

(** [match[n]] for a group that took part in the match. *)
Definition capture (m : MatchResult) (n : nat) : jsstring :=
  match m_captures m !! (n - 1) with
  | Some (Some c) => c
  | _ => []
  end.

(** [textTagRegex], a regular expression literal with the global flag. *)
Definition textTagRegex : RegExp :=
  {| matcher := regex_literal "<w:t([^>]*)>([^<]*)<\/w:t>"; lastIndex := 0 |}.

(** The [while ((match = textTagRegex.exec(paragraphXml)) !== null)] loop of
    [replaceInParagraph]; [None] when [fuel] iterations did not reach the
    final [null]. *)
Fixpoint collectSegments_loop (fuel : nat) (regex : RegExp) (paragraphXml : jsstring)
    (segments : list Segment) : option (list Segment) :=
  match fuel with
  | 0 => None
  | S fuel' =>
      match exec regex paragraphXml with
      | (None, _) => Some segments
      | (Some m, regex') =>
          collectSegments_loop fuel' regex' paragraphXml
            (segments ++ [ {| seg_fullMatch := m_matched m;
                              seg_attrs := capture m 1;
                              seg_text := capture m 2;
                              seg_start := m_index m;
                              seg_end := m_index m + length (m_matched m) |} ])
      end
  end.

(** The segments of a paragraph: a match of [textTagRegex] is never empty,
    so [length paragraphXml + 2] iterations suffice (lemma
    [collectSegments_fuel_enough]) and the last branch is never taken. *)
Definition collectSegments (paragraphXml : jsstring) : list Segment :=
  match collectSegments_loop (length paragraphXml + 2) textTagRegex paragraphXml [] with
  | Some segments => segments
  | None => []
  end.

(** The attribute the first tag gets when it receives text. *)
Definition preserve_attr : jsstring :=
  str " xml:space=" ++ [dquote] ++ str "preserve" ++ [dquote].

(** One iteration of the rewriting loop of [replaceInParagraph]. *)
Definition rewrite_segment (replacedText : jsstring) (i : nat) (segment : Segment)
    (result : jsstring) : jsstring :=
  let newText := if i =? 0 then replacedText else [] in
  let attrs := if 0 <? length newText then preserve_attr else seg_attrs segment in
  let newTag := str "<w:t" ++ attrs ++ str ">" ++ newText ++ str "</w:t>" in
  slice result 0 (seg_start segment) ++ newTag ++ drop (seg_end segment) result.

(** [for (let i = segments.length - 1; i >= 0; i--)]: [n] is [i + 1]. *)
Fixpoint rewrite_loop (n : nat) (segments : list Segment) (replacedText : jsstring)
    (result : jsstring) : jsstring :=
  match n with
  | 0 => result
  | S i =>
      match segments !! i with
      | Some segment =>
          rewrite_loop i segments replacedText (rewrite_segment replacedText i segment result)
      | None => result
      end
  end.

(** [replaceInParagraph].  [fullText.replace(regex, replacement)] starts from
    [lastIndex = 0] and leaves [lastIndex = 0], so the regular expression
    object shared by the paragraphs carries nothing from one to the next. *)
Definition replaceInParagraph (paragraphXml : jsstring) (regex : RegExp)
    (replacement : jsstring) : jsstring :=
  let segments := collectSegments paragraphXml in
  match segments with
  | [] => paragraphXml
  | _ :: _ =>
      let fullText := concat (map seg_text segments) in
      let replacedText := String_replace (matcher regex) fullText replacement in
      (* If nothing changed, return as-is *)
      if jsstring_eqb fullText replacedText then paragraphXml
      else rewrite_loop (length segments) segments replacedText paragraphXml
  end.

(** The paragraph pattern of [replaceInXml]. *)
Definition paragraphRegex : Matcher := regex_literal "<w:p[ >][\s\S]*?<\/w:p>".

(** [replaceInXml]. *)
Definition replaceInXml `{RegExpEngine} (xml pattern replacement : jsstring)
    (options : Options) : result jsstring :=
  regex <- buildRegex pattern options ;;
  match regex with
  | None => Ok xml
  | Some regex =>
      Ok (String_replace_fn paragraphRegex xml
            (fun m => replaceInParagraph (m_matched m) regex replacement))
  end.

(* ===================================================================== *)
(** ** State and exceptions

    A computation over a mutable state that may throw: what was written to
    the state before the exception stays written. *)
(* ===================================================================== *)

Definition M (S A : Type) : Type := S -> result A * S.

Definition ret {S A} (a : A) : M S A := fun s => (Ok a, s).

Definition throw {S A} (e : exn) : M S A := fun s => (Throw e, s).

Definition bindM {S A B} (m : M S A) (f : A -> M S B) : M S B :=
  fun s =>
    match m s with
    | (Ok a, s') => f a s'
    | (Throw e, s') => (Throw e, s')
    end.

(** [try { m } catch (error) { handler }]. *)
Definition try_catch {S A} (m : M S A) (handler : exn -> M S A) : M S A :=
  fun s =>
    match m s with
    | (Ok a, s') => (Ok a, s')
    | (Throw e, s') => handler e s'
    end.

Definition get {S} : M S S := fun s => (Ok s, s).

Definition modify {S} (f : S -> S) : M S unit := fun s => (Ok tt, f s).

Definition liftR {S A} (r : result A) : M S A := fun s => (r, s).

Notation "x <~ m ;; k" := (bindM m (fun x => k))
  (at level 100, m at next level, right associativity).
Notation "m ;;; k" := (bindM m (fun _ => k))
  (at level 100, right associativity).

(** The folder of the payload entry. *)
Definition WORD_FOLDER : string := "word/".

(** [zip.file(DOCUMENT_XML_PATH, data)] of JSZip: the entry is written, and
    the folder it lies in gets an entry of its own (without contents) when
    the archive has none; creating the folders of a written entry is the
    default of the library. *)
Definition zip_file_write (z : Zip) (data : jsstring) : Zip :=
  <[DOCUMENT_XML_PATH := data]>
    (match z !! WORD_FOLDER with
     | Some _ => z
     | None => <[WORD_FOLDER := []]> z
     end).

(** [replaceInDocx]: the archive [zip] refers to is overwritten in place and
    the same reference is returned. *)
Definition replaceInDocx `{RegExpEngine} (zip : loc) (pattern replacement : jsstring)
    (options : Options) : M Heap loc :=
  h <~ get ;;
  match h !! zip with
  | None => throw (Error "not an archive")
  | Some z =>
      xml <~ liftR (getDocumentXml z) ;;
      modifiedXml <~ liftR (replaceInXml xml pattern replacement options) ;;
      modify (fun h => <[zip := zip_file_write z modifiedXml]> h) ;;;
      ret zip
  end.

(* ===================================================================== *)
(** ** The browser side of the session *)
(* ===================================================================== *)

(** A [File] the user picked: its name, what [readAsText] gives and what
    [JSZip.loadAsync] gives for its bytes (either may fail). *)
Record File : Type := mkFile {
  file_name : jsstring;
  file_text : result jsstring;
  file_zip : result Zip;
}.

(** Mammoth and the HTML parser of the browser: the preview of an archive,
    and the contents of the text nodes of an HTML string in document order. *)
Class Browser : Type := {
  mammoth_convertToHtml : Zip -> result jsstring;
  html_textNodes : jsstring -> list jsstring;
}.

(** What the user has typed: the find/replace inputs of the replacement list
    and the option toggles. *)
Record ReplacementPair : Type := mkPair {
  find : jsstring;
  replace : jsstring;
}.

Record Dom : Type := mkDom {
  pairInputs : list ReplacementPair;
  optionToggles : Options;
}.

(** [getPairs] of src/components/ReplacementList.js: the pairs whose find
    value is not blank. *)
Definition getPairs (dom : Dom) : list ReplacementPair :=
  filter (fun p => trim (find p) <> []) (pairInputs dom).

(** [getOptions] of src/components/FindReplace.js. *)
Definition getOptions (dom : Dom) : Options := optionToggles dom.

(** [loadDocx]: a new JSZip object for the bytes of the file. *)
Definition loadDocx (file : File) : M Heap loc :=
  z <~ liftR (file_zip file) ;;
  h <~ get ;;
  modify (fun h => h ++ [z]) ;;;
  ret (length h).

(** [loadTxt]. *)
Definition loadTxt (file : File) : result jsstring := file_text file.

(** [generateHtmlPreview]. *)
Definition generateHtmlPreview `{Browser} (archive : Zip) : result jsstring :=
  mammoth_convertToHtml archive.

(** [exportDocx]: the bytes of the archive a reference points to. *)
Definition exportDocx (zip : loc) : M Heap Zip :=
  h <~ get ;;
  match h !! zip with
  | Some z => ret z
  | None => throw (Error "not an archive")
  end.

(** *** src/components/Preview.js

    The functions compute the HTML of the preview panel and the number of
    matches; the embedding keeps the number. *)

(** [renderTextPreview]. *)
Definition renderTextPreview `{RegExpEngine} (text pattern : jsstring)
    (options : Options) : result nat :=
  match text with
  | [] => Ok 0
  | _ :: _ =>
      if bool_decide (pattern = []) || bool_decide (trim pattern = []) then Ok 0
      else
        r <- findMatches text pattern options ;;
        Ok (count r)
  end.

(** The loop over the text nodes in [highlightInHtml]. *)
Fixpoint highlightInHtml_loop `{RegExpEngine} (textNodes : list jsstring)
    (pattern : jsstring) (options : Options) (totalCount : nat) : result nat :=
  match textNodes with
  | [] => Ok totalCount
  | node :: rest =>
      r <- findMatches node pattern options ;;
      highlightInHtml_loop rest pattern options
        (if 0 <? count r then totalCount + count r else totalCount)
  end.

(** [highlightInHtml]: the count it returns. *)
Definition highlightInHtml `{RegExpEngine} `{Browser} (html pattern : jsstring)
    (options : Options) : result nat :=
  highlightInHtml_loop (html_textNodes html) pattern options 0.

(** [renderHtmlPreview]. *)
Definition renderHtmlPreview `{RegExpEngine} `{Browser} (html pattern : jsstring)
    (options : Options) : result nat :=
  match html with
  | [] => Ok 0
  | _ :: _ =>
      if bool_decide (pattern = []) || bool_decide (trim pattern = []) then Ok 0
      else highlightInHtml html pattern options
  end.

(** *** src/utils/fileHelpers.js *)

(** [name.lastIndexOf('.')]: [None] for -1. *)
Fixpoint lastIndexOf_dot (name : jsstring) (i : nat) (found : option nat) : option nat :=
  match name with
  | [] => found
  | c :: rest =>
      lastIndexOf_dot rest (S i) (if Ascii.eqb c "."%char then Some i else found)
  end.

(** [getFileExtension]. *)
Definition getFileExtension (file : File) : jsstring :=
  match lastIndexOf_dot (file_name file) 0 None with
  | None => []
  | Some dotIndex => map PatternEngine.to_lower (drop dotIndex (file_name file))
  end.

(* ===================================================================== *)
(** ** src/main.js *)
(* ===================================================================== *)

Inductive FileType : Type := docx | txt.

(** The [state] object. *)
Record AppState : Type := mkState {
  currentFile : option File;
  fileType : option FileType;
  originalText : jsstring;
  currentText : jsstring;
  originalZip : option loc;
  currentZip : option loc;
  previewHtml : jsstring;
  undoText : option jsstring;
  undoZip : option loc;
  hasReplaced : bool;
}.

Definition initialState : AppState :=
  {| currentFile := None; fileType := None; originalText := []; currentText := [];
     originalZip := None; currentZip := None; previewHtml := [];
     undoText := None; undoZip := None; hasReplaced := false |}.

(** Assignments to the fields of [state]. *)
Definition set_currentFile (v : option File) (st : AppState) : AppState :=
  {| currentFile := v;
     fileType := fileType st;
     originalText := originalText st;
     currentText := currentText st;
     originalZip := originalZip st;
     currentZip := currentZip st;
     previewHtml := previewHtml st;
     undoText := undoText st;
     undoZip := undoZip st;
     hasReplaced := hasReplaced st |}.
Definition set_fileType (v : option FileType) (st : AppState) : AppState :=
  {| currentFile := currentFile st;
     fileType := v;
     originalText := originalText st;
     currentText := currentText st;
     originalZip := originalZip st;
     currentZip := currentZip st;
     previewHtml := previewHtml st;
     undoText := undoText st;
     undoZip := undoZip st;
     hasReplaced := hasReplaced st |}.
Definition set_originalText (v : jsstring) (st : AppState) : AppState :=
  {| currentFile := currentFile st;
     fileType := fileType st;
     originalText := v;
     currentText := currentText st;
     originalZip := originalZip st;
     currentZip := currentZip st;
     previewHtml := previewHtml st;
     undoText := undoText st;
     undoZip := undoZip st;
     hasReplaced := hasReplaced st |}.
Definition set_currentText (v : jsstring) (st : AppState) : AppState :=
  {| currentFile := currentFile st;
     fileType := fileType st;
     originalText := originalText st;
     currentText := v;
     originalZip := originalZip st;
     currentZip := currentZip st;
     previewHtml := previewHtml st;
     undoText := undoText st;
     undoZip := undoZip st;
     hasReplaced := hasReplaced st |}.
Definition set_originalZip (v : option loc) (st : AppState) : AppState :=
  {| currentFile := currentFile st;
     fileType := fileType st;
     originalText := originalText st;
     currentText := currentText st;
     originalZip := v;
     currentZip := currentZip st;
     previewHtml := previewHtml st;
     undoText := undoText st;
     undoZip := undoZip st;
     hasReplaced := hasReplaced st |}.
Definition set_currentZip (v : option loc) (st : AppState) : AppState :=
  {| currentFile := currentFile st;
     fileType := fileType st;
     originalText := originalText st;
     currentText := currentText st;
     originalZip := originalZip st;
     currentZip := v;
     previewHtml := previewHtml st;
     undoText := undoText st;
     undoZip := undoZip st;
     hasReplaced := hasReplaced st |}.
Definition set_previewHtml (v : jsstring) (st : AppState) : AppState :=
  {| currentFile := currentFile st;
     fileType := fileType st;
     originalText := originalText st;
     currentText := currentText st;
     originalZip := originalZip st;
     currentZip := currentZip st;
     previewHtml := v;
     undoText := undoText st;
     undoZip := undoZip st;
     hasReplaced := hasReplaced st |}.
Definition set_undoText (v : option jsstring) (st : AppState) : AppState :=
  {| currentFile := currentFile st;
     fileType := fileType st;
     originalText := originalText st;
     currentText := currentText st;
     originalZip := originalZip st;
     currentZip := currentZip st;
     previewHtml := previewHtml st;
     undoText := v;
     undoZip := undoZip st;
     hasReplaced := hasReplaced st |}.
Definition set_undoZip (v : option loc) (st : AppState) : AppState :=
  {| currentFile := currentFile st;
     fileType := fileType st;
     originalText := originalText st;
     currentText := currentText st;
     originalZip := originalZip st;
     currentZip := currentZip st;
     previewHtml := previewHtml st;
     undoText := undoText st;
     undoZip := v;
     hasReplaced := hasReplaced st |}.
Definition set_hasReplaced (v : bool) (st : AppState) : AppState :=
  {| currentFile := currentFile st;
     fileType := fileType st;
     originalText := originalText st;
     currentText := currentText st;
     originalZip := originalZip st;
     currentZip := currentZip st;
     previewHtml := previewHtml st;
     undoText := undoText st;
     undoZip := undoZip st;
     hasReplaced := v |}.

Inductive ToastType : Type := success | error | warning.

(** The messages [showToast] is called with. *)
Inductive ToastMessage : Type :=
| FileLoaded             (* File loaded successfully! *)
| LoadFailed             (* Failed to load file. Please try again. *)
| Replaced (totalPairs : nat)
                         (* Replaced n pattern(s) successfully! *)
| ReplacementFailed      (* Replacement failed. Please try again. *)
| UndoSuccessful.        (* Undo successful! *)

(** Everything a handler can read and write: [state], the JSZip objects, and
    what the page shows (toasts, match count, enabled buttons). *)
Record World : Type := mkWorld {
  state : AppState;
  heap : Heap;
  toasts : list (ToastMessage * ToastType);
  matchCountBadge : nat;
  buttons : bool * bool * bool;   (* canReplace, canUndo, canDownload *)
}.

Definition initialWorld : World :=
  {| state := initialState; heap := []; toasts := []; matchCountBadge := 0;
     buttons := (false, false, false) |}.

(** [state.field = v]. *)
Definition assign (f : AppState -> AppState) : M World unit :=
  modify (fun w => {| state := f (state w); heap := heap w; toasts := toasts w;
                      matchCountBadge := matchCountBadge w; buttons := buttons w |}).

(** A function of docxProcessor.js run on the JSZip objects of the world. *)
Definition with_heap {A} (m : M Heap A) : M World A :=
  fun w =>
    let '(r, h) := m (heap w) in
    (r, {| state := state w; heap := h; toasts := toasts w;
           matchCountBadge := matchCountBadge w; buttons := buttons w |}).

Definition getState : M World AppState := fun w => (Ok (state w), w).

(** [showToast]. *)
Definition showToast (message : ToastMessage) (type : ToastType) : M World unit :=
  modify (fun w => {| state := state w; heap := heap w;
                      toasts := toasts w ++ [(message, type)];
                      matchCountBadge := matchCountBadge w; buttons := buttons w |}).

(** [updateMatchCount]. *)
Definition updateMatchCount (n : nat) : M World unit :=
  modify (fun w => {| state := state w; heap := heap w; toasts := toasts w;
                      matchCountBadge := n; buttons := buttons w |}).

(** [setButtonStates]. *)
Definition setButtonStates (canReplace canUndo canDownload : bool) : M World unit :=
  modify (fun w => {| state := state w; heap := heap w; toasts := toasts w;
                      matchCountBadge := matchCountBadge w;
                      buttons := (canReplace, canUndo, canDownload) |}).

(** [resetUndoState]. *)
Definition resetUndoState : M World unit :=
  assign (set_undoText None) ;;;
  assign (set_undoZip None) ;;;
  assign (set_hasReplaced false).

(** [loadTextFile]. *)
Definition loadTextFile (file : File) : M World unit :=
  text <~ liftR (loadTxt file) ;;
  assign (set_originalText text) ;;;
  st <~ getState ;;
  assign (set_currentText (originalText st)).

(** [loadDocxFile]. *)
Definition loadDocxFile `{Browser} (file : File) : M World unit :=
  z1 <~ with_heap (loadDocx file) ;;
  assign (set_originalZip (Some z1)) ;;;
  arrayBuffer <~ liftR (file_zip file) ;;
  z2 <~ with_heap (loadDocx file) ;;
  assign (set_currentZip (Some z2)) ;;;
  html <~ liftR (generateHtmlPreview arrayBuffer) ;;
  assign (set_previewHtml html) ;;;
  archive <~ with_heap (exportDocx z1) ;;
  xml <~ liftR (getDocumentXml archive) ;;
  assign (set_originalText (extractTextFromXml xml)) ;;;
  st <~ getState ;;
  assign (set_currentText (originalText st)).

(** [handleInputChange]. *)
Definition handleInputChange `{RegExpEngine} `{Browser} (dom : Dom) : M World unit :=
  st <~ getState ;;
  match currentFile st with
  | None => ret tt
  | Some _ =>
      let pairs := getPairs dom in
      let options := getOptions dom in
      let hasPatterns := 0 <? length pairs in
      let firstPattern := match pairs with p :: _ => find p | [] => [] end in
      matchCount <~ liftR
        (match fileType st with
         | Some txt => renderTextPreview (currentText st) firstPattern options
         | _ => renderHtmlPreview (previewHtml st) firstPattern options
         end) ;;
      updateMatchCount matchCount ;;;
      setButtonStates (hasPatterns && (0 <? matchCount)) (hasReplaced st) (hasReplaced st)
  end.

(** [ext === '.docx' ? 'docx' : 'txt'] for the extension of the file. *)
Definition fileType_of (file : File) : FileType :=
  if bool_decide (getFileExtension file = str ".docx") then docx else txt.

(** [handleFileSelected]. *)
Definition handleFileSelected `{RegExpEngine} `{Browser} (dom : Dom) (file : File)
    : M World unit :=
  try_catch
    (assign (set_currentFile (Some file)) ;;;
     assign (set_fileType (Some (fileType_of file))) ;;;
     st <~ getState ;;
     match fileType st with
     | Some txt => loadTextFile file
     | _ => loadDocxFile file
     end ;;;
     resetUndoState ;;;
     handleInputChange dom ;;;
     showToast FileLoaded success)
    (fun _ => showToast LoadFailed error).

(** The [for (const pair of pairs)] loop of [applyTextReplacements]. *)
Fixpoint applyTextReplacements_loop `{RegExpEngine} (pairs : list ReplacementPair)
    (options : Options) (text : jsstring) : result jsstring :=
  match pairs with
  | [] => Ok text
  | pair_ :: rest =>
      text' <- replaceAll text (find pair_) (replace pair_) options ;;
      applyTextReplacements_loop rest options text'
  end.

(** [applyTextReplacements]. *)
Definition applyTextReplacements `{RegExpEngine} (pairs : list ReplacementPair)
    (options : Options) : M World unit :=
  st <~ getState ;;
  text <~ liftR (applyTextReplacements_loop pairs options (currentText st)) ;;
  assign (set_currentText text).

(** The [for (const pair of pairs)] loop of [applyDocxReplacements]. *)
Fixpoint applyDocxReplacements_loop `{RegExpEngine} (pairs : list ReplacementPair)
    (options : Options) (zip : loc) : M Heap loc :=
  match pairs with
  | [] => ret zip
  | pair_ :: rest =>
      zip' <~ replaceInDocx zip (find pair_) (replace pair_) options ;;
      applyDocxReplacements_loop rest options zip'
  end.

(** [applyDocxReplacements].  [state.currentZip] is a JSZip object whenever a
    .docx file is loaded; a [null] there makes [replaceInDocx] throw. *)
Definition applyDocxReplacements `{RegExpEngine} `{Browser} (pairs : list ReplacementPair)
    (options : Options) : M World unit :=
  st <~ getState ;;
  match currentZip st with
  | None => throw (Error "Cannot read properties of null")
  | Some zip0 =>
      zip <~ with_heap (applyDocxReplacements_loop pairs options zip0) ;;
      assign (set_currentZip (Some zip)) ;;;
      (* Regenerate preview from modified zip *)
      arrayBuffer <~ with_heap (exportDocx zip) ;;
      html <~ liftR (generateHtmlPreview arrayBuffer) ;;
      assign (set_previewHtml html) ;;;
      (* Update text for matching *)
      xml <~ liftR (getDocumentXml arrayBuffer) ;;
      assign (set_currentText (extractTextFromXml xml))
  end.

(** [handleReplaceAll]. *)
Definition handleReplaceAll `{RegExpEngine} `{Browser} (dom : Dom) : M World unit :=
  try_catch
    (let pairs := getPairs dom in
     let options := getOptions dom in
     match pairs with
     | [] => ret tt
     | _ :: _ =>
         (* Save undo state *)
         st <~ getState ;;
         assign (set_undoText (Some (currentText st))) ;;;
         assign (set_undoZip (currentZip st)) ;;;
         match fileType st with
         | Some txt => applyTextReplacements pairs options
         | _ => applyDocxReplacements pairs options
         end ;;;
         assign (set_hasReplaced true) ;;;
         handleInputChange dom ;;;
         showToast (Replaced (length pairs)) success
     end)
    (fun _ => showToast ReplacementFailed error).

(** [a || b] on a string that may be [null]: the empty string is falsy. *)
Definition or_text (a : option jsstring) (b : jsstring) : jsstring :=
  match a with
  | Some (c :: s) => c :: s
  | _ => b
  end.

(** [a || b] on object references that may be [null]. *)
Definition or_zip (a b : option loc) : option loc :=
  match a with
  | Some z => Some z
  | None => b
  end.

(** [handleUndo]. *)
Definition handleUndo `{RegExpEngine} `{Browser} (dom : Dom) : M World unit :=
  st <~ getState ;;
  if negb (hasReplaced st) then ret tt
  else
    assign (set_currentText (or_text (undoText st) (originalText st))) ;;;
    assign (set_currentZip (or_zip (undoZip st) (originalZip st))) ;;;
    st' <~ getState ;;
    match fileType st', currentZip st' with
    | Some docx, Some zip =>
        arrayBuffer <~ with_heap (exportDocx zip) ;;
        html <~ liftR (generateHtmlPreview arrayBuffer) ;;
        assign (set_previewHtml html)
    | _, _ => ret tt
    end ;;;
    resetUndoState ;;;
    handleInputChange dom ;;;
    showToast UndoSuccessful success.

(** The text of the payload of the archive [state.currentZip] refers to;
    [None] when there is no archive or no payload. *)
Definition currentPayload (w : World) : option jsstring :=
  match currentZip (state w) with
  | Some zip =>
      match heap w !! zip with
      | Some z => z !! DOCUMENT_XML_PATH
      | None => None
      end
  | None => None
  end.

Definition currentPayloadText (w : World) : option jsstring :=
  extractTextFromXml <$> currentPayload w.

(* ===================================================================== *)
(** ** Preview, upload, download, theme and the events of the page *)
(* ===================================================================== *)

(** *** src/components/Preview.js, the HTML of the preview panel *)

(** The pattern of [escapeHtml]: a class of five characters, the double
    quote among them. *)
Definition htmlSpecialRegex : Matcher :=
  match PatternEngine.compile (str "[&<>" ++ [dquote] ++ str "']") false with
  | Some M => M
  | None => fun _ _ => None
  end.

(** [map[char]] for the object literal of [escapeHtml]; a key the object
    does not have gives [undefined]. *)
Definition entity_map (char : jsstring) : jsstring :=
  if jsstring_eqb char (str "&") then str "&amp;"
  else if jsstring_eqb char (str "<") then str "&lt;"
  else if jsstring_eqb char (str ">") then str "&gt;"
  else if jsstring_eqb char [dquote] then str "&quot;"
  else if jsstring_eqb char (str "'") then str "&#039;"
  else str "undefined".

(** [escapeHtml]. *)
Definition escapeHtml (s : jsstring) : jsstring :=
  String_replace_fn htmlSpecialRegex s (fun m => entity_map (m_matched m)).

(** The call that turns every line feed into a br tag. *)
Definition newlines_to_br (s : jsstring) : jsstring :=
  String_replace (regex_literal "\n") s (str "<br>").

(** The mark element around a match. *)
Definition mark_open : jsstring :=
  str "<mark class=" ++ [dquote] ++ str "match-highlight" ++ [dquote] ++ str ">".

Definition mark_close : jsstring := str "</mark>".

(** The [for (const pos of positions)] loop of [buildHighlightedHtml]. *)
Fixpoint buildHighlightedHtml_loop (text : jsstring) (positions : list Position)
    (result : jsstring) (lastIndex : nat) : jsstring * nat :=
  match positions with
  | [] => (result, lastIndex)
  | pos :: rest =>
      (* Text before match *)
      let result :=
        result ++ newlines_to_br (escapeHtml (slice text lastIndex (pos_start pos))) in
      (* Highlighted match *)
      let result :=
        result ++ mark_open
          ++ escapeHtml (slice text (pos_start pos) (pos_end pos)) ++ mark_close in
      buildHighlightedHtml_loop text rest result (pos_end pos)
  end.

(** [buildHighlightedHtml]. *)
Definition buildHighlightedHtml (text : jsstring) (positions : list Position) : jsstring :=
  match positions with
  | [] => newlines_to_br (escapeHtml text)
  | _ :: _ =>
      let '(result, lastIndex) := buildHighlightedHtml_loop text positions [] 0 in
      (* Remaining text after last match *)
      result ++ newlines_to_br (escapeHtml (drop lastIndex text))
  end.

(** What the preview panel holds: the placeholder of [renderEmptyState], or
    an HTML string assigned to [innerHTML]. *)
Inductive PreviewContent : Type :=
| EmptyState
| InnerHTML (html : jsstring).

(** [renderTextPreview]: what it puts into the preview panel. *)
Definition renderTextPreview_innerHTML `{RegExpEngine} (text pattern : jsstring)
    (options : Options) : result PreviewContent :=
  match text with
  | [] => Ok EmptyState
  | _ :: _ =>
      if bool_decide (pattern = []) || bool_decide (trim pattern = [])
      then Ok (InnerHTML (newlines_to_br (escapeHtml text)))
      else
        r <- findMatches text pattern options ;;
        Ok (InnerHTML (buildHighlightedHtml text (positions r)))
  end.

(** *** src/components/Preview.js, the fragment of a text node *)

(** The nodes [createHighlightFragment] appends: a text node, or a mark
    element with its text content. *)
Inductive HighlightNode : Type :=
| TextNode (data : jsstring)
| MarkElement (textContent : jsstring).

Definition node_textContent (n : HighlightNode) : jsstring :=
  match n with
  | TextNode data => data
  | MarkElement textContent => textContent
  end.

(** The [for (const pos of positions)] loop of [createHighlightFragment]. *)
Fixpoint createHighlightFragment_loop (text : jsstring) (positions : list Position)
    (fragment : list HighlightNode) (lastIndex : nat) : list HighlightNode * nat :=
  match positions with
  | [] => (fragment, lastIndex)
  | pos :: rest =>
      let fragment :=
        if lastIndex <? pos_start pos
        then fragment ++ [TextNode (slice text lastIndex (pos_start pos))]
        else fragment in
      let fragment :=
        fragment ++ [MarkElement (slice text (pos_start pos) (pos_end pos))] in
      createHighlightFragment_loop text rest fragment (pos_end pos)
  end.

(** [createHighlightFragment]: the children of the fragment, in order. *)
Definition createHighlightFragment (text : jsstring) (positions : list Position)
    : list HighlightNode :=
  let '(fragment, lastIndex) := createHighlightFragment_loop text positions [] 0 in
  if lastIndex <? length text then fragment ++ [TextNode (drop lastIndex text)]
  else fragment.

(** *** src/utils/fileHelpers.js, the checks of the upload *)

Definition SUPPORTED_EXTENSIONS : list jsstring := [str ".docx"; str ".txt"].

(** Maximum file size in MB. *)
Definition MAX_FILE_SIZE_MB : N := 50.

(** [isSupported]: [Array.prototype.includes] compares the strings. *)
Definition isSupported (file : File) : bool :=
  existsb (jsstring_eqb (getFileExtension file)) SUPPORTED_EXTENSIONS.

(** [isWithinSizeLimit], on the [size] property of the file in bytes. *)
Definition isWithinSizeLimit (size : N) : bool :=
  let maxBytes := (MAX_FILE_SIZE_MB * 1024 * 1024)%N in
  (size <=? maxBytes)%N.

(** *** src/components/FileUpload.js *)

(** The messages [handleFile] reports. *)
Inductive UploadError : Type :=
| UnsupportedFileType   (* Unsupported file type. Please upload a .docx or .txt file. *)
| FileTooLarge.         (* File is too large. Maximum size is 50 MB. *)

(** [handleFile] for a file of [size] bytes: one of the two callbacks is
    called. *)
Definition handleFile {A} (file : File) (size : N) (onFileSelected : File -> A)
    (onError : UploadError -> A) : A :=
  if negb (isSupported file) then onError UnsupportedFileType
  else if negb (isWithinSizeLimit size) then onError FileTooLarge
  else onFileSelected file.

(** *** src/main.js, the name [handleDownload] saves under *)

(** [downloadName] of [handleDownload]: the name of the file with _replaced
    put in front of the extension; a dot at index 0 does not start an
    extension here. *)
Definition downloadName (originalName : jsstring) : jsstring :=
  let dotIndex := lastIndexOf_dot originalName 0 None in
  let baseName := match dotIndex with
                  | Some (S i) => slice originalName 0 (S i)
                  | _ => originalName
                  end in
  let extension := match dotIndex with
                   | Some (S i) => drop (S i) originalName
                   | _ => []
                   end in
  baseName ++ str "_replaced" ++ extension.

(** *** src/components/ThemeToggle.js *)

(** What the theme toggle reads and writes: the item of [localStorage]
    under the key of the theme, and the data-theme attribute of the
    document element; [None] is [null]. *)
Record ThemeStore : Type := mkThemeStore {
  savedTheme : option jsstring;
  dataTheme : option jsstring;
}.

(** [a || b] for a string that may be [null]: [null] and the empty string
    are falsy. *)
Definition or_string (a : option jsstring) (b : jsstring) : jsstring :=
  match a with
  | Some (c :: s) => c :: s
  | _ => b
  end.

(** [applyTheme]. *)
Definition applyTheme (theme : jsstring) (store : ThemeStore) : ThemeStore :=
  {| savedTheme := savedTheme store; dataTheme := Some theme |}.

(** [initThemeToggle], up to the registration of the listener;
    [prefersDark] is what the media query gives. *)
Definition initThemeToggle (prefersDark : bool) (store : ThemeStore) : ThemeStore :=
  let initialTheme :=
    or_string (savedTheme store) (if prefersDark then str "dark" else str "light") in
  applyTheme initialTheme store.

(** The click listener of the toggle button. *)
Definition themeToggleClicked (store : ThemeStore) : ThemeStore :=
  let currentTheme := or_string (dataTheme store) (str "dark") in
  let newTheme := if jsstring_eqb currentTheme (str "dark") then str "light" else str "dark" in
  let store := applyTheme newTheme store in
  {| savedTheme := Some newTheme; dataTheme := dataTheme store |}.

(** *** src/main.js, the listeners *)

(** The events the listeners of the page are registered for, each with what
    is typed in the inputs when it fires. *)
Inductive Event : Type :=
| ReplaceAllClicked (dom : Dom)
| UndoClicked (dom : Dom)
| InputChanged (dom : Dom).

(** The listener of an event. *)
Definition listener `{RegExpEngine} `{Browser} (e : Event) : M World unit :=
  match e with
  | ReplaceAllClicked dom => handleReplaceAll dom
  | UndoClicked dom => handleUndo dom
  | InputChanged dom => handleInputChange dom
  end.

(** The world after the events when the listeners run one after the other:
    each listener has returned (or thrown) before the next event is handled.
    [handleReplaceAll] and [handleUndo] are asynchronous and no control is
    disabled while they wait, so this holds only for a user who waits for a
    handler to finish; the runs in which an event is handled while another
    handler is suspended are not among these.  An exception that leaves a
    listener ends that listener only. *)
Definition after_events `{RegExpEngine} `{Browser} (es : list Event) (w : World) : World :=
  foldl (fun w e => snd (listener e w)) w es.

(* ===================================================================== *)
(** ** Vocabulary of the statements *)
(* ===================================================================== *)

(** The span a match occupies in its input. *)
Definition m_end (m : MatchResult) : nat := m_index m + length (m_matched m).

(** Where the next search starts after [m] in a loop that steps over empty
    matches. *)
Definition next_index (m : MatchResult) : nat :=
  match m_matched m with
  | [] => S (m_end m)
  | _ :: _ => m_end m
  end.

(** Matches found from index [lo] on, left to right: each starts at or
    after [lo], lies within [s], is the text of [s] at its span, and the
    rest follows it. *)
Fixpoint chain (s : jsstring) (lo : nat) (ms : list MatchResult) : Prop :=
  match ms with
  | [] => True
  | m :: rest =>
      lo <= m_index m /\ m_end m <= length s /\
      m_matched m = slice s (m_index m) (m_end m) /\
      chain s (next_index m) rest
  end.

(** [s] with each of the spans replaced by the text next to it; the spans
    are read left to right from index [pos]. *)
Fixpoint splice (s : jsstring) (pos : nat) (items : list (nat * nat * jsstring)) : jsstring :=
  match items with
  | [] => drop pos s
  | (a, b, t) :: rest => slice s pos a ++ t ++ splice s b rest
  end.

(** The span of a match with a text to put there. *)
Definition span_with (f : MatchResult -> jsstring) (m : MatchResult) : nat * nat * jsstring :=
  (m_index m, m_end m, f m).

(** The element of [positions] for a match. *)
Definition position_of (m : MatchResult) : Position :=
  {| pos_start := m_index m; pos_end := m_end m; pos_match := m_matched m |}.

(** The element of [segments] for a match. *)
Definition segment_of (m : MatchResult) : Segment :=
  {| seg_fullMatch := m_matched m; seg_attrs := capture m 1; seg_text := capture m 2;
     seg_start := m_index m; seg_end := m_end m |}.

(** The spans [findMatches] reports, read left to right from index [lo]:
    each span starts at or after [lo], ends within the text, holds the text
    at its span, and the next span starts at its end, one code unit later
    when the span is empty. *)
Fixpoint scan_order (text : jsstring) (lo : nat) (ps : list Position) : Prop :=
  match ps with
  | [] => True
  | p :: rest =>
      lo <= pos_start p /\ pos_end p = pos_start p + length (pos_match p) /\
      pos_end p <= length text /\
      pos_match p = slice text (pos_start p) (pos_end p) /\
      scan_order text (if pos_start p =? pos_end p then S (pos_end p) else pos_end p) rest
  end.

(** A browser for the examples: the document converter renders the text of
    the payload without markup, and such a preview is one text node. *)
Definition PlainBrowser : Browser :=
  {| mammoth_convertToHtml := fun archive =>
       xml <- getDocumentXml archive ;; Ok (extractTextFromXml xml);
     html_textNodes := fun html => [html] |}.

Definition regexOptions : Options :=
  {| isCaseSensitive := false; isWholeWord := false; isRegex := true |}.

(** The files and inputs of the examples. *)
Definition textFile (content : jsstring) : File :=
  {| file_name := str "notes.txt"; file_text := Ok content;
     file_zip := Throw (Error "not a zip archive") |}.

Definition docxFile (payload : string) : File :=
  {| file_name := str "letter.docx"; file_text := Ok [];
     file_zip := Ok {[ DOCUMENT_XML_PATH := str payload ]} |}.

Definition pair_of (f r : string) : ReplacementPair :=
  {| find := str f; replace := str r |}.

Definition typed (pairs : list ReplacementPair) (options : Options) : Dom :=
  {| pairInputs := pairs; optionToggles := options |}.

(** A document with one paragraph, one run and the text a. *)
Definition one_paragraph : string := "<w:p><w:r><w:t>a</w:t></w:r></w:p>".

(** The patterns of the regular expression literals, as parsed. *)
Definition chars (cs : jsstring) (rest : PatternEngine.re) : PatternEngine.re :=
  foldr (fun c r => PatternEngine.RSeq (PatternEngine.RChar c) r) rest cs.

Definition star_of (greedy neg : bool) (items : list PatternEngine.class_item)
    : PatternEngine.re :=
  PatternEngine.RQuant 0 None greedy (PatternEngine.RSet neg items).

Definition textTag_re : PatternEngine.re :=
  chars (str "<w:t")
    (PatternEngine.RSeq
       (PatternEngine.RGroup 0
          (PatternEngine.RSeq (star_of true true [PatternEngine.CChar ">"%char])
             PatternEngine.REmpty))
       (chars (str ">")
          (PatternEngine.RSeq
             (PatternEngine.RGroup 1
                (PatternEngine.RSeq (star_of true true [PatternEngine.CChar "<"%char])
                   PatternEngine.REmpty))
             (chars (str "</w:t>") PatternEngine.REmpty)))).

Definition paragraph_re : PatternEngine.re :=
  chars (str "<w:p")
    (PatternEngine.RSeq
       (PatternEngine.RSet false [PatternEngine.CChar " "%char; PatternEngine.CChar ">"%char])
       (PatternEngine.RSeq
          (star_of false false [PatternEngine.CSpace false; PatternEngine.CSpace true])
          (chars (str "</w:p>") PatternEngine.REmpty))).

(** The characters [escapeRegexChars] escapes. *)
Definition special_chars : jsstring := str ".*+?^${}()|[]\".

Definition is_special (c : ascii) : bool := existsb (Ascii.eqb c) special_chars.

(** The serialized form of a text tag with the given attributes and text. *)
Definition render (attrs text : jsstring) : jsstring :=
  str "<w:t" ++ attrs ++ str ">" ++ text ++ str "</w:t>".

(** What the rewriting loop of [replaceInParagraph] writes for segment [i]:
    its text, its attributes, its tag. *)
Definition newText (replacedText : jsstring) (i : nat) : jsstring :=
  if i =? 0 then replacedText else [].

Definition newAttrs (replacedText : jsstring) (i : nat) (segment : Segment) : jsstring :=
  if 0 <? length (newText replacedText i) then preserve_attr else seg_attrs segment.

Definition newTag (replacedText : jsstring) (i : nat) (segment : Segment) : jsstring :=
  render (newAttrs replacedText i segment) (newText replacedText i).

(** The spans of the segments with the tags written there. *)
Definition rewritten (replacedText : jsstring) (segments : list Segment)
    : list (nat * nat * jsstring) :=
  imap (fun i seg => (seg_start seg, seg_end seg, newTag replacedText i seg)) segments.

(** The spans of the segments with the tags that were there. *)
Definition original (segments : list Segment) : list (nat * nat * jsstring) :=
  map (fun seg => (seg_start seg, seg_end seg, seg_fullMatch seg)) segments.

(** Spans in ascending order between [lo] and [bound], none overlapping. *)
Fixpoint sorted_spans (lo : nat) (items : list (nat * nat * jsstring)) (bound : nat) : Prop :=
  match items with
  | [] => lo <= bound
  | (a, b, _) :: rest => lo <= a /\ a <= b /\ sorted_spans b rest bound
  end.

(** The text between the spans: before the first, between neighbours, after
    the last. *)
Fixpoint gaps (s : jsstring) (pos : nat) (spans : list (nat * nat)) : list jsstring :=
  match spans with
  | [] => [drop pos s]
  | (a, b) :: rest => slice s pos a :: gaps s b rest
  end.

(** Gaps and texts in turn, starting and ending with a gap. *)
Fixpoint interleave (gs ts : list jsstring) : jsstring :=
  match gs with
  | [] => []
  | g :: gs' =>
      g ++ match ts with
           | [] => []
           | t :: ts' => t ++ interleave gs' ts'
           end
  end.

(** The spans of the matches of a global scan. *)
Definition spans_of (ms : list MatchResult) : list (nat * nat) :=
  map (fun m => (m_index m, m_end m)) ms.

(** The spans of the segments of a paragraph. *)
Definition segment_spans (segments : list Segment) : list (nat * nat) :=
  map (fun seg => (seg_start seg, seg_end seg)) segments.

(** [s.includes(p)]. *)
Definition includes (s p : jsstring) : bool :=
  existsb (fun i => startsWith p (drop i s)) (seq 0 (S (length s))).

(** The per-Block postcondition as the specification words it.  A Block
    without fragments is returned as it was.  For a Block with fragments: an
    unchanged text gives the Block back as it was; otherwise the Block has
    the same number of fragments, its first fragment holds the whole new
    text, every other fragment is empty, and the fragment texts concatenate
    to the new text. *)
Definition block_postcondition (p : jsstring) (regex : RegExp) (replacement : jsstring)
    : Prop :=
  let fullText := concat (map seg_text (collectSegments p)) in
  let replacedText := String_replace (matcher regex) fullText replacement in
  let out := replaceInParagraph p regex replacement in
  match collectSegments p with
  | [] => out = p
  | _ :: _ =>
      (replacedText = fullText -> out = p) /\
      (replacedText <> fullText ->
       exists first rest,
         collectSegments out = first :: rest /\
         length (collectSegments out) = length (collectSegments p) /\
         seg_text first = replacedText /\
         Forall (fun seg => seg_text seg = []) rest /\
         concat (map seg_text (collectSegments out)) = replacedText)
  end.

(** Attribute pass-through as the specification words it: the output has
    the fragments of the input, each with the attributes it had (the
    whitespace attribute may have been added to them). *)
Definition attributes_carried (p out : jsstring) : bool :=
  bool_decide (length (collectSegments out) = length (collectSegments p)) &&
  forallb (fun '(seg, seg') => includes (seg_attrs seg') (seg_attrs seg))
          (zip (collectSegments p) (collectSegments out)).

(** A paragraph that holds a line break and no text. *)
Definition break_paragraph : jsstring := str "<w:p><w:r><w:br/></w:r></w:p>".

(** A paragraph whose text tag has a language attribute. *)
Definition lang_paragraph : jsstring :=
  str "<w:p><w:r><w:t xml:lang=" ++ [dquote] ++ str "en" ++ [dquote]
    ++ str ">a</w:t></w:r></w:p>".

(** The paragraph of the cross-fragment example: fragments fo and o bar, the
    second in a bold run. *)
Definition foo_bar_paragraph : jsstring :=
  str "<w:p><w:r><w:t>fo</w:t></w:r><w:r><w:rPr><w:b/></w:rPr><w:t>o bar</w:t></w:r></w:p>".

(** A body with a text tag outside any paragraph, a paragraph, and section
    properties. *)
Definition framed_document : jsstring :=
  str "<w:body><w:t>a</w:t><w:p><w:r><w:t>a</w:t></w:r></w:p><w:sectPr/></w:body>".

(** A body with two paragraphs and, between them and after them, a text tag
    outside any paragraph. *)
Definition two_paragraphs : jsstring :=
  str "<w:body><w:p><w:r><w:t>a</w:t></w:r></w:p><w:t>a</w:t><w:p><w:r><w:t>a</w:t></w:r></w:p><w:t>a</w:t></w:body>".

(** An empty paragraph written as an empty-element tag with an attribute,
    and a body in which a text tag outside any paragraph stands between
    such a tag and a paragraph. *)
Definition empty_paragraph_tag : jsstring :=
  str "<w:p w:rsidR=" ++ [dquote] ++ str "1" ++ [dquote] ++ str "/>".

Definition stray_after_empty : jsstring :=
  str "<w:body>" ++ empty_paragraph_tag ++ str "<w:t>a</w:t>" ++ str one_paragraph
    ++ str "</w:body>".

(** An opening paragraph tag stands at index [i] of [s]: the name of the
    tag, then a space or the closing bracket.  An empty-element tag with a
    space after the name starts in the same way. *)
Definition opens_at (s : jsstring) (i : nat) : Prop :=
  slice s i (i + 4) = str "<w:p" /\
  (s !! (i + 4) = Some " "%char \/ s !! (i + 4) = Some ">"%char).

(** A closing paragraph tag stands at index [j] of [s]. *)
Definition closes_at (s : jsstring) (j : nat) : Prop :=
  slice s j (j + 6) = str "</w:p>".

(** Both can be decided by comparing the text at the index. *)
#[local] Instance opens_at_dec s i : Decision (opens_at s i).
Proof. unfold opens_at. apply _. Defined.

#[local] Instance closes_at_dec s j : Decision (closes_at s j).
Proof. unfold closes_at. apply _. Defined.

(** The span of a paragraph in the serialized document: from an opening
    paragraph tag at [i] to the end [e] of the first closing paragraph tag
    that follows it. *)
Definition paragraph_span (s : jsstring) (i e : nat) : Prop :=
  opens_at s i /\
  exists j, i + 5 <= j /\ e = j + 6 /\ closes_at s j /\
            forall t, i + 5 <= t < j -> ~ closes_at s t.

(** An opening paragraph tag at [i] with a closing paragraph tag somewhere
    after it. *)
Definition closed_later (s : jsstring) (i : nat) : Prop :=
  opens_at s i /\ exists j, i + 5 <= j /\ closes_at s j.

(** The paragraphs of a document read left to right from index [lo]: each
    is the span of the first opening tag at or after the end of the one
    before that is closed later, up to the first closing tag after it; after
    the last one no opening tag is closed. *)
Fixpoint paragraph_scan (s : jsstring) (lo : nat) (ms : list MatchResult) : Prop :=
  match ms with
  | [] => forall i, lo <= i -> ~ closed_later s i
  | m :: rest =>
      lo <= m_index m /\
      (forall i, lo <= i < m_index m -> ~ closed_later s i) /\
      paragraph_span s (m_index m) (m_end m) /\
      paragraph_scan s (m_end m) rest
  end.

(** A complete scan with the matcher [M] from index [lo]: the matches are
    the leftmost ones, each found where the one before ended. *)
Fixpoint scan_of (M : Matcher) (s : jsstring) (lo : nat) (ms : list MatchResult) : Prop :=
  match ms with
  | [] => forall j, lo <= j <= length s -> M s j = None
  | m :: rest =>
      lo <= m_index m /\
      (forall j, lo <= j < m_index m -> M s j = None) /\
      (exists len, M s (m_index m) = Some (len, m_captures m) /\ m_end m = m_index m + len) /\
      scan_of M s (m_end m) rest
  end.

(** A wordprocessing document with the given contents of its body. *)
Definition document_of (body : jsstring) : jsstring :=
  str "<w:document xmlns:w=" ++ [dquote]
    ++ str "http://schemas.openxmlformats.org/wordprocessingml/2006/main" ++ [dquote]
    ++ str "><w:body>" ++ body ++ str "</w:body></w:document>".

(** A .docx file whose archive holds the payload. *)
Definition documentFile (payload : jsstring) : File :=
  {| file_name := str "letter.docx"; file_text := Ok [];
     file_zip := Ok {[ DOCUMENT_XML_PATH := payload ]} |}.

(** The loop of [applyDocxReplacements] read on the payload alone: what
    [replaceInXml] gives pair after pair, each on the result of the one
    before. *)
Fixpoint replaceInXml_pairs `{RegExpEngine} (pairs : list ReplacementPair)
    (options : Options) (xml : jsstring) : result jsstring :=
  match pairs with
  | [] => Ok xml
  | pair_ :: rest =>
      xml' <- replaceInXml xml (find pair_) (replace pair_) options ;;
      replaceInXml_pairs rest options xml'
  end.

(** The payload the loop leaves in the archive: the result of the last pair
    that was applied before the loop ended or threw. *)
Fixpoint payload_after `{RegExpEngine} (pairs : list ReplacementPair)
    (options : Options) (xml : jsstring) : jsstring :=
  match pairs with
  | [] => xml
  | pair_ :: rest =>
      match replaceInXml xml (find pair_) (replace pair_) options with
      | Ok xml' => payload_after rest options xml'
      | Throw _ => xml
      end
  end.

(** A document with one paragraph, one run and the text a; the same with
    the text b, as [replaceInParagraph] writes it. *)
Definition letter_a : jsstring := document_of (str one_paragraph).

Definition letter_b : jsstring :=
  document_of (str "<w:p><w:r><w:t" ++ preserve_attr ++ str ">b</w:t></w:r></w:p>").

(** How [escapeRegexChars] writes one character. *)
Definition escape_char (c : ascii) : jsstring :=
  if is_special c then ["\"%char; c] else [c].

(** The case rule: with [caseSensitive] off, letters are compared by their
    upper-case form. *)
Definition fold_case (caseSensitive : bool) (c : ascii) : ascii :=
  if caseSensitive then c else PatternEngine.to_upper c.

(** [p] and [t] are the same text under the case rule. *)
Fixpoint same_text (caseSensitive : bool) (p t : jsstring) : bool :=
  match p, t with
  | [], [] => true
  | a :: p', b :: t' =>
      Ascii.eqb (fold_case caseSensitive a) (fold_case caseSensitive b)
      && same_text caseSensitive p' t'
  | _, _ => false
  end.

(** A word boundary at index [i] of [t]: exactly one of the characters
    before and after [i] is a word character (letter, digit, underscore);
    beyond either end of [t] there is none. *)
Definition word_boundary (t : jsstring) (i : nat) : bool :=
  xorb (match i with 0 => false | S j => PatternEngine.word_at t j end)
       (PatternEngine.word_at t i).

(** [p] occurs in [t] at index [i]; with [wholeWord], between two word
    boundaries. *)
Definition occurs_at (caseSensitive wholeWord : bool) (p t : jsstring) (i : nat) : bool :=
  same_text caseSensitive p (slice t i (i + length p))
  && (negb wholeWord || (word_boundary t i && word_boundary t (i + length p))).

(** The non-overlapping occurrences of a non-empty [p] in [t], left to
    right from index [i]: an occurrence at [i] counts and the search goes on
    behind it, otherwise it goes on at [i + 1].  Every step moves on, so
    [fuel = length t + 1] steps reach the end of [t]. *)
Fixpoint occurrences_from (caseSensitive wholeWord : bool) (p t : jsstring)
    (fuel i : nat) : list nat :=
  match fuel with
  | 0 => []
  | S fuel' =>
      if length t <? i + length p then []
      else if occurs_at caseSensitive wholeWord p t i
           then i :: occurrences_from caseSensitive wholeWord p t fuel' (i + length p)
           else occurrences_from caseSensitive wholeWord p t fuel' (S i)
  end.

Definition occurrences (caseSensitive wholeWord : bool) (p t : jsstring) : list nat :=
  occurrences_from caseSensitive wholeWord p t (length t + 1) 0.

(** The span of an occurrence of [p] at [i]. *)
Definition occurrence_span (p t : jsstring) (i : nat) : Position :=
  {| pos_start := i; pos_end := i + length p; pos_match := slice t i (i + length p) |}.

Definition literalOptions (caseSensitive wholeWord : bool) : Options :=
  {| isCaseSensitive := caseSensitive; isWholeWord := wholeWord; isRegex := false |}.

(** A text without the character that opens a tag. *)
Definition markup_free (t : jsstring) : bool :=
  forallb (fun c => negb (Ascii.eqb c "<"%char)) t.

(** Attributes and text that the pattern of [textTagRegex] reads as such:
    no closing bracket in the attributes, no opening bracket in the text. *)
Definition tag_ok (a t : jsstring) : Prop :=
  Forall (fun c => c <> ">"%char) a /\ Forall (fun c => c <> "<"%char) t.

(** [u] starts with the text tag of [a] and [t]. *)
Definition tag_at (u a t : jsstring) : Prop :=
  tag_ok a t /\ exists post, u = render a t ++ post.

(** No text tag starts [u]. *)
Definition no_tag (u : jsstring) : Prop := forall a t, ~ tag_at u a t.

(** A paragraph as its scan reads it: pieces, each a gap followed by a text
    tag given by its attributes and its text, and the gap after the last
    tag. *)
Definition piece : Type := jsstring * jsstring * jsstring.

Fixpoint assemble (pieces : list piece) (last : jsstring) : jsstring :=
  match pieces with
  | [] => last
  | (g, a, t) :: rest => g ++ render a t ++ assemble rest last
  end.

(** The pieces are what a scan for text tags finds: the tags are text tags,
    and no text tag starts inside a gap. *)
Fixpoint scanned (pieces : list piece) (last : jsstring) : Prop :=
  match pieces with
  | [] => forall j, no_tag (drop j last)
  | (g, a, t) :: rest =>
      tag_ok a t /\
      (forall j, j < length g -> no_tag (drop j (g ++ render a t ++ assemble rest last))) /\
      scanned rest last
  end.

(** The matches of the tags of the pieces, the first gap starting at index
    [offset]. *)
Fixpoint matches_of (offset : nat) (pieces : list piece) : list MatchResult :=
  match pieces with
  | [] => []
  | (g, a, t) :: rest =>
      {| m_index := offset + length g; m_matched := render a t;
         m_captures := [Some a; Some t] |}
      :: matches_of (offset + length g + length (render a t)) rest
  end.

(** The pieces of a text with tags at the given spans. *)
Fixpoint pieces_of (p : jsstring) (pos : nat) (spans : list (nat * nat))
    (tags : list (jsstring * jsstring)) : list piece :=
  match spans, tags with
  | (a, b) :: spans', (attrs, text) :: tags' =>
      (slice p pos a, attrs, text) :: pieces_of p b spans' tags'
  | _, _ => []
  end.

(** The gap after the last of the spans. *)
Fixpoint last_gap (p : jsstring) (pos : nat) (spans : list (nat * nat)) : jsstring :=
  match spans with
  | [] => drop pos p
  | (_, b) :: spans' => last_gap p b spans'
  end.

(** The attributes and the text a match of [textTagRegex] captures. *)
Definition tag_of (m : MatchResult) : jsstring * jsstring := (capture m 1, capture m 2).

(** The pattern of [extractTextFromXml], as parsed: the text-tag pattern
    with one capturing group. *)
Definition textMatch_re : PatternEngine.re :=
  chars (str "<w:t")
    (PatternEngine.RSeq
       (star_of true true [PatternEngine.CChar ">"%char])
       (chars (str ">")
          (PatternEngine.RSeq
             (PatternEngine.RGroup 0
                (PatternEngine.RSeq (star_of true true [PatternEngine.CChar "<"%char])
                   PatternEngine.REmpty))
             (chars (str "</w:t>") PatternEngine.REmpty)))).

(** The pattern of the opening tag, as parsed. *)
Definition openTag_re : PatternEngine.re :=
  chars (str "<w:t")
    (PatternEngine.RSeq
       (star_of true true [PatternEngine.CChar ">"%char])
       (chars (str ">") PatternEngine.REmpty)).

(** [state.originalZip] refers to [archive], and neither the working
    reference nor the undo reference is that reference. *)
Definition original_kept (z1 : loc) (archive : Zip) (w : World) : Prop :=
  originalZip (state w) = Some z1 /\ heap w !! z1 = Some archive /\
  (exists z2, currentZip (state w) = Some z2 /\ z2 <> z1) /\
  undoZip (state w) <> Some z1 /\
  (hasReplaced (state w) = true -> undoZip (state w) <> None).

(** The characters [escapeHtml] replaces. *)
Definition html_special_chars : jsstring := str "&<>" ++ [dquote] ++ str "'".

Definition is_html_special (c : ascii) : bool := existsb (Ascii.eqb c) html_special_chars.

(** How [escapeHtml] writes one character. *)
Definition html_escape_char (c : ascii) : jsstring :=
  if is_html_special c then entity_map [c] else [c].

(** HTML in which every bracket belongs to one of the three tags the
    preview writes itself. *)
Inductive markup_only : jsstring -> Prop :=
| markup_nil : markup_only []
| markup_char c h :
    c <> "<"%char -> c <> ">"%char -> markup_only h -> markup_only (c :: h)
| markup_tag tag h :
    tag = str "<br>" \/ tag = mark_open \/ tag = mark_close ->
    markup_only h -> markup_only (tag ++ h).

(* ===================================================================== *)
(** ** Strings *)
(* ===================================================================== *)

Lemma slice_length (s : jsstring) a b : length (slice s a b) <= b - a.
Proof. unfold slice. rewrite length_take. lia. Qed.

Lemma slice_length_in (s : jsstring) a b :
  b <= length s -> length (slice s a b) = b - a.
Proof. intros Hb. unfold slice. rewrite length_take, length_drop. lia. Qed.

Lemma slice_0 (s : jsstring) a : slice s 0 a = take a s.
Proof. unfold slice. by rewrite Nat.sub_0_r, drop_0. Qed.

Lemma slice_nil (s : jsstring) a b : b <= a -> slice s a b = [].
Proof. intros H. unfold slice. replace (b - a) with 0 by lia. done. Qed.

Lemma slice_app_drop (s : jsstring) a b :
  a <= b -> slice s a b ++ drop b s = drop a s.
Proof.
  intros H. unfold slice.
  rewrite <- (take_drop (b - a) (drop a s)) at 2.
  rewrite drop_drop. by replace (a + (b - a)) with b by lia.
Qed.

Lemma slice_split (s : jsstring) a b c :
  a <= b -> b <= c -> slice s a c = slice s a b ++ slice s b c.
Proof.
  intros H1 H2. unfold slice.
  replace (c - a) with ((b - a) + (c - b)) by lia.
  rewrite <- take_take_drop, drop_drop.
  by replace (a + (b - a)) with b by lia.
Qed.

Lemma slice_prefix (s x : jsstring) a b :
  b <= length s -> slice (s ++ x) a b = slice s a b.
Proof.
  intros H. unfold slice.
  destruct (decide (a <= length s)) as [Ha|Ha].
  - rewrite drop_app_le by done. rewrite take_app_le; [done|]. rewrite length_drop. lia.
  - replace (b - a) with 0 by lia. done.
Qed.

Lemma slice_take (s : jsstring) a b n :
  b <= n -> slice (take n s) a b = slice s a b.
Proof.
  intros H. unfold slice. rewrite skipn_firstn_comm, take_take.
  f_equal. lia.
Qed.

Lemma slice_full_length (s : jsstring) a b :
  length (slice s a b) = b - a -> a < b -> b <= length s.
Proof. unfold slice. rewrite length_take, length_drop. lia. Qed.

Lemma startsWith_spec (p s : jsstring) : startsWith p s = true <-> take (length p) s = p.
Proof.
  revert s. induction p as [|a p IH]; intros [|b s]; simpl; try done.
  rewrite andb_true_iff, IH. split.
  - intros [Hab%Ascii.eqb_eq ->]. by subst.
  - intros [= -> ->]. split; [apply Ascii.eqb_refl | done].
Qed.

(* ===================================================================== *)
(** ** The search loops of the built-ins *)
(* ===================================================================== *)

Lemma exec_scan_some M s n i m e :
  exec_scan M s n i = Some (m, e) ->
  i <= m_index m < i + n /\
  (forall j, i <= j < m_index m -> M s j = None) /\
  exists len, M s (m_index m) = Some (len, m_captures m)
              /\ e = m_index m + len
              /\ m_matched m = slice s (m_index m) (m_index m + len).
Proof.
  revert i. induction n as [|n IH]; intros i; simpl; [done|].
  destruct (M s i) as [[len caps]|] eqn:HM.
  - intros [= <- <-]. simpl. split; [lia|]. split; [intros j; lia|]. eauto.
  - intros H. destruct (IH _ H) as (Hi & Hfirst & Hm). split; [lia|]. split; [|done].
    intros j Hj. destruct (decide (j = i)) as [->|]; [done|]. apply Hfirst. lia.
Qed.

Lemma exec_scan_none M s n i :
  exec_scan M s n i = None -> forall j, i <= j < i + n -> M s j = None.
Proof.
  revert i. induction n as [|n IH]; intros i; simpl; [intros _ j; lia|].
  destruct (M s i) as [[len caps]|] eqn:HM; [done|].
  intros H j Hj. destruct (decide (j = i)) as [->|]; [done|]. apply (IH _ H). lia.
Qed.

Lemma exec_some r s m r' :
  exec r s = (Some m, r') ->
  matcher r' = matcher r /\
  lastIndex r <= m_index m /\ m_end m <= length s /\ m_end m <= lastIndex r' /\
  (m_matched m <> [] -> lastIndex r < lastIndex r') /\
  m_matched m = slice s (m_index m) (m_end m) /\
  (forall j, lastIndex r <= j < m_index m -> matcher r s j = None) /\
  exists len, matcher r s (m_index m) = Some (len, m_captures m)
              /\ lastIndex r' = m_index m + len
              /\ m_matched m = slice s (m_index m) (m_index m + len).
Proof.
  unfold exec. destruct (exec_scan _ _ _ _) as [[m0 e]|] eqn:Hs; [|done].
  intros [= -> <-]. simpl.
  destruct (exec_scan_some _ _ _ _ _ _ Hs) as (Hi & Hfirst & len & HM & -> & Hmt).
  assert (Hlen : length (m_matched m) = Nat.min len (length s - m_index m)).
  { rewrite Hmt. unfold slice. rewrite length_take, length_drop. f_equal. lia. }
  assert (Hin : m_index m <= length s) by lia.
  split; [done|]. split; [lia|]. split; [unfold m_end; lia|]. split; [unfold m_end; lia|].
  split.
  { intros Hne. destruct (m_matched m) eqn:E; [done|]. simpl in Hlen. lia. }
  split.
  { rewrite Hmt at 1. unfold m_end, slice. rewrite Hlen.
    replace (m_index m + len - m_index m) with len by lia.
    replace (m_index m + Nat.min len (length s - m_index m) - m_index m)
      with (Nat.min len (length s - m_index m)) by lia.
    rewrite <- take_take. f_equal. rewrite take_ge; [done|]. rewrite length_drop. lia. }
  split; [done|]. eauto.
Qed.

Lemma exec_none r s r' :
  exec r s = (None, r') ->
  lastIndex r' = 0 /\ forall j, lastIndex r <= j <= length s -> matcher r s j = None.
Proof.
  unfold exec. destruct (exec_scan _ _ _ _) as [[m0 e]|] eqn:Hs; [done|].
  intros [= <-]. split; [done|]. intros j Hj. apply (exec_scan_none _ _ _ _ Hs). lia.
Qed.

(** The regular expression after one turn of a loop that steps over empty
    matches. *)
Definition step_over (m : MatchResult) (r : RegExp) : RegExp :=
  match m_matched m with
  | [] => set_lastIndex r (S (lastIndex r))
  | _ :: _ => r
  end.

Lemma step_over_progress r s m r' :
  exec r s = (Some m, r') ->
  lastIndex r < lastIndex (step_over m r') /\ next_index m <= lastIndex (step_over m r')
  /\ matcher (step_over m r') = matcher r.
Proof.
  intros H. destruct (exec_some _ _ _ _ H) as (HM & Hlo & _ & Hend & Hne & _).
  unfold step_over, next_index. destruct (m_matched m) eqn:E; simpl.
  - split; [unfold m_end in *; rewrite E in *; simpl in *; lia|]. split; [lia|done].
  - split; [apply Hne; done|]. done.
Qed.

(** Searching from a later index finds the same match as long as nothing
    matches in between. *)
Lemma exec_scan_skip M s n i k :
  (forall j, i <= j < i + k -> M s j = None) ->
  exec_scan M s (k + n) i = exec_scan M s n (i + k).
Proof.
  revert i. induction k as [|k IH]; intros i Hnone; simpl.
  - by rewrite Nat.add_0_r.
  - rewrite Hnone by lia. rewrite IH; [f_equal; lia|]. intros j Hj. apply Hnone. lia.
Qed.

Lemma chain_weaken s lo lo' ms : lo' <= lo -> chain s lo ms -> chain s lo' ms.
Proof. destruct ms as [|m rest]; simpl; [done|]. intros ? (? & ? & ? & ?). repeat split; try done; lia. Qed.

Lemma replace_collect_chain fuel r s :
  chain s (lastIndex r) (replace_collect fuel r s).
Proof.
  revert r. induction fuel as [|fuel IH]; intros r; simpl; [done|].
  destruct (exec r s) as [[m|] r'] eqn:He; [|done]. simpl.
  destruct (exec_some _ _ _ _ He) as (HM & Hlo & Hin & Hend & Hne & Hmt & _).
  destruct (step_over_progress _ _ _ _ He) as (_ & Hnext & HM').
  repeat split; try done.
  fold (step_over m r'). eapply chain_weaken; [|apply IH]. done.
Qed.

(** Once the remaining candidate indices are fewer than the fuel, more fuel
    changes nothing. *)
Lemma replace_collect_fuel fuel k r s :
  S (length s) - lastIndex r < fuel ->
  replace_collect (fuel + k) r s = replace_collect fuel r s.
Proof.
  revert r. induction fuel as [|fuel IH]; intros r Hf; [lia|]. simpl.
  destruct (exec r s) as [[m|] r'] eqn:He; [|done].
  fold (step_over m r'). f_equal.
  destruct (step_over_progress _ _ _ _ He) as (Hlt & _ & _).
  destruct (exec_some _ _ _ _ He) as (_ & Hlo & Hin & _).
  assert (m_index m <= length s) by (unfold m_end in Hin; lia).
  apply IH. lia.
Qed.

Lemma matchAll_chain M s : chain s 0 (matchAll M s).
Proof. apply (replace_collect_chain _ {| matcher := M; lastIndex := 0 |}). Qed.

(** The accumulation of [Symbol.replace] puts the texts at the spans. *)
Lemma replace_build_splice s f ms pos :
  chain s pos ms ->
  replace_build s f ms pos = splice s pos (map (span_with f) ms).
Proof.
  revert pos. induction ms as [|m rest IH]; intros pos; simpl.
  - intros _. destruct (length s <=? pos) eqn:E; [|done].
    apply Nat.leb_le in E. by rewrite drop_ge.
  - intros (Hlo & Hin & Hmt & Hrest).
    assert (m_index m <= length s) by (unfold m_end in Hin; lia).
    rewrite Nat.min_l by done.
    destruct (pos <=? m_index m) eqn:E; [|apply Nat.leb_gt in E; lia].
    do 2 f_equal. fold (m_end m). apply IH.
    eapply chain_weaken; [|done]. unfold next_index. destruct (m_matched m); lia.
Qed.

Lemma String_replace_fn_splice M s f :
  String_replace_fn M s f = splice s 0 (map (span_with f) (matchAll M s)).
Proof. apply replace_build_splice, matchAll_chain. Qed.

(** Putting back what was there changes nothing. *)
Lemma splice_id s pos ms :
  chain s pos ms -> splice s pos (map (span_with m_matched) ms) = drop pos s.
Proof.
  revert pos. induction ms as [|m rest IH]; intros pos; simpl; [done|].
  intros (Hlo & Hin & Hmt & Hrest).
  rewrite IH.
  2:{ eapply chain_weaken; [|done]. unfold next_index. destruct (m_matched m); lia. }
  rewrite Hmt at 1. rewrite slice_app_drop by (unfold m_end; lia).
  by rewrite slice_app_drop.
Qed.

Lemma exec_skip M li s :
  M s li = None -> li <= length s ->
  exec {| matcher := M; lastIndex := li |} s = exec {| matcher := M; lastIndex := S li |} s.
Proof.
  intros HM Hli. unfold exec. simpl.
  replace (S (length s) - li) with (S (length s - li)) by lia. simpl. rewrite HM.
  replace (length s - li) with (S (length s) - S li) by lia. done.
Qed.

Lemma replace_collect_skip M li s fuel :
  M s li = None -> li <= length s ->
  replace_collect fuel {| matcher := M; lastIndex := li |} s
  = replace_collect fuel {| matcher := M; lastIndex := S li |} s.
Proof.
  intros HM Hli. destruct fuel as [|fuel]; [done|]. simpl.
  rewrite (exec_skip _ _ _ HM Hli). done.
Qed.

Lemma exec_hit M li s len caps :
  M s li = Some (len, caps) -> li <= length s ->
  exec {| matcher := M; lastIndex := li |} s
  = (Some {| m_index := li; m_matched := slice s li (li + len); m_captures := caps |},
     {| matcher := M; lastIndex := li + len |}).
Proof.
  intros HM Hli. unfold exec. simpl.
  replace (S (length s) - li) with (S (length s - li)) by lia. simpl. by rewrite HM.
Qed.

Lemma exec_end M li s :
  (forall j, li <= j -> M s j = None) ->
  fst (exec {| matcher := M; lastIndex := li |} s) = None.
Proof.
  intros HM. unfold exec. simpl.
  destruct (exec_scan _ _ _ _) as [[m e]|] eqn:E; [|done].
  apply exec_scan_some in E as (Hi & _ & len & Hm & _). rewrite HM in Hm; [done|lia].
Qed.

(* ===================================================================== *)
(** ** The loops of replacer.js *)
(* ===================================================================== *)

Lemma chain_length s lo ms : chain s lo ms -> length ms <= S (length s) - lo.
Proof.
  revert lo. induction ms as [|m rest IH]; intros lo; simpl; [lia|].
  intros (Hlo & Hin & _ & Hrest). specialize (IH _ Hrest).
  assert (m_index m < next_index m).
  { unfold next_index, m_end. destruct (m_matched m); simpl; lia. }
  unfold m_end in Hin. lia.
Qed.

Lemma chain_scan_order s lo ms :
  chain s lo ms -> scan_order s lo (map position_of ms).
Proof.
  revert lo. induction ms as [|m rest IH]; intros lo; simpl; [done|].
  intros (Hlo & Hin & Hmt & Hrest). repeat split; try done.
  assert (Hn : (if m_index m =? m_end m then S (m_end m) else m_end m) = next_index m).
  { unfold next_index, m_end. destruct (m_matched m); simpl.
    - by rewrite Nat.add_0_r, Nat.eqb_refl.
    - destruct (_ =? _) eqn:E; [apply Nat.eqb_eq in E; lia | done]. }
  rewrite Hn. by apply IH.
Qed.

Lemma findMatches_step_over m r :
  (if length (m_matched m) =? 0 then set_lastIndex r (S (lastIndex r)) else r)
  = step_over m r.
Proof. unfold step_over. by destruct (m_matched m). Qed.

(** With enough fuel the loop of [findMatches] ends, and it has pushed the
    matches a global scan finds. *)
Lemma findMatches_loop_collect fuel regex text acc :
  S (length text) - lastIndex regex < fuel ->
  findMatches_loop fuel regex text acc
  = Some (acc ++ map position_of (replace_collect fuel regex text)).
Proof.
  revert regex acc. induction fuel as [|fuel IH]; intros regex acc Hf; [lia|]. simpl.
  destruct (exec regex text) as [[m|] r'] eqn:He; [|by rewrite app_nil_r].
  rewrite findMatches_step_over. fold (step_over m r').
  destruct (step_over_progress _ _ _ _ He) as (Hlt & _ & _).
  destruct (exec_some _ _ _ _ He) as (_ & Hlo & Hin & _).
  assert (m_index m <= length text) by (unfold m_end in Hin; lia).
  rewrite IH by lia. simpl. by rewrite <- app_assoc.
Qed.

Lemma findMatches_fuel_enough `{RegExpEngine} text pattern options extra :
  findMatches_fuel (length text + 2 + extra) text pattern options
  = Some (findMatches text pattern options).
Proof.
  unfold findMatches, findMatches_fuel.
  destruct (buildRegex pattern options) as [[regex|]|e] eqn:Hb; try done.
  assert (Hl : lastIndex regex = 0).
  { unfold buildRegex in Hb. destruct pattern; [done|]. unfold RegExp_new in Hb.
    destruct (compile_pattern _ _); simpl in Hb; [|done]. by injection Hb as <-. }
  rewrite !findMatches_loop_collect by (rewrite Hl; lia).
  rewrite replace_collect_fuel by (rewrite Hl; lia). done.
Qed.

(** The result of [findMatches] in terms of the global scan. *)
Lemma findMatches_matchAll `{RegExpEngine} text pattern options regex :
  buildRegex pattern options = Ok (Some regex) ->
  findMatches text pattern options
  = Ok {| count := length (matchAll (matcher regex) text);
          positions := map position_of (matchAll (matcher regex) text) |}.
Proof.
  intros Hb. unfold findMatches, findMatches_fuel. rewrite Hb.
  assert (Hl : lastIndex regex = 0).
  { unfold buildRegex in Hb. destruct pattern; [done|]. unfold RegExp_new in Hb.
    destruct (compile_pattern _ _); simpl in Hb; [|done]. by injection Hb as <-. }
  rewrite findMatches_loop_collect by (rewrite Hl; lia). simpl.
  rewrite length_map. unfold matchAll. destruct regex as [M li]. simpl in *. by subst.
Qed.

(** C6. Zero-length-match safety.  For every engine, text, pattern and
    options the loop of [findMatches] ends within [length text + 2]
    iterations (more fuel gives the same result): either the pattern does
    not compile and the exception of [buildRegex] is the result, or the
    result lists at most [length text + 1] spans in scan order, where the
    span after an empty span starts at least one code unit later.  Over
    the text bb the pattern a* in regex mode yields the three empty spans
    at 0, 1 and 2. *)
Theorem findMatches_terminates :
  (forall (E : RegExpEngine) (text pattern : jsstring) (options : Options) (extra : nat),
     exists r,
       findMatches_fuel (length text + 2 + extra) text pattern options = Some r /\
       findMatches text pattern options = r /\
       match r with
       | Ok ms =>
           count ms = length (positions ms) /\
           count ms <= length text + 1 /\
           scan_order text 0 (positions ms)
       | Throw e => buildRegex pattern options = Throw e
       end) /\
  @findMatches FragmentEngine (str "bb") (str "a*") regexOptions
  = Ok {| count := 3;
          positions := [ {| pos_start := 0; pos_end := 0; pos_match := [] |};
                         {| pos_start := 1; pos_end := 1; pos_match := [] |};
                         {| pos_start := 2; pos_end := 2; pos_match := [] |} ] |}.
Proof.
  split; [|by vm_compute].
  intros E text pattern options extra. eexists. split; [apply findMatches_fuel_enough|].
  split; [done|].
  destruct (buildRegex pattern options) as [[regex|]|e] eqn:Hb.
  - rewrite (findMatches_matchAll _ _ _ _ Hb). simpl. rewrite length_map.
    split; [done|]. pose proof (matchAll_chain (matcher regex) text) as Hc.
    split; [apply chain_length in Hc; lia | by apply chain_scan_order].
  - unfold findMatches, findMatches_fuel. rewrite Hb. simpl. repeat split; lia.
  - unfold findMatches, findMatches_fuel. by rewrite Hb.
Qed.

(** C7. Empty find string.  For every engine, options and text, an empty
    pattern compiles to no matcher ([null]); scanning with it gives the
    empty list of spans and count 0 (whatever the fuel of the loop), and
    [replaceAll] and [replaceInXml] return their input. *)
Theorem empty_find_string :
  forall (E : RegExpEngine) (options : Options) (text replacement : jsstring) (fuel : nat),
    buildRegex [] options = Ok None /\
    findMatches_fuel fuel text [] options = Some (Ok {| count := 0; positions := [] |}) /\
    findMatches text [] options = Ok {| count := 0; positions := [] |} /\
    replaceAll text [] replacement options = Ok text /\
    replaceInXml text [] replacement options = Ok text.
Proof. intros. repeat split. Qed.

(* ===================================================================== *)
(** ** The session handlers *)
(* ===================================================================== *)

Lemma applyTextReplacements_loop_app `{RegExpEngine} ps1 ps2 options text :
  applyTextReplacements_loop (ps1 ++ ps2) options text
  = (t <- applyTextReplacements_loop ps1 options text ;;
     applyTextReplacements_loop ps2 options t).
Proof.
  revert text. induction ps1 as [|p ps1 IH]; intros text; simpl; [done|].
  destruct (replaceAll text (find p) (replace p) options); simpl; [apply IH | done].
Qed.

Lemma applyDocxReplacements_loop_app `{RegExpEngine} ps1 ps2 options zip h :
  applyDocxReplacements_loop (ps1 ++ ps2) options zip h
  = (z <~ applyDocxReplacements_loop ps1 options zip ;;
     applyDocxReplacements_loop ps2 options z) h.
Proof.
  revert zip h. induction ps1 as [|p ps1 IH]; intros zip h; simpl; [done|].
  unfold bindM.
  destruct (replaceInDocx zip (find p) (replace p) options h) as [[z|e] h']; [|done].
  rewrite IH. done.
Qed.

(** What [applyTextReplacements] does to the world: [state.currentText]
    becomes the result of the loop; when the loop throws nothing is
    written. *)
Lemma applyTextReplacements_spec `{RegExpEngine} pairs options w :
  applyTextReplacements pairs options w
  = match applyTextReplacements_loop pairs options (currentText (state w)) with
    | Ok text => assign (set_currentText text) w
    | Throw e => (Throw e, w)
    end.
Proof.
  unfold applyTextReplacements, bindM, getState, liftR.
  by destruct (applyTextReplacements_loop _ _ _).
Qed.

(** C9. Sequential pair application.  The loops over the pairs (text and
    .docx) apply the first pair, then run on its output: a list of pairs
    split in two is the first part followed by the second part on the
    first part's result, and a single pair is one [replaceAll]
    (one [replaceInDocx]).  [applyTextReplacements] stores the result of
    the loop in [state.currentText].  With the pairs a to b, then b to c,
    the text a becomes c (in the other order it becomes b), also through
    [handleReplaceAll] on a loaded text file. *)
Theorem pairs_applied_in_order :
  (forall (E : RegExpEngine) options ps1 ps2 text,
     applyTextReplacements_loop (ps1 ++ ps2) options text
     = (t <- applyTextReplacements_loop ps1 options text ;;
        applyTextReplacements_loop ps2 options t)) /\
  (forall (E : RegExpEngine) options p text,
     applyTextReplacements_loop [p] options text
     = replaceAll text (find p) (replace p) options) /\
  (forall (E : RegExpEngine) options ps1 ps2 zip h,
     applyDocxReplacements_loop (ps1 ++ ps2) options zip h
     = (z <~ applyDocxReplacements_loop ps1 options zip ;;
        applyDocxReplacements_loop ps2 options z) h) /\
  (forall (E : RegExpEngine) options p zip h,
     applyDocxReplacements_loop [p] options zip h
     = replaceInDocx zip (find p) (replace p) options h) /\
  (forall (E : RegExpEngine) pairs options w,
     currentText (state (snd (applyTextReplacements pairs options w)))
     = match applyTextReplacements_loop pairs options (currentText (state w)) with
       | Ok text => text
       | Throw _ => currentText (state w)
       end) /\
  @applyTextReplacements_loop FragmentEngine
     [pair_of "a" "b"; pair_of "b" "c"] defaultOptions (str "a") = Ok (str "c") /\
  @applyTextReplacements_loop FragmentEngine
     [pair_of "b" "c"; pair_of "a" "b"] defaultOptions (str "a") = Ok (str "b") /\
  (let dom := typed [pair_of "a" "b"; pair_of "b" "c"] defaultOptions in
   let w0 := snd (@handleFileSelected FragmentEngine PlainBrowser dom
                    (textFile (str "a")) initialWorld) in
   let w1 := snd (@handleReplaceAll FragmentEngine PlainBrowser dom w0) in
   currentText (state w0) = str "a" /\ currentText (state w1) = str "c") /\
  (let dom := typed [pair_of "a" "b"; pair_of "b" "c"] defaultOptions in
   let w0 := snd (@handleFileSelected FragmentEngine PlainBrowser dom
                    (docxFile one_paragraph) initialWorld) in
   let w1 := snd (@handleReplaceAll FragmentEngine PlainBrowser dom w0) in
   currentPayloadText w0 = Some (str "a") /\ currentPayloadText w1 = Some (str "c")).
Proof.
  split; [intros; apply applyTextReplacements_loop_app|].
  split.
  { intros. simpl. by destruct (replaceAll _ _ _ _). }
  split; [intros; apply applyDocxReplacements_loop_app|].
  split.
  { intros. simpl. unfold bindM at 1.
    by destruct (replaceInDocx _ _ _ _ _) as [[z|e] h']. }
  split.
  { intros. rewrite applyTextReplacements_spec.
    by destruct (applyTextReplacements_loop _ _ _). }
  split; [by vm_compute|]. split; [by vm_compute|]. split; by vm_compute.
Qed.

Lemma handleInputChange_state `{RegExpEngine} `{Browser} dom w :
  state (snd (handleInputChange dom w)) = state w /\
  heap (snd (handleInputChange dom w)) = heap w.
Proof.
  unfold handleInputChange.
  cbv [try_catch bindM ret throw get modify liftR getState assign with_heap
       showToast updateMatchCount setButtonStates resetUndoState]; simpl.
  destruct (currentFile (state w)); [|done].
  destruct (match fileType (state w) with Some txt => _ | _ => _ end); done.
Qed.

#[local] Arguments handleInputChange : simpl never.
#[local] Arguments applyTextReplacements : simpl never.

Ltac run_monad :=
  cbv [try_catch bindM ret throw get modify liftR getState assign with_heap
       showToast updateMatchCount setButtonStates resetUndoState]; cbn.

(** After a call of [handleInputChange] inside a handler, [state] is what
    it was before the call, whether the call threw or not. *)
Ltac after_input_change :=
  match goal with
  | |- context [handleInputChange ?d ?w'] =>
      let Hs := fresh "Hs" in
      let Hh := fresh "Hh" in
      pose proof (handleInputChange_state d w') as [Hs Hh];
      destruct (handleInputChange d w') as [[[]|?] ?];
      simpl in *; rewrite Hs; simpl; auto
  end.

Lemma handleFileSelected_text `{RegExpEngine} `{Browser} dom content w :
  let st := state (snd (handleFileSelected dom (textFile content) w)) in
  fileType st = Some txt /\ originalText st = content /\ currentText st = content /\
  hasReplaced st = false.
Proof.
  unfold handleFileSelected, loadTextFile.
  replace (fileType_of (textFile content)) with txt by (by vm_compute).
  run_monad. after_input_change.
Qed.

Lemma handleReplaceAll_text `{RegExpEngine} `{Browser} dom w :
  fileType (state w) = Some txt ->
  let st := state w in
  let st' := state (snd (handleReplaceAll dom w)) in
  fileType st' = fileType st /\ originalText st' = originalText st /\
  ((hasReplaced st' = true /\ undoText st' = Some (currentText st)) \/
   (hasReplaced st' = hasReplaced st /\ currentText st' = currentText st)).
Proof.
  intros Ht. unfold handleReplaceAll. run_monad.
  destruct (getPairs dom) as [|p ps]; [simpl; auto|].
  rewrite Ht. rewrite applyTextReplacements_spec.
  destruct (applyTextReplacements_loop _ _ _) as [text|e]; simpl; [|auto].
  run_monad. after_input_change.
Qed.

Lemma handleUndo_text `{RegExpEngine} `{Browser} dom w :
  fileType (state w) = Some txt ->
  currentText (state (snd (handleUndo dom w)))
  = if hasReplaced (state w) then or_text (undoText (state w)) (originalText (state w))
    else currentText (state w).
Proof.
  intros Ht. unfold handleUndo. run_monad.
  destruct (hasReplaced (state w)); simpl; [|done].
  rewrite Ht. after_input_change.
Qed.

Lemma or_text_same s : or_text (Some s) s = s.
Proof. by destruct s. Qed.

(** For a text file the text comes back: load, replace-all, undo. *)
Lemma undo_roundtrip_text `{RegExpEngine} `{Browser} dom0 dom1 dom2 content w :
  let w0 := snd (handleFileSelected dom0 (textFile content) w) in
  let w1 := snd (handleReplaceAll dom1 w0) in
  let w2 := snd (handleUndo dom2 w1) in
  currentText (state w0) = content /\ currentText (state w2) = content.
Proof.
  intros w0 w1 w2.
  destruct (handleFileSelected_text dom0 content w) as (Ht & Ho & Hc & Hr).
  fold w0 in Ht, Ho, Hc, Hr. split; [done|].
  destruct (handleReplaceAll_text dom1 w0 Ht) as (Ht1 & Ho1 & Hcase).
  fold w1 in Ht1, Ho1, Hcase.
  subst w2. rewrite handleUndo_text by congruence.
  destruct Hcase as [[-> ->]|[-> ->]].
  - rewrite Ho1, Ho, Hc. apply or_text_same.
  - by rewrite Hr.
Qed.

Lemma buildRegex_spec `{RegExpEngine} c p options :
  let pattern := c :: p in
  let source := if isRegex options then pattern else escapeRegexChars pattern in
  let source := if isWholeWord options then str "\b" ++ source ++ str "\b" else source in
  buildRegex pattern options
  = match compile_pattern source (negb (isCaseSensitive options)) with
    | Some M => Ok (Some {| matcher := M; lastIndex := 0 |})
    | None => Throw (SyntaxError source)
    end.
Proof.
  simpl. unfold buildRegex, RegExp_new.
  destruct (isCaseSensitive options); simpl; by destruct (compile_pattern _ _).
Qed.

(** C3. Invalid-pattern recovery.  [handleReplaceAll] and
    [handleFileSelected] never let an exception out, whatever the engine and
    the input.  For every engine a non-empty pattern whose source the
    engine rejects makes [buildRegex] throw a SyntaxError.
    [handleReplaceAll] catches it: with the unterminated group as the find
    string in regex mode on the text abc the handler returns normally, shows
    the failure toast and leaves the text.  [handleInputChange], the handler
    of the input events, does not: on the same input the SyntaxError of
    [findMatches] leaves the handler, and no toast is shown.  With the
    whole-word option the source is the find string between two word
    boundary escapes, so the lone backslash, which the engine rejects, gives
    a source it accepts. *)
Theorem invalid_pattern_escapes_preview :
  (forall (E : RegExpEngine) (B : Browser) (dom : Dom) (file : File) (w : World),
     fst (handleReplaceAll dom w) = Ok tt /\ fst (handleFileSelected dom file w) = Ok tt) /\
  (forall (E : RegExpEngine) c p options,
     let pattern := c :: p in
     let source := if isRegex options then pattern else escapeRegexChars pattern in
     let source := if isWholeWord options then str "\b" ++ source ++ str "\b" else source in
     buildRegex pattern options
     = match compile_pattern source (negb (isCaseSensitive options)) with
       | Some M => Ok (Some {| matcher := M; lastIndex := 0 |})
       | None => Throw (SyntaxError source)
       end) /\
  (let dom := typed [pair_of "(" "x"] regexOptions in
   let w0 := snd (@handleFileSelected FragmentEngine PlainBrowser
                    (typed [] regexOptions) (textFile (str "abc")) initialWorld) in
   PatternEngine.compile (str "(") true = None /\
   @replaceAll FragmentEngine (str "abc") (str "(") (str "x") regexOptions
     = Throw (SyntaxError (str "(")) /\
   @findMatches FragmentEngine (str "abc") (str "(") regexOptions
     = Throw (SyntaxError (str "(")) /\
   fst (@handleReplaceAll FragmentEngine PlainBrowser dom w0) = Ok tt /\
   toasts (snd (@handleReplaceAll FragmentEngine PlainBrowser dom w0))
     = toasts w0 ++ [(ReplacementFailed, error)] /\
   currentText (state (snd (@handleReplaceAll FragmentEngine PlainBrowser dom w0)))
     = str "abc" /\
   fst (@handleInputChange FragmentEngine PlainBrowser dom w0)
     = Throw (SyntaxError (str "(")) /\
   toasts (snd (@handleInputChange FragmentEngine PlainBrowser dom w0)) = toasts w0) /\
  (PatternEngine.compile (str "\") true = None /\
   exists regex,
     @buildRegex FragmentEngine (str "\")
        {| isCaseSensitive := false; isWholeWord := true; isRegex := true |}
     = Ok (Some regex)).
Proof.
  split.
  { intros E B dom file w. split.
    - unfold handleReplaceAll, try_catch.
      match goal with |- context [match ?m w with _ => _ end] =>
        by destruct (m w) as [[[]|e] w'] end.
    - unfold handleFileSelected, try_catch.
      match goal with |- context [match ?m w with _ => _ end] =>
        by destruct (m w) as [[[]|e] w'] end. }
  split; [intros; apply buildRegex_spec|].
  split; [vm_compute; done|].
  split; [vm_compute; done|]. eexists. unfold buildRegex, RegExp_new. simpl. reflexivity.
Qed.

(* ===================================================================== *)
(** ** The regular expression literals of the program *)
(* ===================================================================== *)

Section Literals.
Import PatternEngine.

Lemma textTag_compile :
compile (str "<w:t([^>]*)>([^<]*)<\/w:t>") false = Some (matcher_of false textTag_re 2).
Proof. reflexivity. Qed.

Lemma paragraph_compile :
compile (str "<w:p[ >][\s\S]*?<\/w:p>") false = Some (matcher_of false paragraph_re 0).
Proof. reflexivity. Qed.

Lemma slice_cons (s : jsstring) i j c :
s !! i = Some c -> i < j -> slice s i j = c :: slice s (S i) j.
Proof.
intros Hc Hij. unfold slice.
rewrite (drop_S _ _ _ Hc). replace (j - i) with (S (j - S i)) by lia. done.
Qed.

Lemma canonicalize_fold ic c : canonicalize ic c = fold_case (negb ic) c.
Proof. by destruct ic. Qed.

Lemma slice_beyond (s : jsstring) i j : s !! i = None -> slice s i j = [].
Proof.
  intros H. apply lookup_ge_None in H. unfold slice.
  rewrite drop_ge by done. apply take_nil.
Qed.

(** A sequence of characters matches where the text is the same under the
    case rule. *)
Lemma rmatch_chars_text ic s p r i cs k :
  rmatch ic s (chars p r) i cs k
  = if same_text (negb ic) p (slice s i (i + length p))
    then rmatch ic s r (i + length p) cs k
    else None.
Proof.
  revert i. induction p as [|a p IH]; intros i.
  - cbn [chars foldr length]. rewrite Nat.add_0_r, slice_nil by done. done.
  - cbn [chars foldr length rmatch]. fold (chars p r).
    destruct (s !! i) as [c'|] eqn:Hc.
    + rewrite (slice_cons _ _ _ _ Hc) by lia. cbn [same_text].
      rewrite !canonicalize_fold.
      destruct (Ascii.eqb _ _); [|done]. cbn [andb].
      rewrite IH. replace (S i + length p) with (i + S (length p)) by lia. done.
    + by rewrite slice_beyond.
Qed.

Section Engine.
Variable s : jsstring.

Lemma rmatch_chars p r i cs k res :
rmatch false s (chars p r) i cs k = Some res ->
slice s i (i + length p) = p /\ rmatch false s r (i + length p) cs k = Some res.
Proof.
revert i. induction p as [|c p IH]; intros i; simpl.
- rewrite Nat.add_0_r. intros H. split; [by rewrite slice_nil|done].
- destruct (s !! i) as [c'|] eqn:Hc; [|done].
  destruct (Ascii.eqb c c') eqn:E; [|done]. apply Ascii.eqb_eq in E. subst c'.
  intros H. destruct (IH _ H) as [Hs Hr].
  replace (i + S (length p)) with (S i + length p) by lia. split; [|done].
  rewrite (slice_cons _ _ _ _ Hc) by lia. by rewrite Hs.
Qed.

Lemma star_set_sound neg items greedy k fuel x cs res :
RepeatMatcher (fun x cs' d => rmatch false s (RSet neg items) x cs' d) []
  greedy k fuel 0 None x cs = Some res ->
exists j, x <= j /\ (x <= length s -> j <= length s) /\
  Forall (fun c => xorb neg (set_mem false items c) = true) (slice s x j) /\
  k j cs = Some res.
Proof.
revert x. induction fuel as [|fuel IH]; intros x; simpl; [done|].
assert (Hbody :
  match s !! x with
  | Some c' =>
      if xorb neg (set_mem false items c')
      then if S x =? x then None
           else RepeatMatcher (fun x cs' d => rmatch false s (RSet neg items) x cs' d) []
                  greedy k fuel 0 None (S x) cs
      else None
  | None => None
  end = Some res ->
  exists j, x <= j /\ (x <= length s -> j <= length s) /\
    Forall (fun c => xorb neg (set_mem false items c) = true) (slice s x j) /\
    k j cs = Some res).
{ destruct (s !! x) as [c'|] eqn:Hc; [|done].
  destruct (xorb neg (set_mem false items c')) eqn:Hin; [|done].
  destruct (S x =? x) eqn:E; [done|].
  intros H. destruct (IH _ H) as (j & Hj & Hlen & Hall & Hk).
  exists j. split; [lia|]. apply lookup_lt_Some in Hc as Hlt.
  split; [intros; apply Hlen; lia|]. split; [|done].
  rewrite (slice_cons _ _ _ _ Hc) by lia. by constructor. }
assert (Hk : k x cs = Some res ->
  exists j, x <= j /\ (x <= length s -> j <= length s) /\
    Forall (fun c => xorb neg (set_mem false items c) = true) (slice s x j) /\
    k j cs = Some res).
{ intros H. exists x. split; [done|]. split; [done|]. split; [|done].
  rewrite slice_nil by done. constructor. }
destruct greedy; unfold or_else.
- destruct (match s !! x with Some _ => _ | None => _ end) eqn:E.
  + intros [= <-]. by apply Hbody.
  + apply Hk.
- destruct (k x cs) eqn:E.
  + intros [= <-]. by apply Hk.
  + apply Hbody.
Qed.

Lemma rmatch_star neg items greedy r i cs k res :
rmatch false s (RSeq (star_of greedy neg items) r) i cs k = Some res ->
exists j, i <= j /\ (i <= length s -> j <= length s) /\
  Forall (fun c => xorb neg (set_mem false items c) = true) (slice s i j) /\
  rmatch false s r j cs k = Some res.
Proof. simpl. apply star_set_sound. Qed.

Lemma rmatch_group_star g neg items greedy r i cs k res :
rmatch false s (RSeq (RGroup g (RSeq (star_of greedy neg items) REmpty)) r) i cs k
  = Some res ->
exists j, i <= j /\ (i <= length s -> j <= length s) /\
  Forall (fun c => xorb neg (set_mem false items c) = true) (slice s i j) /\
  rmatch false s r j (<[g := Some (i, j)]> cs) k = Some res.
Proof. simpl. apply star_set_sound. Qed.

Lemma textTag_match i len caps :
matcher_of false textTag_re 2 s i = Some (len, caps) ->
exists attrs text,
  caps = [Some attrs; Some text] /\
  slice s i (i + len) = str "<w:t" ++ attrs ++ str ">" ++ text ++ str "</w:t>" /\
  len = length (str "<w:t" ++ attrs ++ str ">" ++ text ++ str "</w:t>") /\
  i + len <= length s /\
  Forall (fun c => c <> ">"%char) attrs /\ Forall (fun c => c <> "<"%char) text.
Proof.
unfold matcher_of.
destruct (rmatch _ _ _ _ _ _) as [[e cs]|] eqn:H; [|done].
intros [= <- <-]. unfold textTag_re in H.
apply rmatch_chars in H as [H1 H].
apply rmatch_group_star in H as (j1 & Hj1 & Hb1 & Hall1 & H).
apply rmatch_chars in H as [H2 H].
apply rmatch_group_star in H as (j2 & Hj2 & Hb2 & Hall2 & H).
apply rmatch_chars in H as [H3 H]. simpl in H. simplify_eq H; intros <- <-.
change (length (str "<w:t")) with 4 in *. change (length (str ">")) with 1 in *.
change (length (str "</w:t>")) with 6 in *.
assert (He : j2 + 6 <= length s).
{ apply (slice_full_length s j2); [rewrite H3; simpl; lia|lia]. }
exists (slice s (i + 4) j1), (slice s (j1 + 1) j2).
split; [done|].
assert (Hs : slice s i (j2 + 6)
             = str "<w:t" ++ slice s (i + 4) j1 ++ str ">" ++ slice s (j1 + 1) j2
               ++ str "</w:t>").
{ rewrite (slice_split s i (i + 4) (j2 + 6)) by lia. rewrite H1. f_equal.
  rewrite (slice_split s (i + 4) j1 (j2 + 6)) by lia. f_equal.
  rewrite (slice_split s j1 (j1 + 1) (j2 + 6)) by lia. rewrite H2. f_equal.
  rewrite (slice_split s (j1 + 1) j2 (j2 + 6)) by lia. by rewrite H3. }
replace (i + (j2 + 6 - i)) with (j2 + 6) by lia.
split; [done|]. split.
{ rewrite <- Hs. rewrite slice_length_in by done. done. }
split; [done|]. split.
- eapply Forall_impl; [exact Hall1|]. simpl. intros c Hc ->. by vm_compute in Hc.
- eapply Forall_impl; [exact Hall2|]. simpl. intros c Hc ->. by vm_compute in Hc.
Qed.

Lemma rmatch_set neg items r i cs k res :
rmatch false s (RSeq (RSet neg items) r) i cs k = Some res ->
exists c, s !! i = Some c /\ xorb neg (set_mem false items c) = true /\
  rmatch false s r (S i) cs k = Some res.
Proof.
cbn [rmatch]. destruct (s !! i) as [c|]; [|done].
destruct (xorb neg _) eqn:E; [|done]. eauto.
Qed.

Lemma paragraph_match i len caps :
matcher_of false paragraph_re 0 s i = Some (len, caps) ->
exists sep body,
  slice s i (i + len) = str "<w:p" ++ [sep] ++ body ++ str "</w:p>" /\
  (sep = " "%char \/ sep = ">"%char) /\ i + len <= length s.
Proof.
unfold matcher_of.
destruct (rmatch _ _ _ _ _ _) as [[e cs]|] eqn:H; [|done].
intros [= <- <-]. unfold paragraph_re in H.
apply rmatch_chars in H as [H1 H]. change (length (str "<w:p")) with 4 in *.
apply rmatch_set in H as (sep & Hsep & Hin & H).
apply rmatch_star in H as (j & Hj & Hb & _ & H).
apply rmatch_chars in H as [H3 H]. simpl in H. simplify_eq H; intros <- <-.
change (length (str "</w:p>")) with 6 in *.
assert (He : j + 6 <= length s).
{ apply (slice_full_length s j); [rewrite H3; simpl; lia|lia]. }
exists sep, (slice s (i + 5) j).
replace (i + (j + 6 - i)) with (j + 6) by lia.
split.
- rewrite (slice_split s i (i + 4) (j + 6)) by lia. rewrite H1. f_equal.
  rewrite (slice_cons _ _ _ _ Hsep) by lia. simpl. f_equal.
  replace (S (i + 4)) with (i + 5) by lia.
  rewrite (slice_split s (i + 5) j (j + 6)) by lia. by rewrite H3.
- split; [|done].
  unfold set_mem in Hin. cbn [existsb item_mem xorb andb] in Hin.
  rewrite !orb_false_r in Hin.
  apply orb_true_iff in Hin as [Hc|Hc]; apply Ascii.eqb_eq in Hc; auto.
Qed.
(** A greedy star over a class of characters runs to the end of a run of
    members when the continuation succeeds there. *)
Lemma star_greedy (P : ascii -> bool)
    (m : nat -> captures -> continuation -> option (nat * captures))
    k fuel x j cs res :
  (forall x cs d, m x cs d = match s !! x with
                             | Some c => if P c then d (S x) cs else None
                             | None => None
                             end) ->
  x <= j ->
  Forall (fun c => P c = true) (slice s x j) ->
  length (slice s x j) = j - x ->
  match s !! j with
  | Some c => P c = false
  | None => True
  end ->
  k j cs = Some res ->
  j - x < fuel ->
  RepeatMatcher m [] true k fuel 0 None x cs = Some res.
Proof.
  intros Hm. revert x.
  induction fuel as [|fuel IH]; intros x Hxj Hall Hlen Hstop Hk Hf; [lia|].
  cbn [RepeatMatcher Nat.eqb negb andb clear_groups foldr].
  rewrite Hm.
  destruct (decide (x = j)) as [->|Hne].
  - destruct (s !! j) as [c|]; [rewrite Hstop|]; simpl; exact Hk.
  - assert (Hx : x < j) by lia.
    destruct (s !! x) as [c|] eqn:Hc.
    + rewrite (slice_cons _ _ _ _ Hc) in Hall, Hlen by done.
      apply Forall_cons in Hall as [Hin Hall]. rewrite Hin.
      replace (S x =? x) with false by (symmetry; apply Nat.eqb_neq; lia).
      cbn [length] in Hlen. simpl.
      rewrite IH; [done|lia|done|lia|done|done|lia].
    + apply lookup_ge_None in Hc. unfold slice in Hlen.
      rewrite length_take, length_drop in Hlen. lia.
Qed.

Lemma same_text_refl cs p : same_text cs p p = true.
Proof. induction p as [|a p IH]; simpl; [done|]. by rewrite Ascii.eqb_refl, IH. Qed.

Lemma slice_of_drop (u pre x post : jsstring) i lo hi :
  drop i u = pre ++ x ++ post ->
  lo = i + length pre -> hi = lo + length x ->
  slice u lo hi = x.
Proof.
  intros H -> ->. unfold slice. rewrite <- drop_drop, H.
  rewrite drop_app_length.
  replace (i + length pre + length x - (i + length pre)) with (length x) by lia.
  by rewrite take_app_length.
Qed.

Lemma lookup_of_drop (u pre post : jsstring) c i j :
  drop i u = pre ++ c :: post -> j = i + length pre -> u !! j = Some c.
Proof.
  intros H ->. rewrite <- lookup_drop, H.
  by rewrite list_lookup_middle.
Qed.

Lemma textTag_complete i a t post :
  tag_ok a t ->
  drop i s = render a t ++ post ->
  matcher_of false textTag_re 2 s i = Some (length (render a t), [Some a; Some t]).
Proof.
  intros [Ha Ht] Hd. unfold render in Hd. rewrite <- !app_assoc in Hd.
  set (j1 := i + 4 + length a). set (j2 := j1 + 1 + length t).
  assert (H1 : slice s i (i + 4) = str "<w:t").
  { apply (slice_of_drop s [] _ (a ++ str ">" ++ t ++ str "</w:t>" ++ post) i);
      [done|simpl; lia|simpl; lia]. }
  assert (H2 : slice s (i + 4) j1 = a).
  { apply (slice_of_drop s (str "<w:t") _ (str ">" ++ t ++ str "</w:t>" ++ post) i);
      [done|simpl; lia|unfold j1; lia]. }
  assert (H3 : s !! j1 = Some ">"%char).
  { apply (lookup_of_drop s (str "<w:t" ++ a) (t ++ str "</w:t>" ++ post) _ i).
    - by rewrite <- app_assoc.
    - rewrite length_app. simpl. unfold j1. lia. }
  assert (H4 : slice s (j1 + 1) j2 = t).
  { apply (slice_of_drop s (str "<w:t" ++ a ++ str ">") _ (str "</w:t>" ++ post) i).
    - by rewrite <- !app_assoc.
    - rewrite !length_app. simpl. unfold j1. lia.
    - unfold j2. lia. }
  assert (H5 : slice s j2 (j2 + 6) = str "</w:t>").
  { apply (slice_of_drop s (str "<w:t" ++ a ++ str ">" ++ t) _ post i).
    - by rewrite <- !app_assoc.
    - rewrite !length_app. simpl. unfold j2, j1. lia.
    - simpl. lia. }
  assert (H6 : s !! j2 = Some "<"%char).
  { apply (lookup_of_drop s (str "<w:t" ++ a ++ str ">" ++ t) (str "/w:t>" ++ post) _ i).
    - by rewrite <- !app_assoc.
    - rewrite !length_app. simpl. unfold j2, j1. lia. }
  assert (Hr : rmatch false s textTag_re i [None; None] (fun j cs => Some (j, cs))
               = Some (j2 + 6, [Some (i + 4, j1); Some (j1 + 1, j2)])).
  { unfold textTag_re. rewrite rmatch_chars_text.
    change (length (str "<w:t")) with 4. rewrite H1, same_text_refl.
    cbn [rmatch star_of groups app].
    apply (star_greedy (fun c => xorb true (set_mem false [CChar ">"%char] c)))
      with (j := j1); [done|unfold j1; lia| | | | |].
    - rewrite H2. eapply Forall_impl; [exact Ha|]. intros c Hc.
      unfold set_mem. cbn [existsb item_mem andb xorb].
      rewrite !orb_false_r. apply negb_true_iff, Ascii.eqb_neq. congruence.
    - rewrite H2. unfold j1. lia.
    - rewrite H3. by vm_compute.
    - rewrite rmatch_chars_text. change (length (str ">")) with 1.
      rewrite (slice_cons _ _ _ _ H3) by lia. rewrite slice_nil by lia.
      rewrite same_text_refl.
      cbn [rmatch star_of groups app].
      apply (star_greedy (fun c => xorb true (set_mem false [CChar "<"%char] c)))
        with (j := j2); [done|unfold j2; lia| | | | |].
      + rewrite H4. eapply Forall_impl; [exact Ht|]. intros c Hc.
        unfold set_mem. cbn [existsb item_mem andb xorb].
        rewrite !orb_false_r. apply negb_true_iff, Ascii.eqb_neq. congruence.
      + rewrite H4. unfold j2. lia.
      + rewrite H6. by vm_compute.
      + rewrite rmatch_chars_text. change (length (str "</w:t>")) with 6.
        rewrite H5, same_text_refl. reflexivity.
      + apply (f_equal length) in Hd. rewrite length_drop, !length_app in Hd.
        simpl in Hd. unfold j2, j1. lia.
    - apply (f_equal length) in Hd. rewrite length_drop, !length_app in Hd.
      simpl in Hd. unfold j1. lia. }
  unfold matcher_of. change (replicate 2 None) with [@None (nat * nat); None].
  rewrite Hr. cbn [capture_strings map]. rewrite H2, H4.
  f_equal. f_equal. unfold render. rewrite !length_app. simpl. unfold j2, j1. lia.
Qed.

End Engine.

End Literals.

(* ===================================================================== *)
(** ** The paragraph rewriter *)
(* ===================================================================== *)

Lemma textTagRegex_matcher : matcher textTagRegex = PatternEngine.matcher_of false textTag_re 2.
Proof. reflexivity. Qed.

Lemma paragraphRegex_matcher : paragraphRegex = PatternEngine.matcher_of false paragraph_re 0.
Proof. reflexivity. Qed.

(** Every match of a scan is a match of the matcher at its index. *)
Lemma replace_collect_matches fuel r s :
  Forall (fun m => exists len, matcher r s (m_index m) = Some (len, m_captures m) /\
                                m_matched m = slice s (m_index m) (m_index m + len))
         (replace_collect fuel r s).
Proof.
  revert r. induction fuel as [|fuel IH]; intros r; simpl; [constructor|].
  destruct (exec r s) as [[m|] r'] eqn:He; [|constructor].
  destruct (exec_some _ _ _ _ He) as (HM & _ & _ & _ & _ & _ & _ & len & Hlen & _ & Hm).
  constructor; [eauto|]. fold (step_over m r').
  destruct (step_over_progress _ _ _ _ He) as (_ & _ & HM').
  specialize (IH (step_over m r')). by rewrite HM' in IH.
Qed.

(** With a matcher that never matches the empty string, the loop of
    [replaceInParagraph] ends and has pushed the matches of a global scan. *)
Lemma collectSegments_loop_collect fuel regex s acc :
  (forall i len caps, matcher regex s i = Some (len, caps) ->
                      0 < len /\ i + len <= length s) ->
  S (length s) - lastIndex regex < fuel ->
  collectSegments_loop fuel regex s acc
  = Some (acc ++ map segment_of (replace_collect fuel regex s)).
Proof.
  intros Hne. revert regex acc Hne.
  induction fuel as [|fuel IH]; intros regex acc Hne Hf; [lia|]. simpl.
  destruct (exec regex s) as [[m|] r'] eqn:He; [|by rewrite app_nil_r].
  destruct (exec_some _ _ _ _ He) as (HM & Hlo & Hin & _ & Hlt & _ & _ & len & Hlen & Hl & Hm).
  destruct (Hne _ _ _ Hlen) as [Hpos Hb].
  assert (Hmne : m_matched m <> []).
  { intros E. apply (f_equal length) in Hm. rewrite E, slice_length_in in Hm by done.
    simpl in Hm. lia. }
  assert (Hstep : step_over m r' = r') by (unfold step_over; by destruct (m_matched m)).
  fold (step_over m r'). rewrite Hstep. rewrite IH; [|by rewrite HM|specialize (Hlt Hmne); lia].
  simpl. by rewrite <- app_assoc.
Qed.

Lemma textTag_nonempty s i len caps :
  matcher textTagRegex s i = Some (len, caps) -> 0 < len /\ i + len <= length s.
Proof.
  rewrite textTagRegex_matcher. intros H.
  destruct (textTag_match _ _ _ _ H) as (attrs & text & _ & _ & Hlen & Hb & _).
  split; [|done]. rewrite Hlen. simpl. lia.
Qed.

Lemma collectSegments_fuel_enough p extra :
  collectSegments_loop (length p + 2 + extra) textTagRegex p [] = Some (collectSegments p).
Proof.
  unfold collectSegments.
  rewrite !collectSegments_loop_collect by (try apply textTag_nonempty; simpl; lia).
  rewrite replace_collect_fuel by (simpl; lia). done.
Qed.

Lemma collectSegments_matchAll p :
  collectSegments p = map segment_of (matchAll (matcher textTagRegex) p).
Proof.
  unfold collectSegments.
  rewrite collectSegments_loop_collect by (try apply textTag_nonempty; simpl; lia).
  done.
Qed.

(** The segments of a paragraph: each is a text tag of the paragraph, with
    its attributes and its text. *)
Lemma collectSegments_wellformed p :
  Forall (fun seg =>
            seg_fullMatch seg = render (seg_attrs seg) (seg_text seg) /\
            seg_fullMatch seg = slice p (seg_start seg) (seg_end seg) /\
            seg_end seg = seg_start seg + length (seg_fullMatch seg) /\
            Forall (fun c => c <> ">"%char) (seg_attrs seg) /\
            Forall (fun c => c <> "<"%char) (seg_text seg))
         (collectSegments p).
Proof.
  rewrite collectSegments_matchAll. apply Forall_map.
  pose proof (replace_collect_matches (length p + 2)
                {| matcher := matcher textTagRegex; lastIndex := 0 |} p) as Hm.
  eapply Forall_impl; [exact Hm|].
  intros m (len & HM & Hmt).
  change (PatternEngine.matcher_of false textTag_re 2 p (m_index m)
          = Some (len, m_captures m)) in HM.
  destruct (textTag_match _ _ _ _ HM) as (attrs & text & Hcaps & Hs & Hlen & Hb & Ha & Ht).
  cbn [seg_fullMatch seg_attrs seg_text seg_start seg_end segment_of].
  unfold capture. rewrite Hcaps. cbn [lookup list_lookup Nat.sub].
  assert (Hl : length (m_matched m) = len).
  { rewrite Hmt, slice_length_in by done. lia. }
  split; [by rewrite Hmt|]. split; [|done].
  unfold m_end. by rewrite Hl.
Qed.

Lemma sorted_spans_bound lo items b b' :
  b <= b' -> sorted_spans lo items b -> sorted_spans lo items b'.
Proof.
  revert lo. induction items as [|[[a c] t] rest IH]; intros lo Hb; simpl; [lia|].
  intros (? & ? & ?). repeat split; try done. by apply IH.
Qed.

Lemma sorted_spans_snoc lo items a b t bound :
  sorted_spans lo (items ++ [(a, b, t)]) bound
  <-> sorted_spans lo items a /\ a <= b /\ b <= bound.
Proof.
  revert lo. induction items as [|[[a' c'] t'] rest IH]; intros lo; simpl.
  - tauto.
  - rewrite IH. tauto.
Qed.

Lemma sorted_spans_lo lo items bound : sorted_spans lo items bound -> lo <= bound.
Proof.
  revert lo. induction items as [|[[a c] t] rest IH]; intros lo; simpl; [done|].
  intros (? & ? & H). apply IH in H. lia.
Qed.

(** Splicing the last span first and the others into the result gives the
    splice of all spans: what the right-to-left loop relies on. *)
Lemma splice_snoc s pos items a b t :
  sorted_spans pos items a -> a <= length s ->
  splice s pos (items ++ [(a, b, t)]) = splice (take a s ++ t ++ drop b s) pos items.
Proof.
  revert pos. induction items as [|[[a' b'] t'] rest IH]; intros pos; simpl.
  - intros Hpos Ha. rewrite drop_app_le by (rewrite length_take; lia).
    f_equal. unfold slice. by rewrite skipn_firstn_comm.
  - intros (Hlo & Hab & Hrest) Ha. rewrite IH by done.
    pose proof (sorted_spans_lo _ _ _ Hrest).
    f_equal. rewrite slice_prefix by (rewrite length_take; lia).
    rewrite slice_take by lia. done.
Qed.

Lemma rewrite_segment_eq replacedText i segment result :
  rewrite_segment replacedText i segment result
  = take (seg_start segment) result ++ newTag replacedText i segment
      ++ drop (seg_end segment) result.
Proof. unfold rewrite_segment. by rewrite slice_0. Qed.

(** The rewriting loop puts the new tags at the spans of the segments. *)
Lemma rewrite_loop_splice replacedText segments n result :
  sorted_spans 0 (take n (rewritten replacedText segments)) (length result) ->
  n <= length segments ->
  rewrite_loop n segments replacedText result
  = splice result 0 (take n (rewritten replacedText segments)).
Proof.
  revert result. induction n as [|n IH]; intros result Hs Hn; simpl.
  - by rewrite drop_0.
  - destruct (segments !! n) as [seg|] eqn:Hseg; [|apply lookup_ge_None in Hseg; lia].
    assert (Hitem : rewritten replacedText segments !! n
                    = Some (seg_start seg, seg_end seg, newTag replacedText n seg)).
    { unfold rewritten. by rewrite list_lookup_imap, Hseg. }
    rewrite (take_S_r _ _ _ Hitem) in Hs |- *.
    apply sorted_spans_snoc in Hs as (Hs & Hab & Hb).
    rewrite rewrite_segment_eq. rewrite IH; [|..|lia].
    + rewrite splice_snoc by (done || lia). done.
    + eapply sorted_spans_bound; [|exact Hs]. rewrite length_app, length_take. lia.
Qed.

Lemma chain_sorted_spans s lo ms (tagf : nat -> Segment -> jsstring) :
  lo <= length s ->
  chain s lo ms ->
  sorted_spans lo
    (imap (fun i seg => (seg_start seg, seg_end seg, tagf i seg)) (map segment_of ms))
    (length s).
Proof.
  revert lo tagf. induction ms as [|m rest IH]; intros lo tagf Hlo; simpl; [done|].
  intros (Hi & Hin & _ & Hrest). split; [done|]. split; [unfold m_end; lia|].
  apply (IH (m_end m) (fun i => tagf (S i))); [done|].
  eapply chain_weaken; [|done]. unfold next_index. destruct (m_matched m); lia.
Qed.

Lemma splice_original p :
  splice p 0 (original (collectSegments p)) = p.
Proof.
  rewrite collectSegments_matchAll. unfold original. rewrite map_map.
  change (fun x => (seg_start (segment_of x), seg_end (segment_of x),
                    seg_fullMatch (segment_of x))) with (span_with m_matched).
  rewrite splice_id by apply matchAll_chain. apply drop_0.
Qed.

(** [replaceInParagraph] in one equation: a paragraph without text tags and
    a paragraph whose text the replacement leaves as it is are returned as
    they are; otherwise the new tags are spliced in at the spans of the
    old ones. *)
Lemma replaceInParagraph_spec p regex replacement :
  let segments := collectSegments p in
  let fullText := concat (map seg_text segments) in
  let replacedText := String_replace (matcher regex) fullText replacement in
  replaceInParagraph p regex replacement
  = match segments with
    | [] => p
    | _ :: _ =>
        if bool_decide (fullText = replacedText) then p
        else splice p 0 (rewritten replacedText segments)
    end.
Proof.
  intros segments fullText replacedText. unfold replaceInParagraph.
  fold segments. destruct segments as [|seg0 rest] eqn:Hsegs; [done|].
  fold fullText. fold replacedText. unfold jsstring_eqb.
  destruct (bool_decide (fullText = replacedText)); [done|].
  assert (Htake : take (length (seg0 :: rest)) (rewritten replacedText (seg0 :: rest))
                  = rewritten replacedText (seg0 :: rest)).
  { apply take_ge. unfold rewritten. by rewrite length_imap. }
  rewrite rewrite_loop_splice; [by rewrite Htake|..|done].
  rewrite Htake. rewrite <- Hsegs. subst segments.
  rewrite collectSegments_matchAll. apply chain_sorted_spans; [lia|].
  apply matchAll_chain.
Qed.

Lemma splice_interleave s pos (items : list (nat * nat * jsstring)) :
  splice s pos items = interleave (gaps s pos (map fst items)) (map snd items).
Proof.
  revert pos. induction items as [|[[a b] t] rest IH]; intros pos; simpl.
  - by rewrite app_nil_r.
  - by rewrite IH.
Qed.

Lemma rewritten_cons replacedText first rest :
  rewritten replacedText (first :: rest)
  = (seg_start first, seg_end first,
     render (if bool_decide (replacedText = []) then seg_attrs first else preserve_attr)
            replacedText)
    :: map (fun seg => (seg_start seg, seg_end seg, render (seg_attrs seg) [])) rest.
Proof.
  unfold rewritten. cbn [imap]. f_equal.
  - unfold newTag, newAttrs, newText. cbn [Nat.eqb].
    destruct replacedText; [by rewrite bool_decide_eq_true_2|done].
  - unfold compose. generalize 0. induction rest as [|seg rest IH]; intros n; [done|].
    cbn [imap map]. f_equal. apply (IH (S n)).
Qed.

Lemma imap_spans (tagf : nat -> Segment -> jsstring) segments :
  map fst (imap (fun i seg => (seg_start seg, seg_end seg, tagf i seg)) segments)
  = segment_spans segments.
Proof.
  revert tagf. induction segments as [|seg rest IH]; intros tagf; [done|].
  cbn [imap map segment_spans fst]. f_equal. apply (IH (fun i => tagf (S i))).
Qed.

Lemma rewritten_spans replacedText segments :
  map fst (rewritten replacedText segments) = segment_spans segments.
Proof. apply imap_spans. Qed.

Lemma textTag_none s i : no_tag (drop i s) -> matcher textTagRegex s i = None.
Proof.
  intros Hno. rewrite textTagRegex_matcher.
  destruct (PatternEngine.matcher_of false textTag_re 2 s i) as [[len caps]|] eqn:E; [|done].
  destruct (textTag_match _ _ _ _ E) as (attrs & text & _ & Hs & _ & Hb & Ha & Ht).
  exfalso. apply (Hno attrs text). split; [done|].
  exists (drop (i + len) s). unfold render. rewrite <- Hs.
  symmetry. apply slice_app_drop. lia.
Qed.

Lemma textTag_some s i a t :
  tag_at (drop i s) a t ->
  matcher textTagRegex s i = Some (length (render a t), [Some a; Some t]).
Proof.
  intros [Hok [post Hd]]. rewrite textTagRegex_matcher. by eapply textTag_complete.
Qed.

Lemma replace_collect_skip_many M s fuel n lo :
  (forall j, j < n -> M s (lo + j) = None) -> lo + n <= length s ->
  replace_collect fuel {| matcher := M; lastIndex := lo |} s
  = replace_collect fuel {| matcher := M; lastIndex := lo + n |} s.
Proof.
  revert lo. induction n as [|n IH]; intros lo Hnone Hb.
  - by rewrite Nat.add_0_r.
  - rewrite replace_collect_skip; [|specialize (Hnone 0); rewrite Nat.add_0_r in Hnone;
                                     apply Hnone; lia|lia].
    rewrite IH; [f_equal; f_equal; lia| |lia].
    intros j Hj. replace (S lo + j) with (lo + S j) by lia. apply Hnone. lia.
Qed.

Lemma render_length a t : length (render a t) = 11 + length a + length t.
Proof. unfold render. rewrite !length_app. simpl. lia. Qed.

(** A scan of assembled pieces finds their tags. *)
Lemma scan_assemble pieces last pre fuel :
  scanned pieces last -> length pieces < fuel ->
  replace_collect fuel {| matcher := matcher textTagRegex; lastIndex := length pre |}
    (pre ++ assemble pieces last)
  = matches_of (length pre) pieces.
Proof.
  revert pre fuel. induction pieces as [|[[g a] t] rest IH]; intros pre fuel Hsc Hf.
  - destruct fuel as [|fuel]; [lia|]. cbn [replace_collect assemble matches_of].
    pose proof (exec_end (matcher textTagRegex) (length pre) (pre ++ last)) as He.
    destruct (exec _ _) as [[m|] r']; [|done].
    simpl in He. discriminate He.
    intros j Hj. apply textTag_none.
    replace j with (length pre + (j - length pre)) by lia.
    rewrite drop_app_add. apply Hsc.
  - destruct Hsc as (Hok & Hgap & Hrest).
    destruct fuel as [|fuel]; [simpl in Hf; lia|].
    cbn [assemble matches_of].
    set (s := pre ++ g ++ render a t ++ assemble rest last).
    rewrite (replace_collect_skip_many _ s _ (length g)).
    + assert (Hd : drop (length pre + length g) s = render a t ++ assemble rest last).
      { unfold s. rewrite drop_app_add. by rewrite drop_app_length. }
      assert (HM := textTag_some s (length pre + length g) a t
                      (conj Hok (ex_intro _ _ Hd))).
      assert (Hlen : length pre + length g + length (render a t) <= length s).
      { unfold s. rewrite !length_app. lia. }
      cbn [replace_collect]. rewrite (exec_hit _ _ _ _ _ HM) by lia.
      assert (Hsl : slice s (length pre + length g)
                      (length pre + length g + length (render a t)) = render a t).
      { apply (slice_of_drop s [] _ (assemble rest last) (length pre + length g));
          [done|simpl; lia|lia]. }
      rewrite Hsl. cbn [m_matched].
      assert (Hstep : forall x y : RegExp,
                match render a t with [] => x | _ :: _ => y end = y) by done.
      rewrite Hstep. f_equal.
      specialize (IH (pre ++ g ++ render a t) fuel Hrest).
      rewrite !length_app in IH. rewrite <- !app_assoc in IH.
      rewrite Nat.add_assoc in IH. apply IH. simpl in Hf. lia.
    + intros j Hj. apply textTag_none. unfold s. rewrite drop_app_add. by apply Hgap.
    + unfold s. rewrite !length_app. lia.
Qed.

(** A scan reads a text as pieces. *)
Lemma scan_pieces p fuel lo :
  lo <= length p -> S (length p) - lo < fuel ->
  let ms := replace_collect fuel {| matcher := matcher textTagRegex; lastIndex := lo |} p in
  drop lo p = assemble (pieces_of p lo (spans_of ms) (map tag_of ms))
                (last_gap p lo (spans_of ms)) /\
  scanned (pieces_of p lo (spans_of ms) (map tag_of ms)) (last_gap p lo (spans_of ms)).
Proof.
  revert lo. induction fuel as [|fuel IH]; intros lo Hlo Hf; [lia|].
  cbn [replace_collect].
  destruct (exec _ p) as [[m|] r'] eqn:He.
  - destruct (exec_some _ _ _ _ He)
      as (HM & Hi & Hin & _ & Hlt & _ & Hfirst & len & Hlen & Hl & Hm).
    cbn [matcher lastIndex] in *.
    rewrite textTagRegex_matcher in Hlen.
    destruct (textTag_match _ _ _ _ Hlen) as (attrs & text & Hcaps & Hs & Hlen' & Hb & Ha & Ht).
    fold (render attrs text) in Hs, Hlen'.
    assert (Hmne : m_matched m <> []).
    { rewrite Hm, Hs. intros E. apply (f_equal length) in E.
      rewrite render_length in E. simpl in E. lia. }
    assert (Hr' : r' = {| matcher := matcher textTagRegex; lastIndex := m_index m + len |}).
    { destruct r' as [M' li']. simpl in *. by subst. }
    assert (Hstep : match m_matched m with
                    | [] => set_lastIndex r' (S (lastIndex r'))
                    | _ :: _ => r'
                    end = r') by (by destruct (m_matched m)).
    rewrite Hstep, Hr'. clear Hstep.
    assert (Hend : m_end m = m_index m + len).
    { unfold m_end. rewrite Hm, Hs. by rewrite <- Hlen'. }
    destruct (IH (m_index m + len)) as [IH1 IH2]; [lia|specialize (Hlt Hmne); lia|].
    set (ms' := replace_collect fuel
                  {| matcher := matcher textTagRegex; lastIndex := m_index m + len |} p)
      in *.
    assert (Htag : tag_of m = (attrs, text)).
    { unfold tag_of, capture. by rewrite Hcaps. }
    cbn [spans_of map]. rewrite Htag, Hend. fold (spans_of ms').
    cbn [pieces_of last_gap assemble scanned].
    assert (Heq : drop lo p
                  = slice p lo (m_index m) ++ render attrs text
                    ++ assemble (pieces_of p (m_index m + len) (spans_of ms') (map tag_of ms'))
                         (last_gap p (m_index m + len) (spans_of ms'))).
    { rewrite <- IH1, <- Hs. rewrite slice_app_drop by lia. by rewrite slice_app_drop. }
    split; [exact Heq|]. split; [done|]. split; [|exact IH2].
    intros j Hj. rewrite <- Heq. rewrite drop_drop.
    rewrite slice_length_in in Hj by lia.
    intros a t Hat. apply textTag_some in Hat.
    rewrite Hfirst in Hat; [done|lia].
  - destruct (exec_none _ _ _ He) as [_ Hnone]. cbn [matcher lastIndex] in Hnone.
    cbn [spans_of map pieces_of last_gap assemble scanned]. split; [done|].
    intros j a t Htag. rewrite drop_drop in Htag.
    destruct (decide (lo + j <= length p)) as [Hj|Hj].
    + apply textTag_some in Htag. rewrite Hnone in Htag; [done|lia].
    + destruct Htag as [_ [post Hd]]. rewrite drop_ge in Hd by lia.
      apply (f_equal length) in Hd. rewrite length_app, render_length in Hd. simpl in Hd. lia.
Qed.

(** The first occurrence of a character splits a text in one way. *)
Lemma split_first (c : ascii) (u1 v1 u2 v2 : jsstring) :
  Forall (fun x => x <> c) u1 -> Forall (fun x => x <> c) u2 ->
  u1 ++ c :: v1 = u2 ++ c :: v2 -> u1 = u2 /\ v1 = v2.
Proof.
  revert u2. induction u1 as [|x u1 IH]; intros [|y u2] H1 H2 E; simpl in E.
  - by injection E as ->.
  - injection E as <- _. by apply Forall_cons in H2 as [? _].
  - injection E as -> _. by apply Forall_cons in H1 as [? _].
  - apply Forall_cons in H1 as [_ H1]. apply Forall_cons in H2 as [_ H2].
    injection E as -> E. destruct (IH _ H1 H2 E) as [-> ->]. done.
Qed.

Lemma first_occurrence (c : ascii) (u : jsstring) :
  Forall (fun x => x <> c) u \/
  exists u1 u2, u = u1 ++ c :: u2 /\ Forall (fun x => x <> c) u1.
Proof.
  induction u as [|x u IH]; [left; constructor|].
  destruct (decide (x = c)) as [->|Hne].
  - right. exists [], u. split; [done|constructor].
  - destruct IH as [IH|(u1 & u2 & -> & IH)].
    + left. by constructor.
    + right. exists (x :: u1), u2. split; [done|by constructor].
Qed.

(** A text tag that starts inside a gap before the tag [a', t'] also starts
    there when the tag is [a, t]: it ends inside the gap, or it ends where
    that tag ends. *)
Lemma gap_transfer (g a t R a' t' R' : jsstring) :
  g <> [] -> tag_ok a t -> tag_ok a' t' ->
  no_tag (g ++ render a t ++ R) -> no_tag (g ++ render a' t' ++ R').
Proof.
  intros Hg [Ha Ht] [Ha' Ht'] Hno x y [[Hx Hy] [post E]].
  unfold render in E. rewrite <- !app_assoc in E.
  assert (Hopen : Forall (fun c => c <> ">"%char) (str "<w:t")).
  { repeat constructor; done. }
  destruct (first_occurrence ">"%char g) as [Hgt|(u & v & -> & Hu)].
  - (* the tag runs into the tag after the gap *)
    destruct (split_first ">"%char (g ++ str "<w:t" ++ a') (t' ++ str "</w:t>" ++ R')
                (str "<w:t" ++ x) (y ++ str "</w:t>" ++ post)) as [E1 E2].
    { by repeat apply Forall_app_2. }
    { by apply Forall_app_2. }
    { rewrite <- !app_assoc. exact E. }
    destruct (split_first "<"%char t' (str "/w:t>" ++ R') y (str "/w:t>" ++ post))
      as [-> E3]; [done|done|exact E2|].
    assert (R' = post) as -> by (by simplify_list_eq).
    destruct g as [|c1 [|c2 [|c3 [|c4 g5]]]]; try done; simplify_list_eq.
    apply (Hno (g5 ++ str "<w:t" ++ a) t).
    split.
    + split; [|done]. apply Forall_cons in Hgt as [_ Hgt].
      apply Forall_cons in Hgt as [_ Hgt]. apply Forall_cons in Hgt as [_ Hgt].
      apply Forall_cons in Hgt as [_ Hgt]. by repeat apply Forall_app_2.
    + exists R. unfold render. by simplify_list_eq.
  - (* the tag ends inside the gap *)
    destruct (split_first ">"%char u (v ++ str "<w:t" ++ a' ++ str ">" ++ t' ++ str "</w:t>" ++ R')
                (str "<w:t" ++ x) (y ++ str "</w:t>" ++ post)) as [-> E2].
    { done. }
    { by apply Forall_app_2. }
    { rewrite <- !app_assoc in *. exact E. }
    destruct (first_occurrence "<"%char v) as [Hv|(v1 & v2 & -> & Hv1)].
    + destruct (split_first "<"%char v (str "w:t" ++ a' ++ str ">" ++ t' ++ str "</w:t>" ++ R')
                  y (str "/w:t>" ++ post)) as [_ E3]; [done|done|exact E2|].
      discriminate E3.
    + destruct (split_first "<"%char v1
                  (v2 ++ str "<w:t" ++ a' ++ str ">" ++ t' ++ str "</w:t>" ++ R')
                  y (str "/w:t>" ++ post)) as [-> E3]; [done|done|..].
      { rewrite <- !app_assoc in E2. exact E2. }
      destruct v2 as [|c1 [|c2 [|c3 [|c4 [|c5 v3]]]]]; try discriminate E3.
      injection E3 as -> -> -> -> -> E3.
      apply (Hno x y). split; [done|].
      exists (v3 ++ render a t ++ R). unfold render. by simplify_list_eq.
Qed.

(** Blocks with the same gaps and other text tags are scanned as well. *)
Lemma scanned_same_gaps pieces pieces' last :
  Forall2 (fun b b' : piece => b.1.1 = b'.1.1 /\ tag_ok b'.1.2 b'.2) pieces pieces' ->
  scanned pieces last -> scanned pieces' last.
Proof.
  induction 1 as [|[[g a] t] [[g' a'] t'] bs bs' [Hg Hok] _ IH]; [done|].
  simpl in Hg, Hok. subst g'. cbn [scanned].
  intros (Hok0 & Hgap & Hrest). split; [done|]. split; [|by apply IH].
  intros j Hj. specialize (Hgap j Hj).
  rewrite drop_app_le in Hgap |- * by lia.
  eapply gap_transfer; [|exact Hok0|exact Hok|exact Hgap].
  intros E. apply (f_equal length) in E. rewrite length_drop in E. simpl in E. lia.
Qed.

Lemma interleave_assemble p pos spans (tags : list (jsstring * jsstring)) :
  length tags = length spans ->
  interleave (gaps p pos spans) (map (fun '(a, t) => render a t) tags)
  = assemble (pieces_of p pos spans tags) (last_gap p pos spans).
Proof.
  revert pos tags. induction spans as [|[a b] spans IH]; intros pos [|[attrs text] tags] Hl;
    try done.
  - simpl. by rewrite app_nil_r.
  - cbn [gaps map interleave pieces_of last_gap assemble]. rewrite IH; [done|].
    simpl in Hl. lia.
Qed.

Lemma pieces_same_gaps p pos spans (tags tags' : list (jsstring * jsstring)) :
  length tags = length spans -> length tags' = length spans ->
  Forall (fun '(a, t) => tag_ok a t) tags' ->
  Forall2 (fun b b' : piece => b.1.1 = b'.1.1 /\ tag_ok b'.1.2 b'.2)
    (pieces_of p pos spans tags) (pieces_of p pos spans tags').
Proof.
  revert pos tags tags'.
  induction spans as [|[a b] spans IH]; intros pos [|[a1 t1] tags] [|[a2 t2] tags'] H1 H2 Hok;
    try done; try constructor.
  - split; [done|]. by apply Forall_cons in Hok as [? _].
  - apply IH; [simpl in *; lia|simpl in *; lia|]. by apply Forall_cons in Hok as [_ ?].
Qed.

Lemma matches_of_tags offset pieces :
  map tag_of (matches_of offset pieces) = map (fun b : piece => (b.1.2, b.2)) pieces.
Proof.
  revert offset. induction pieces as [|[[g a] t] rest IH]; intros offset; [done|].
  cbn [matches_of map]. by rewrite IH.
Qed.

Lemma pieces_of_tags p pos spans (tags : list (jsstring * jsstring)) :
  length tags = length spans ->
  map (fun b : piece => (b.1.2, b.2)) (pieces_of p pos spans tags) = tags.
Proof.
  revert pos tags. induction spans as [|[a b] spans IH]; intros pos [|[attrs text] tags] Hl;
    try done.
  cbn [pieces_of map]. rewrite IH; [done|]. simpl in Hl. lia.
Qed.

(** Reading a paragraph again after its text tags have been replaced by
    other text tags gives those tags. *)
Lemma collectSegments_retagged p (tags : list (jsstring * jsstring)) :
  length tags = length (collectSegments p) ->
  Forall (fun '(a, t) => tag_ok a t) tags ->
  let out := interleave (gaps p 0 (segment_spans (collectSegments p)))
               (map (fun '(a, t) => render a t) tags) in
  map (fun seg => (seg_attrs seg, seg_text seg)) (collectSegments out) = tags.
Proof.
  intros Hl Hok out.
  pose proof (scan_pieces p (length p + 2) 0) as Hp.
  destruct Hp as [_ Hsc]; [lia|lia|].
  fold (matchAll (matcher textTagRegex) p) in Hsc.
  subst out. rewrite (collectSegments_matchAll p) in Hl |- *. rewrite length_map in Hl.
  assert (Hspans : segment_spans (map segment_of (matchAll (matcher textTagRegex) p))
                   = spans_of (matchAll (matcher textTagRegex) p)).
  { unfold segment_spans, spans_of. by rewrite map_map. }
  rewrite Hspans.
  set (ms := matchAll (matcher textTagRegex) p) in *.
  assert (Hls : length (spans_of ms) = length ms) by (unfold spans_of; by rewrite length_map).
  rewrite interleave_assemble by lia.
  assert (Hsc' : scanned (pieces_of p 0 (spans_of ms) tags) (last_gap p 0 (spans_of ms))).
  { eapply scanned_same_gaps; [|exact Hsc].
    apply pieces_same_gaps; [rewrite length_map|..]; (done || lia). }
  rewrite collectSegments_matchAll. unfold matchAll.
  pose proof (scan_assemble _ _ [] (length (assemble (pieces_of p 0 (spans_of ms) tags)
                                              (last_gap p 0 (spans_of ms))) + 2) Hsc') as Hscan.
  cbn [app length] in Hscan. rewrite Hscan.
  - rewrite map_map.
    change (fun x => (seg_attrs (segment_of x), seg_text (segment_of x))) with tag_of.
    rewrite matches_of_tags. apply pieces_of_tags. lia.
  - clear. generalize (last_gap p 0 (spans_of ms)).
    generalize (pieces_of p 0 (spans_of ms) tags).
    intros bs l. induction bs as [|[[g a] t] bs IH]; cbn [assemble length]; [lia|].
    rewrite !length_app, render_length. lia.
Qed.

Lemma markup_free_spec t : markup_free t = true -> Forall (fun c => c <> "<"%char) t.
Proof.
  induction t as [|c t IH]; [constructor|]. cbn [markup_free forallb].
  intros [Hc Ht]%andb_true_iff. constructor; [|by apply IH].
  by apply negb_true_iff, Ascii.eqb_neq in Hc.
Qed.

Lemma concat_empty {A B} (l : list A) : concat (map (fun _ => @nil B) l) = [].
Proof. by induction l. Qed.

(** Reading a rewritten paragraph again, when the replaced text holds no
    opening bracket: the tags are the ones the loop has written. *)
Lemma replaceInParagraph_reread p regex replacement first rest :
  let fullText := concat (map seg_text (collectSegments p)) in
  let replacedText := String_replace (matcher regex) fullText replacement in
  collectSegments p = first :: rest ->
  replacedText <> fullText ->
  markup_free replacedText = true ->
  map (fun seg => (seg_attrs seg, seg_text seg))
      (collectSegments (replaceInParagraph p regex replacement))
  = (if bool_decide (replacedText = []) then seg_attrs first else preserve_attr, replacedText)
    :: map (fun seg => (seg_attrs seg, [])) rest.
Proof.
  intros fullText replacedText Hsegs Hne Hfree.
  rewrite replaceInParagraph_spec. fold fullText replacedText. rewrite Hsegs.
  rewrite bool_decide_eq_false_2 by congruence.
  rewrite splice_interleave, rewritten_spans, rewritten_cons. rewrite <- Hsegs.
  set (tags := (if bool_decide (replacedText = []) then seg_attrs first else preserve_attr,
                replacedText) :: map (fun seg => (seg_attrs seg, @nil ascii)) rest).
  replace (map snd _) with (map (fun '(a, t) => render a t) tags)
    by (subst tags; cbn [map snd]; by rewrite !map_map).
  pose proof (collectSegments_wellformed p) as Hwf. rewrite Hsegs in Hwf.
  apply Forall_cons in Hwf as [(_ & _ & _ & Ha & _) Hwf].
  apply collectSegments_retagged.
  - rewrite Hsegs. subst tags. simpl. by rewrite length_map.
  - subst tags. constructor.
    + split; [|by apply markup_free_spec].
      destruct (bool_decide _); [done|]. unfold preserve_attr.
      repeat (constructor; [done|]). constructor.
    + apply Forall_map. eapply Forall_impl; [exact Hwf|].
      intros seg (_ & _ & _ & Hs & _). split; [done|constructor].
Qed.

Lemma markup_free_Forall t : Forall (fun c => c <> "<"%char) t -> markup_free t = true.
Proof.
  induction 1 as [|c t Hc Ht IH]; [done|]. cbn [markup_free forallb].
  apply andb_true_iff. split; [|exact IH]. by apply negb_true_iff, Ascii.eqb_neq.
Qed.

(** The text read from a paragraph holds no opening bracket. *)
Lemma collectSegments_markup_free p :
  markup_free (concat (map seg_text (collectSegments p))) = true.
Proof.
  apply markup_free_Forall.
  pose proof (collectSegments_wellformed p) as Hwf.
  induction Hwf as [|seg segs (_ & _ & _ & _ & Ht) _ IH]; [constructor|].
  cbn [map concat]. apply Forall_app. by split.
Qed.

(** C4. The per-Block postcondition.  For every paragraph, compiled
    pattern and replacement: the paragraph is its gaps interleaved with its
    text tags, and each tag is the serialized form of its attributes and
    text.  A paragraph without text tags is returned as it is.  Otherwise,
    if the replaced text equals the concatenated text, the paragraph is
    returned as it is; if not, the result has the same gaps, the tag of the
    first fragment is written with the whole replaced text and the tag of
    every other fragment with the empty text.  The replaced text is written
    between the tags as it is, without escaping.  So the postcondition of
    the specification holds exactly when the replaced text holds no opening
    bracket (or the paragraph has no text tag): then the fragments read
    from the result are the ones written; with an opening bracket in the
    replaced text the texts of the fragments read from the result never
    concatenate to the replaced text.  In the first example the fragments
    fo and o bar with foo replaced by baz become baz bar and the empty
    fragment.  In the second, foo is replaced by an opening bracket and the
    result reads as one empty fragment; in the third, foo is replaced by a
    and a closing text tag, and the result reads as the fragments a and
    empty: its text is a, the rest is lost. *)
Theorem block_postcondition_iff_markup_free :
  (forall (p : jsstring) (regex : RegExp) (replacement : jsstring),
     let segments := collectSegments p in
     let fullText := concat (map seg_text segments) in
     let replacedText := String_replace (matcher regex) fullText replacement in
     let out := replaceInParagraph p regex replacement in
     p = interleave (gaps p 0 (segment_spans segments)) (map seg_fullMatch segments) /\
     Forall (fun seg => seg_fullMatch seg = render (seg_attrs seg) (seg_text seg)) segments /\
     match segments with
     | [] => out = p
     | first :: rest =>
         if bool_decide (replacedText = fullText) then out = p
         else
           exists attrs,
             out = interleave (gaps p 0 (segment_spans segments))
                     (render attrs replacedText
                        :: map (fun seg => render (seg_attrs seg) []) rest) /\
             concat (replacedText :: map (fun _ => []) rest) = replacedText /\
             if markup_free replacedText
             then map seg_text (collectSegments out)
                  = replacedText :: map (fun _ => []) rest
             else concat (map seg_text (collectSegments out)) <> replacedText
     end /\
     (block_postcondition p regex replacement
      <-> segments = [] \/ markup_free replacedText = true)) /\
  (exists regex out,
     @buildRegex FragmentEngine (str "foo") defaultOptions = Ok (Some regex) /\
     map seg_text (collectSegments foo_bar_paragraph) = [str "fo"; str "o bar"] /\
     replaceInParagraph foo_bar_paragraph regex (str "baz") = out /\
     @replaceInXml FragmentEngine foo_bar_paragraph (str "foo") (str "baz") defaultOptions
       = Ok out /\
     map seg_text (collectSegments out) = [str "baz bar"; []] /\
     extractTextFromXml out = str "baz bar") /\
  (exists regex out,
     @buildRegex FragmentEngine (str "foo") defaultOptions = Ok (Some regex) /\
     replaceInParagraph foo_bar_paragraph regex (str "<") = out /\
     out = str "<w:p><w:r><w:t" ++ preserve_attr
             ++ str ">< bar</w:t></w:r><w:r><w:rPr><w:b/></w:rPr><w:t></w:t></w:r></w:p>" /\
     map seg_text (collectSegments out) = [[]] /\
     extractTextFromXml out = [] /\
     ~ block_postcondition foo_bar_paragraph regex (str "<")) /\
  (exists regex out,
     @buildRegex FragmentEngine (str "foo") defaultOptions = Ok (Some regex) /\
     replaceInParagraph foo_bar_paragraph regex (str "a</w:t>") = out /\
     out = str "<w:p><w:r><w:t" ++ preserve_attr
             ++ str ">a</w:t> bar</w:t></w:r><w:r><w:rPr><w:b/></w:rPr><w:t></w:t></w:r></w:p>" /\
     map seg_text (collectSegments out) = [str "a"; []] /\
     extractTextFromXml out = str "a" /\
     ~ block_postcondition foo_bar_paragraph regex (str "a</w:t>")).
Proof.
  assert (Hgen : forall (p : jsstring) (regex : RegExp) (replacement : jsstring),
     let segments := collectSegments p in
     let fullText := concat (map seg_text segments) in
     let replacedText := String_replace (matcher regex) fullText replacement in
     let out := replaceInParagraph p regex replacement in
     match segments with
     | [] => out = p
     | first :: rest =>
         if bool_decide (replacedText = fullText) then out = p
         else
           exists attrs,
             out = interleave (gaps p 0 (segment_spans segments))
                     (render attrs replacedText
                        :: map (fun seg => render (seg_attrs seg) []) rest) /\
             concat (replacedText :: map (fun _ => []) rest) = replacedText /\
             if markup_free replacedText
             then map seg_text (collectSegments out)
                  = replacedText :: map (fun _ => []) rest
             else concat (map seg_text (collectSegments out)) <> replacedText
     end).
  { intros p regex replacement segments fullText replacedText out.
    pose proof (replaceInParagraph_spec p regex replacement) as Hspec.
    pose proof (replaceInParagraph_reread p regex replacement) as Hre.
    pose proof (collectSegments_markup_free out) as Hout.
    cbv zeta in Hspec, Hre.
    fold segments fullText replacedText out in Hspec, Hre |- *.
    clearbody out replacedText fullText segments.
    destruct segments as [|first rest]; [done|].
    specialize (Hre first rest eq_refl).
    rewrite (bool_decide_ext (fullText = replacedText) (replacedText = fullText))
      in Hspec by done.
    destruct (bool_decide (replacedText = fullText)) eqn:Hd; [done|].
    apply bool_decide_eq_false in Hd.
    eexists. split; [|split].
    - rewrite Hspec, splice_interleave, rewritten_spans, rewritten_cons. simpl.
      by rewrite map_map.
    - simpl. by rewrite concat_empty, app_nil_r.
    - destruct (markup_free replacedText) eqn:Hfree.
      + specialize (Hre Hd eq_refl).
        apply (f_equal (map snd)) in Hre. rewrite map_map in Hre. cbn [map snd] in Hre.
        rewrite map_map in Hre. exact Hre.
      + intros E. rewrite E in Hout. congruence. }
  assert (Hiff : forall (p : jsstring) (regex : RegExp) (replacement : jsstring),
     block_postcondition p regex replacement
     <-> collectSegments p = [] \/
         markup_free (String_replace (matcher regex)
                        (concat (map seg_text (collectSegments p))) replacement) = true).
  { intros p regex replacement.
    pose proof (Hgen p regex replacement) as Hg.
    pose proof (collectSegments_markup_free p) as Hfull.
    cbv zeta in Hg. unfold block_postcondition.
    set (segments := collectSegments p) in *.
    set (fullText := concat (map seg_text segments)) in *.
    set (replacedText := String_replace (matcher regex) fullText replacement) in *.
    set (out := replaceInParagraph p regex replacement) in *.
    clearbody out replacedText fullText.
    destruct segments as [|first rest] eqn:Hsegs; [split; [by left|done]|].
    destruct (bool_decide (replacedText = fullText)) eqn:Hd.
    + apply bool_decide_eq_true in Hd. split.
      * intros _. right. by rewrite Hd.
      * intros _. split; [done|]. intros Hne. by destruct Hne.
    + apply bool_decide_eq_false in Hd. destruct Hg as (attrs & _ & _ & Hg).
      split.
      * intros [_ Hpost]. right.
        destruct (markup_free replacedText); [done|].
        destruct (Hpost Hd) as (f & r & _ & _ & _ & _ & Hcat). by destruct Hg.
      * intros [Hnil|Hfree]; [done|]. rewrite Hfree in Hg.
        split; [done|]. intros _.
        destruct (collectSegments out) as [|first' rest'] eqn:Hout'; [done|].
        exists first', rest'. cbn [map] in Hg. injection Hg as H1 H2.
        split; [done|]. split.
        { apply (f_equal length) in H2. rewrite !length_map in H2. simpl. by rewrite H2. }
        split; [done|]. split.
        -- clear -H2. revert rest H2. induction rest' as [|s r IH]; intros [|s' r'] H;
             try done; constructor.
           ++ by injection H.
           ++ injection H as _ H. by eapply IH.
        -- cbn [map concat]. rewrite H1, H2. by rewrite concat_empty, app_nil_r. }
  split; [|split; [|split]].
  - intros p regex replacement segments fullText replacedText out.
    split.
    { rewrite <- (splice_original p) at 1. rewrite splice_interleave.
      unfold original, segment_spans. by rewrite !map_map. }
    split.
    { eapply Forall_impl; [apply collectSegments_wellformed|]. by intros seg (? & _). }
    split; [apply Hgen|apply Hiff].
  - eexists _, _. split; [reflexivity|]. repeat split; by vm_compute.
  - eexists _, _. split; [reflexivity|]. split; [reflexivity|].
    split; [by vm_compute|]. split; [by vm_compute|]. split; [by vm_compute|].
    intros H. destruct (proj1 (Hiff _ _ _) H) as [H'|H']; by vm_compute in H'.
  - eexists _, _. split; [reflexivity|]. split; [reflexivity|].
    split; [by vm_compute|]. split; [by vm_compute|]. split; [by vm_compute|].
    intros H. destruct (proj1 (Hiff _ _ _) H) as [H'|H']; by vm_compute in H'.
Qed.

(** C5 as stated fails on the first fragment of a changed paragraph: the
    tag that receives the text gets the whitespace attribute in place of
    the attributes it had, here a language attribute. *)
Lemma attributes_replaced_on_first_fragment :
  exists regex,
    @buildRegex FragmentEngine (str "a") defaultOptions = Ok (Some regex) /\
    map seg_attrs (collectSegments lang_paragraph)
      = [str " xml:lang=" ++ [dquote] ++ str "en" ++ [dquote]] /\
    map seg_attrs (collectSegments (replaceInParagraph lang_paragraph regex (str "b")))
      = [preserve_attr] /\
    attributes_carried lang_paragraph (replaceInParagraph lang_paragraph regex (str "b"))
      = false.
Proof. eexists. split; [reflexivity|]. repeat split; by vm_compute. Qed.

(** C5, amended.  For every paragraph, compiled pattern and replacement:
    the markup between the text tags (run properties and the rest) is
    carried into the result untouched, and a paragraph without text tags or
    with an unchanged text is returned as it is.  In a changed paragraph
    every tag but the first keeps its attributes and is emptied; the first
    tag keeps its attributes when the replaced text is empty, and otherwise
    its attributes are replaced by the whitespace attribute, so every tag
    that holds text carries that attribute; when the replaced text holds no
    opening bracket, these are the attributes read from the result.  In the
    example the language attribute is replaced when a becomes b and kept
    when a is deleted. *)
Theorem attributes_after_replacement :
  (forall (p : jsstring) (regex : RegExp) (replacement : jsstring),
     let segments := collectSegments p in
     let fullText := concat (map seg_text segments) in
     let replacedText := String_replace (matcher regex) fullText replacement in
     let out := replaceInParagraph p regex replacement in
     p = interleave (gaps p 0 (segment_spans segments))
           (map (fun seg => render (seg_attrs seg) (seg_text seg)) segments) /\
     match segments with
     | [] => out = p
     | first :: rest =>
         if bool_decide (replacedText = fullText) then out = p
         else
           let attrs := if bool_decide (replacedText = [])
                        then seg_attrs first else preserve_attr in
           out = interleave (gaps p 0 (segment_spans segments))
                   (render attrs replacedText
                      :: map (fun seg => render (seg_attrs seg) []) rest) /\
           if markup_free replacedText
           then map seg_attrs (collectSegments out) = attrs :: map seg_attrs rest
           else True
     end) /\
  (exists regex,
     @buildRegex FragmentEngine (str "a") defaultOptions = Ok (Some regex) /\
     replaceInParagraph lang_paragraph regex (str "b")
       = str "<w:p><w:r><w:t" ++ preserve_attr ++ str ">b</w:t></w:r></w:p>" /\
     replaceInParagraph lang_paragraph regex []
       = str "<w:p><w:r><w:t xml:lang=" ++ [dquote] ++ str "en" ++ [dquote]
           ++ str "></w:t></w:r></w:p>").
Proof.
  split.
  - intros p regex replacement segments fullText replacedText out.
    split.
    { rewrite <- (splice_original p) at 1. rewrite splice_interleave.
      unfold original, segment_spans. rewrite !map_map. f_equal.
      apply Forall_fmap_ext_1.
      eapply Forall_impl; [apply collectSegments_wellformed|]. by intros seg (? & _). }
    pose proof (replaceInParagraph_spec p regex replacement) as Hspec.
    pose proof (replaceInParagraph_reread p regex replacement) as Hre.
    cbv zeta in Hspec, Hre.
    fold segments fullText replacedText out in Hspec, Hre |- *.
    clearbody out replacedText fullText segments.
    destruct segments as [|first rest]; [done|].
    specialize (Hre first rest eq_refl).
    rewrite (bool_decide_ext (fullText = replacedText) (replacedText = fullText))
      in Hspec by done.
    destruct (bool_decide (replacedText = fullText)) eqn:Hd; [done|].
    apply bool_decide_eq_false in Hd. cbv zeta. split.
    + rewrite Hspec, splice_interleave, rewritten_spans, rewritten_cons. simpl.
      by rewrite map_map.
    + destruct (markup_free replacedText) eqn:Hfree; [|done].
      specialize (Hre Hd eq_refl).
      apply (f_equal (map fst)) in Hre. rewrite map_map in Hre. cbn [map fst] in Hre.
      rewrite map_map in Hre. exact Hre.
  - eexists. split; [reflexivity|]. split; by vm_compute.
Qed.

(* ===================================================================== *)
(** ** The frame of [replaceInXml] *)
(* ===================================================================== *)

Lemma spans_of_span_with f ms : map fst (map (span_with f) ms) = spans_of ms.
Proof. unfold spans_of. rewrite map_map. done. Qed.

Lemma paragraphs_wellformed xml :
  Forall (fun m => exists sep body,
            m_matched m = str "<w:p" ++ [sep] ++ body ++ str "</w:p>" /\
            (sep = " "%char \/ sep = ">"%char))
         (matchAll paragraphRegex xml).
Proof.
  pose proof (replace_collect_matches (length xml + 2)
                {| matcher := paragraphRegex; lastIndex := 0 |} xml) as Hm.
  eapply Forall_impl; [exact Hm|].
  intros m (len & HM & Hmt).
  change (PatternEngine.matcher_of false paragraph_re 0 xml (m_index m)
          = Some (len, m_captures m)) in HM.
  destruct (paragraph_match _ _ _ _ HM) as (sep & body & Hs & Hsep & _).
  exists sep, body. by rewrite Hmt.
Qed.

Section Paragraphs.
Import PatternEngine.
Variable s : jsstring.

Lemma same_text_eq p t : same_text true p t = true -> p = t.
Proof.
  revert t. induction p as [|a p IH]; intros [|b t]; simpl; try done.
  intros [Hab Hpt]%andb_true_iff. apply Ascii.eqb_eq in Hab. f_equal; [done|by apply IH].
Qed.

Lemma any_char_mem c : set_mem false [CSpace false; CSpace true] c = true.
Proof.
  unfold set_mem. cbn [existsb item_mem andb xorb]. rewrite !orb_false_r.
  by destruct (is_space_char c).
Qed.

(** A lazy star stops at the first index where the continuation succeeds. *)
Lemma star_lazy_sound
    (m : nat -> captures -> continuation -> option (nat * captures))
    k fuel x cs res :
  (forall x cs d, m x cs d = match s !! x with
                             | Some c => d (S x) cs
                             | None => None
                             end) ->
  RepeatMatcher m [] false k fuel 0 None x cs = Some res ->
  exists j, x <= j /\ (x <= length s -> j <= length s) /\
            k j cs = Some res /\ forall t, x <= t < j -> k t cs = None.
Proof.
  intros Hm. revert x. induction fuel as [|fuel IH]; intros x; [done|].
  cbn [RepeatMatcher Nat.eqb negb andb clear_groups foldr]. rewrite Hm.
  unfold or_else. destruct (k x cs) as [r|] eqn:Hk.
  - intros [= <-]. exists x. split; [done|]. split; [done|]. split; [done|]. intros t; lia.
  - destruct (s !! x) as [c|] eqn:Hc; [|done].
    replace (S x =? x) with false by (symmetry; apply Nat.eqb_neq; lia). simpl.
    intros H. destruct (IH _ H) as (j & Hj & Hlen & Hkj & Hnone).
    apply lookup_lt_Some in Hc.
    exists j. split; [lia|]. split; [intros; apply Hlen; lia|]. split; [done|].
    intros t Ht. destruct (decide (t = x)) as [->|]; [done|]. apply Hnone. lia.
Qed.

Lemma star_lazy_complete
    (m : nat -> captures -> continuation -> option (nat * captures))
    k fuel x j cs res :
  (forall x cs d, m x cs d = match s !! x with
                             | Some c => d (S x) cs
                             | None => None
                             end) ->
  x <= j -> j <= length s ->
  (forall t, x <= t < j -> k t cs = None) ->
  k j cs = Some res ->
  j - x < fuel ->
  RepeatMatcher m [] false k fuel 0 None x cs = Some res.
Proof.
  intros Hm. revert x. induction fuel as [|fuel IH]; intros x Hxj Hj Hnone Hk Hf; [lia|].
  cbn [RepeatMatcher Nat.eqb negb andb clear_groups foldr]. rewrite Hm.
  unfold or_else. destruct (decide (x = j)) as [->|Hne].
  - by rewrite Hk.
  - rewrite Hnone by lia.
    destruct (s !! x) as [c|] eqn:Hc.
    + replace (S x =? x) with false by (symmetry; apply Nat.eqb_neq; lia). simpl.
      apply IH; [lia|done| |done|lia]. intros t Ht. apply Hnone. lia.
    + apply lookup_ge_None in Hc. lia.
Qed.

Lemma any_char_step x cs d :
  rmatch false s (RSet false [CSpace false; CSpace true]) x cs d
  = match s !! x with
    | Some c => d (S x) cs
    | None => None
    end.
Proof.
  cbn [rmatch]. destruct (s !! x) as [c|]; [|done]. by rewrite any_char_mem.
Qed.

Lemma close_tag_step t cs :
  rmatch false s (chars (str "</w:p>") REmpty) t cs (fun j cs' => Some (j, cs'))
  = if same_text true (str "</w:p>") (slice s t (t + 6)) then Some (t + 6, cs) else None.
Proof. rewrite rmatch_chars_text. done. Qed.

Lemma close_tag_none t cs :
  rmatch false s (chars (str "</w:p>") REmpty) t cs (fun j cs' => Some (j, cs')) = None
  <-> ~ closes_at s t.
Proof.
  rewrite close_tag_step. unfold closes_at. split.
  - destruct (same_text _ _ _) eqn:E; [done|]. intros _ H. by rewrite H, same_text_refl in E.
  - intros H. destruct (same_text _ _ _) eqn:E; [|done]. apply same_text_eq in E. by symmetry in E.
Qed.

Lemma open_tag_step i cs k :
  rmatch false s paragraph_re i cs k
  = if same_text true (str "<w:p") (slice s i (i + 4))
    then match s !! (i + 4) with
         | Some c =>
             if set_mem false [CChar " "%char; CChar ">"%char] c
             then RepeatMatcher
                    (fun x cs' d => rmatch false s (RSet false [CSpace false; CSpace true]) x cs' d)
                    [] false (fun j cs' => rmatch false s (chars (str "</w:p>") REmpty) j cs' k)
                    (length s + 2) 0 None (S (i + 4)) cs
             else None
         | None => None
         end
    else None.
Proof.
  unfold paragraph_re. rewrite rmatch_chars_text. change (length (str "<w:p")) with 4.
  change (negb false) with true.
  destruct (same_text _ _ _); [|done]. cbn [rmatch star_of groups xorb Nat.add]. done.
Qed.

Lemma separator_mem c :
  set_mem false [CChar " "%char; CChar ">"%char] c = true <-> c = " "%char \/ c = ">"%char.
Proof.
  unfold set_mem. cbn [existsb item_mem andb]. rewrite !orb_false_r, orb_true_iff.
  rewrite !Ascii.eqb_eq. split; (intros [H|H]; [left|right]; congruence).
Qed.

(** A match of the paragraph pattern is a paragraph span. *)
Lemma paragraph_sound i len caps :
  matcher_of false paragraph_re 0 s i = Some (len, caps) ->
  paragraph_span s i (i + len) /\ 0 < len /\ i + len <= length s.
Proof.
  unfold matcher_of.
  destruct (rmatch _ _ _ _ _ _) as [[e cs]|] eqn:H; [|done].
  intros [= <- <-]. rewrite open_tag_step in H.
  destruct (same_text _ _ _) eqn:Ho; [|done]. apply same_text_eq in Ho.
  destruct (s !! (i + 4)) as [c|] eqn:Hc; [|done].
  destruct (set_mem _ _ c) eqn:Hsep; [|done]. apply separator_mem in Hsep.
  apply star_lazy_sound in H as (j & Hj & Hlen & Hk & Hnone); [|apply any_char_step].
  rewrite close_tag_step in Hk.
  destruct (same_text _ _ (slice s j (j + 6))) eqn:Hcl; [|done].
  apply same_text_eq in Hcl. injection Hk as <- <-.
  assert (He : j + 6 <= length s).
  { apply (slice_full_length s j); [rewrite <- Hcl; simpl; lia|lia]. }
  replace (i + (j + 6 - i)) with (j + 6) by lia.
  split; [|lia]. split.
  { split; [done|]. destruct Hsep as [->| ->]; auto. }
  exists j. split; [lia|]. split; [done|]. split; [done|].
  intros t Ht. apply close_tag_none with (cs := replicate 0 None). apply Hnone. lia.
Qed.

(** The first closing paragraph tag at or after an index. *)
Lemma first_close a j :
  a <= j -> closes_at s j ->
  exists j', a <= j' /\ j' <= j /\ closes_at s j' /\ forall t, a <= t < j' -> ~ closes_at s t.
Proof.
  intros Haj Hj.
  assert (Hdec : forall t, {closes_at s t} + {~ closes_at s t}).
  { intros t. unfold closes_at. apply (decide _). }
  assert (H : forall n, (forall t, a <= t < a + n -> ~ closes_at s t) \/
                        exists j', a <= j' /\ j' < a + n /\ closes_at s j' /\
                                   forall t, a <= t < j' -> ~ closes_at s t).
  { induction n as [|n IH].
    - left. intros t; lia.
    - destruct IH as [IH|IH].
      + destruct (Hdec (a + n)) as [Hc|Hc].
        * right. exists (a + n). split; [lia|]. split; [lia|]. split; [done|].
          intros t Ht. apply IH. lia.
        * left. intros t Ht. destruct (decide (t = a + n)) as [->|]; [done|]. apply IH. lia.
      + right. destruct IH as (j' & ? & ? & ? & ?). exists j'. split; [done|].
        split; [lia|done]. }
  destruct (H (S (j - a))) as [Hn|(j' & H1 & H2 & H3 & H4)].
  - exfalso. apply (Hn j); [lia|done].
  - exists j'. split; [done|]. split; [lia|done].
Qed.

(** The paragraph pattern matches at every opening tag that is closed
    later. *)
Lemma paragraph_complete i :
  closed_later s i -> exists len caps, matcher_of false paragraph_re 0 s i = Some (len, caps).
Proof.
  intros [[Ho Hsep] (j0 & Hj0 & Hc0)].
  destruct (first_close (i + 5) j0 Hj0 Hc0) as (j & Hj & _ & Hc & Hfirst).
  assert (He : j + 6 <= length s).
  { apply (slice_full_length s j); [rewrite Hc; simpl; lia|lia]. }
  unfold matcher_of. rewrite open_tag_step, Ho, same_text_refl.
  assert (Hsep' : exists c, s !! (i + 4) = Some c /\
                            set_mem false [CChar " "%char; CChar ">"%char] c = true).
  { destruct Hsep as [H|H]; eexists; (split; [exact H|]); by apply separator_mem; auto. }
  destruct Hsep' as (c & -> & ->).
  rewrite (star_lazy_complete _ _ _ _ j _ (j + 6, replicate 0 None)).
  - eauto.
  - apply any_char_step.
  - lia.
  - lia.
  - intros t Ht. apply close_tag_none. apply Hfirst. lia.
  - rewrite close_tag_step. unfold closes_at in Hc. by rewrite Hc, same_text_refl.
  - lia.
Qed.

End Paragraphs.

(** A global scan with a matcher that never matches the empty string finds
    the leftmost matches, one after the other. *)
Lemma replace_collect_scan fuel r s :
  (forall i len caps, matcher r s i = Some (len, caps) -> 0 < len /\ i + len <= length s) ->
  S (length s) - lastIndex r < fuel ->
  scan_of (matcher r) s (lastIndex r) (replace_collect fuel r s).
Proof.
  intros Hne. revert r Hne. induction fuel as [|fuel IH]; intros r Hne Hf; [lia|].
  simpl. destruct (exec r s) as [[m|] r'] eqn:He.
  - destruct (exec_some _ _ _ _ He) as (HM & Hlo & Hin & Hend & Hlt & Hmt & Hnone & len & Hlen & Hl & Hm).
    destruct (Hne _ _ _ Hlen) as [Hpos Hb].
    assert (Hmlen : length (m_matched m) = len).
    { rewrite Hm, slice_length_in by done. lia. }
    assert (Hmne : m_matched m <> []).
    { intros E. rewrite E in Hmlen. simpl in Hmlen. lia. }
    assert (Hstep : step_over m r' = r') by (unfold step_over; by destruct (m_matched m)).
    fold (step_over m r'). rewrite Hstep.
    cbn [scan_of]. split; [done|]. split; [done|].
    split; [exists len; split; [done|unfold m_end; lia]|].
    assert (Hr' : lastIndex r' = m_end m) by (unfold m_end; lia).
    rewrite <- Hr', <- HM. apply IH; [by rewrite HM|].
    specialize (Hlt Hmne). lia.
  - destruct (exec_none _ _ _ He) as [_ Hnone]. exact Hnone.
Qed.

Lemma paragraph_scan_of s lo ms :
  scan_of paragraphRegex s lo ms -> paragraph_scan s lo ms.
Proof.
  revert lo. induction ms as [|m rest IH]; intros lo; cbn [scan_of paragraph_scan].
  - intros Hnone i Hi Hcl.
    destruct (paragraph_complete s i Hcl) as (len & caps & HM).
    destruct (paragraph_sound s i len caps HM) as (_ & _ & Hb).
    rewrite paragraphRegex_matcher in Hnone. rewrite Hnone in HM; [done|lia].
  - intros (Hlo & Hnone & (len & HM & Hend) & Hrest).
    split; [done|]. split.
    { intros i Hi Hcl.
      destruct (paragraph_complete s i Hcl) as (len' & caps & HM').
      rewrite paragraphRegex_matcher in Hnone. rewrite Hnone in HM'; [done|lia]. }
    split; [|by apply IH].
    rewrite paragraphRegex_matcher in HM.
    destruct (paragraph_sound s _ _ _ HM) as (Hspan & _). by rewrite Hend.
Qed.

(** The matches of the paragraph pattern are the paragraphs of the
    document. *)
Lemma paragraphs_scanned xml : paragraph_scan xml 0 (matchAll paragraphRegex xml).
Proof.
  apply paragraph_scan_of.
  apply (replace_collect_scan (length xml + 2) {| matcher := paragraphRegex; lastIndex := 0 |}).
  - intros i len caps HM. cbn [matcher] in HM. rewrite paragraphRegex_matcher in HM.
    destruct (paragraph_sound xml i len caps HM) as (_ & ? & ?). done.
  - simpl. lia.
Qed.

(** C10 as stated fails where a paragraph is written as an empty-element
    tag with an attribute: the pattern of [replaceInXml] reads that tag as
    an opening tag and runs on to the closing tag of the next paragraph, so
    the text tag that stands between the two, outside any paragraph, is
    part of the match and receives the replaced text of the whole match. *)
Lemma text_tag_after_empty_paragraph_is_rewritten :
  map (fun m => (m_index m, m_end m)) (matchAll paragraphRegex stray_after_empty)
  = [(8, 72)] /\
  slice stray_after_empty 8 26 = empty_paragraph_tag /\
  slice stray_after_empty 26 38 = str "<w:t>a</w:t>" /\
  slice stray_after_empty 38 72 = str one_paragraph /\
  @replaceInXml FragmentEngine stray_after_empty (str "a") (str "b") defaultOptions
  = Ok (str "<w:body>" ++ empty_paragraph_tag
          ++ str "<w:t" ++ preserve_attr ++ str ">bb</w:t>"
          ++ str "<w:p><w:r><w:t></w:t></w:r></w:p>" ++ str "</w:body>").
Proof. repeat split; by vm_compute. Qed.

(** C10, amended.  For every engine, payload, pattern, replacement and
    options: the payload is its gaps interleaved with the paragraph spans,
    and the paragraph spans are fixed by the tags of the payload alone:
    read left to right, each runs from the first opening paragraph tag (the
    name followed by a space or a closing bracket, which is also how an
    empty-element tag with attributes starts) that has a closing paragraph
    tag after it, to the end of the first closing paragraph tag after that
    opening tag; whatever follows that closing tag is outside the span.
    [replaceInXml] throws when the pattern does not compile, returns the
    payload for an empty pattern, and otherwise returns the same gaps
    interleaved with the results of [replaceInParagraph] on the spans:
    everything outside the paragraph spans is unchanged.  In the first
    example the text tag in front of the paragraph keeps its a while the
    one inside becomes b; in the second the text tags between the two
    paragraphs and after them keep their a. *)
Theorem replaceInXml_frame :
  (forall (E : RegExpEngine) (xml pattern replacement : jsstring) (options : Options),
     let paragraphs := matchAll paragraphRegex xml in
     xml = interleave (gaps xml 0 (spans_of paragraphs)) (map m_matched paragraphs) /\
     paragraph_scan xml 0 paragraphs /\
     Forall (fun m => m_matched m = slice xml (m_index m) (m_end m)) paragraphs /\
     Forall (fun m => exists sep body,
               m_matched m = str "<w:p" ++ [sep] ++ body ++ str "</w:p>" /\
               (sep = " "%char \/ sep = ">"%char)) paragraphs /\
     match buildRegex pattern options with
     | Throw e => replaceInXml xml pattern replacement options = Throw e
     | Ok None => replaceInXml xml pattern replacement options = Ok xml
     | Ok (Some regex) =>
         replaceInXml xml pattern replacement options
         = Ok (interleave (gaps xml 0 (spans_of paragraphs))
                 (map (fun m => replaceInParagraph (m_matched m) regex replacement)
                      paragraphs))
     end) /\
  @replaceInXml FragmentEngine framed_document (str "a") (str "b") defaultOptions
  = Ok (str "<w:body><w:t>a</w:t><w:p><w:r><w:t" ++ preserve_attr
          ++ str ">b</w:t></w:r></w:p><w:sectPr/></w:body>") /\
  map (fun m => (m_index m, m_end m)) (matchAll paragraphRegex two_paragraphs)
  = [(8, 42); (54, 88)] /\
  @replaceInXml FragmentEngine two_paragraphs (str "a") (str "b") defaultOptions
  = Ok (str "<w:body><w:p><w:r><w:t" ++ preserve_attr
          ++ str ">b</w:t></w:r></w:p><w:t>a</w:t><w:p><w:r><w:t" ++ preserve_attr
          ++ str ">b</w:t></w:r></w:p><w:t>a</w:t></w:body>").
Proof.
  split; [|repeat split; by vm_compute].
  intros E xml pattern replacement options paragraphs.
  split.
  { pose proof (splice_id xml 0 paragraphs (matchAll_chain _ _)) as H.
    rewrite drop_0 in H. rewrite <- H at 1.
    rewrite splice_interleave, spans_of_span_with. by rewrite map_map. }
  split; [apply paragraphs_scanned|].
  split.
  { pose proof (matchAll_chain paragraphRegex xml) as Hc. fold paragraphs in Hc.
    clearbody paragraphs. revert Hc. generalize 0.
    induction paragraphs as [|m rest IH]; intros lo; [constructor|].
    cbn [chain]. intros (_ & _ & Hm & Hrest). constructor; [done|]. by eapply IH. }
  split; [apply paragraphs_wellformed|].
  unfold replaceInXml. destruct (buildRegex pattern options) as [[regex|]|e]; simpl; try done.
  rewrite String_replace_fn_splice, splice_interleave, spans_of_span_with.
  by rewrite map_map.
Qed.

(* ===================================================================== *)
(** ** Literal patterns *)
(* ===================================================================== *)

Section LiteralPatterns.
Import PatternEngine.

Lemma splice_skip s i c items bound :
  s !! i = Some c -> sorted_spans (S i) items bound ->
  splice s i items = c :: splice s (S i) items.
Proof.
  intros Hc. destruct items as [|[[a b] t] rest]; simpl.
  - intros _. by rewrite (drop_S _ _ _ Hc).
  - intros (Ha & _). by rewrite (slice_cons _ _ _ _ Hc) by lia.
Qed.

Lemma chain_sorted_map s lo ms f :
  lo <= length s -> chain s lo ms -> sorted_spans lo (map (span_with f) ms) (length s).
Proof.
  revert lo. induction ms as [|m rest IH]; intros lo Hlo; simpl; [done|].
  intros (Hi & Hin & _ & Hrest). split; [done|]. split; [unfold m_end; lia|].
  apply IH; [done|]. eapply chain_weaken; [|done].
  unfold next_index. destruct (m_matched m); lia.
Qed.

Lemma single_char_replace (M : Matcher) (p : ascii -> bool) (F : ascii -> jsstring) s f :
  (forall i, M s i = match s !! i with
                     | Some c => if p c then Some (1, []) else None
                     | None => None
                     end) ->
  (forall i c caps, s !! i = Some c ->
     f {| m_index := i; m_matched := [c]; m_captures := caps |} = F c) ->
  String_replace_fn M s f
  = flat_map (fun c => if p c then F c else [c]) s.
Proof.
  intros HM Hf. rewrite String_replace_fn_splice. unfold matchAll.
  assert (H : forall suf i fuel,
    drop i s = suf -> i <= length s -> S (length s) - i < fuel ->
    splice s i (map (span_with f)
      (replace_collect fuel {| matcher := M; lastIndex := i |} s))
    = flat_map (fun c => if p c then F c else [c]) suf).
  { induction suf as [|c suf IH]; intros i fuel Hd Hi Hfuel.
    - assert (i = length s).
      { apply (f_equal length) in Hd. rewrite length_drop in Hd. simpl in Hd. lia. }
      subst i. destruct fuel as [|fuel]; [lia|]. simpl.
      pose proof (exec_end M (length s) s) as He.
      destruct (exec _ s) as [[m|] r'].
      + simpl in He. discriminate He. intros j Hj. rewrite HM.
        by rewrite lookup_ge_None_2.
      + simpl. by rewrite drop_all.
    - assert (Hc : s !! i = Some c).
      { rewrite <- (Nat.add_0_r i), <- lookup_drop, Hd. done. }
      assert (Hd' : drop (S i) s = suf).
      { rewrite (drop_S _ _ _ Hc) in Hd. by simplify_eq Hd. }
      apply lookup_lt_Some in Hc as Hlt.
      simpl. destruct (p c) eqn:Hp.
      + destruct fuel as [|fuel]; [lia|]. simpl.
        rewrite (exec_hit _ _ _ 1 []) by (try lia; by rewrite HM, Hc, Hp).
        rewrite (slice_cons _ _ _ _ Hc) by lia. rewrite slice_nil by lia.
        simpl. rewrite slice_nil by lia. simpl.
        rewrite (Hf _ _ _ Hc). f_equal.
        unfold m_end. simpl. replace (i + 1) with (S i) by lia.
        apply IH; [done|lia|lia].
      + rewrite replace_collect_skip by (try lia; by rewrite HM, Hc, Hp).
        rewrite (splice_skip _ _ c _ (length s) Hc).
        * f_equal. apply IH; [done|lia|lia].
        * apply chain_sorted_map; [lia|].
          apply (replace_collect_chain fuel
                   {| matcher := M; lastIndex := S i |} s). }
  apply H; [by rewrite drop_0|lia|lia].
Qed.

Lemma special_set_mem c :
  PatternEngine.set_mem false
    (map PatternEngine.CChar special_chars) c = is_special c.
Proof.
  unfold PatternEngine.set_mem, is_special. cbn [andb].
  induction special_chars as [|a l IH]; [done|].
  cbn [map existsb PatternEngine.item_mem]. rewrite orb_false_r, IH.
  by rewrite Ascii.eqb_sym.
Qed.

Lemma escape_matcher s i :
  regex_literal "[.*+?^${}()|[\]\\]" s i
  = match s !! i with
    | Some c => if is_special c then Some (1, []) else None
    | None => None
    end.
Proof.
  change (regex_literal "[.*+?^${}()|[\]\\]")
    with (PatternEngine.matcher_of false
            (PatternEngine.RSeq
               (PatternEngine.RSet false (map PatternEngine.CChar special_chars))
               PatternEngine.REmpty) 0).
  unfold PatternEngine.matcher_of. cbn [PatternEngine.rmatch].
  destruct (s !! i) as [c|]; [|done].
  cbn [xorb]. rewrite special_set_mem. destruct (is_special c); [|done].
  cbn [replicate PatternEngine.capture_strings map]. f_equal. f_equal. lia.
Qed.

Lemma escapeRegexChars_spec s : escapeRegexChars s = flat_map escape_char s.
Proof.
  unfold escapeRegexChars, String_replace.
  rewrite (single_char_replace _ is_special (fun c => ["\"%char; c])).
  - done.
  - apply escape_matcher.
  - intros i c caps _. reflexivity.
Qed.

Ltac each_char c :=
  destruct c as [[] [] [] [] [] [] [] []].

Lemma lex_special c rest :
  is_special c = true ->
  lex 0 ("\"%char :: c :: rest) = cons_token (TChar c) (lex 0 rest).
Proof. each_char c; intros H; try discriminate H; reflexivity. Qed.

Lemma lex_plain c rest :
  is_special c = false ->
  lex 0 (c :: rest) = cons_token (TChar c) (lex 0 rest).
Proof. each_char c; intros H; try discriminate H; reflexivity. Qed.

Lemma lex_escaped p tail :
  lex 0 (flat_map escape_char p ++ tail)
  = match lex 0 tail with
    | Some ts => Some (map TChar p ++ ts)
    | None => None
    end.
Proof.
  induction p as [|c p IH].
  - simpl. by destruct (lex 0 tail).
  - cbn [flat_map map]. rewrite <- app_assoc. unfold escape_char at 1.
    destruct (is_special c) eqn:E; cbn [app].
    + rewrite (lex_special _ _ E), IH. by destruct (lex 0 tail).
    + rewrite (lex_plain _ _ E), IH. by destruct (lex 0 tail).
Qed.

Lemma pAlternative_char fuel c ts g :
  pAlternative (S (S fuel)) (TChar c :: ts) g
  = match pAlternative (S fuel) (snd (quantified (RChar c) ts)) g with
    | Some (r0, ts2, g2) => Some (RSeq (fst (quantified (RChar c) ts)) r0, ts2, g2)
    | None => None
    end.
Proof.
  change (pAlternative (S (S fuel)) (TChar c :: ts) g)
    with (pTerm (S fuel) (TChar c :: ts) g
          ≫= λ '(t0, ts1, g1),
               pAlternative (S fuel) ts1 g1
               ≫= λ '(r0, ts2, g2), Some (RSeq t0 r0, ts2, g2)).
  cbn [pTerm]. destruct (quantified (RChar c) ts) as [r ts']. cbn [mbind option_bind fst snd].
  destruct (pAlternative (S fuel) ts' g) as [[[r0 ts2] g2]|]; done.
Qed.

Lemma pAlternative_wordb fuel neg ts g :
  pAlternative (S (S fuel)) (TWordB neg :: ts) g
  = match pAlternative (S fuel) ts g with
    | Some (r0, ts2, g2) => Some (RSeq (RWordB neg) r0, ts2, g2)
    | None => None
    end.
Proof.
  change (pAlternative (S (S fuel)) (TWordB neg :: ts) g)
    with (pTerm (S fuel) (TWordB neg :: ts) g
          ≫= λ '(t0, ts1, g1),
               pAlternative (S fuel) ts1 g1
               ≫= λ '(r0, ts2, g2), Some (RSeq t0 r0, ts2, g2)).
  cbn [pTerm mbind option_bind].
  destruct (pAlternative (S fuel) ts g) as [[[r0 ts2] g2]|]; done.
Qed.

(** A sequence of character tokens parses to the sequence of its
    characters, followed by what the rest parses to. *)
Lemma pAlternative_chars p fuel tail g r rest g' :
  pAlternative (S fuel) tail g = Some (r, rest, g') ->
  match tail with TQuant _ _ _ :: _ => False | _ => True end ->
  pAlternative (S fuel + length p) (map TChar p ++ tail) g = Some (chars p r, rest, g').
Proof.
  intros Htail Hq. induction p as [|c p IH].
  - cbn [length map app]. by rewrite Nat.add_0_r.
  - cbn [length map app chars foldr].
    replace (S fuel + S (length p)) with (S (S (fuel + length p))) by lia.
    assert (Hquant : quantified (RChar c) (map TChar p ++ tail)
                     = (RChar c, map TChar p ++ tail)).
    { destruct p; simpl; [|done]. by destruct tail as [|[] ?]. }
    rewrite pAlternative_char, Hquant. cbn [fst snd].
    change (S (fuel + length p)) with (S fuel + length p). rewrite IH. done.
Qed.

Lemma parse_literal p :
  parse (map TChar p) = Some (chars p REmpty, 0).
Proof.
  unfold parse. rewrite length_map.
  replace (3 * length p + 3) with (S (S (2 * length p + 1) + length p)) by lia.
  cbn [pDisjunction].
  rewrite <- (app_nil_r (map TChar p)) at 1.
  rewrite (pAlternative_chars p _ [] 0 REmpty [] 0); done.
Qed.

Lemma parse_whole_word p :
  parse (TWordB false :: map TChar p ++ [TWordB false])
  = Some (RSeq (RWordB false) (chars p (RSeq (RWordB false) REmpty)), 0).
Proof.
  unfold parse. cbn [length]. rewrite length_app, length_map. cbn [length].
  replace (3 * S (length p + 1) + 3)
    with (S (S (S (S (S (2 * length p + 4)) + length p)))) by lia.
  cbn [pDisjunction]. rewrite pAlternative_wordb.
  change (S (S (S (2 * length p + 4)) + length p))
    with (S (S (S (2 * length p + 4))) + length p).
  rewrite (pAlternative_chars p _ [TWordB false] 0 (RSeq (RWordB false) REmpty) [] 0); done.
Qed.

(** The matcher of a literal pattern: it matches exactly where the pattern
    occurs, with the length of the pattern. *)
Lemma literal_matcher (cs ww : bool) (p : jsstring) s i :
  matcher_of (negb cs)
    (if ww then RSeq (RWordB false) (chars p (RSeq (RWordB false) REmpty))
     else chars p REmpty) 0 s i
  = if occurs_at cs ww p s i then Some (length p, []) else None.
Proof.
  unfold matcher_of, occurs_at. destruct ww.
  - cbn [rmatch negb orb xorb]. fold (word_boundary s i).
    destruct (word_boundary s i) eqn:Hb1.
    + rewrite rmatch_chars_text, negb_involutive.
      destruct (same_text _ _ _); [|done]. cbn [rmatch andb xorb].
      fold (word_boundary s (i + length p)).
      destruct (word_boundary s (i + length p)); [|done].
      cbn. do 2 f_equal. lia.
    + by rewrite andb_false_r.
  - rewrite rmatch_chars_text, negb_involutive. cbn [negb orb].
    rewrite andb_true_r. destruct (same_text _ _ _); [|done].
    cbn. do 2 f_equal. lia.
Qed.

Lemma literal_compile (cs ww : bool) (p : jsstring) :
  compile (if ww then str "\b" ++ escapeRegexChars p ++ str "\b" else escapeRegexChars p)
          (negb cs)
  = Some (matcher_of (negb cs)
            (if ww then RSeq (RWordB false) (chars p (RSeq (RWordB false) REmpty))
             else chars p REmpty) 0).
Proof.
  unfold compile. rewrite escapeRegexChars_spec. destruct ww.
  - change (lex 0 (str "\b" ++ flat_map escape_char p ++ str "\b"))
      with (cons_token (TWordB false) (lex 0 (flat_map escape_char p ++ str "\b"))).
    rewrite lex_escaped.
    change (lex 0 (str "\b")) with (Some [TWordB false]).
    cbn [cons_token mbind option_bind]. by rewrite parse_whole_word.
  - rewrite <- (app_nil_r (flat_map escape_char p)), lex_escaped.
    cbn [lex]. rewrite app_nil_r. by rewrite parse_literal.
Qed.

Lemma same_text_length cs p t : same_text cs p t = true -> length p = length t.
Proof.
  revert t. induction p as [|a p IH]; intros [|b t]; simpl; try done.
  intros [_ H]%andb_true_iff. by rewrite (IH _ H).
Qed.

Lemma occurs_at_bound cs ww (p : jsstring) t i :
  p <> [] -> occurs_at cs ww p t i = true -> i + length p <= length t.
Proof.
  intros Hp [H _]%andb_true_iff. apply same_text_length in H.
  apply (slice_full_length t i); [|destruct p; [done|simpl; lia]]. rewrite <- H. lia.
Qed.

(** A global scan with the matcher of a literal pattern finds the
    occurrences of the pattern. *)
Lemma literal_scan (M : Matcher) cs ww (p : jsstring) t :
  p <> [] ->
  (forall i, M t i = if occurs_at cs ww p t i then Some (length p, []) else None) ->
  forall f i fuel,
    S (length t) - i <= f -> S (length t) - i < fuel ->
    map position_of (replace_collect fuel {| matcher := M; lastIndex := i |} t)
    = map (occurrence_span p t) (occurrences_from cs ww p t f i).
Proof.
  intros Hp HM.
  assert (Hlen : 0 < length p) by (destruct p; [done|simpl; lia]).
  induction f as [|f IH]; intros i fuel Hf Hfuel.
  - destruct fuel as [|fuel]; [lia|]. simpl.
    unfold exec. simpl. replace (S (length t) - i) with 0 by lia. done.
  - cbn [occurrences_from]. destruct fuel as [|fuel]; [lia|].
    destruct (length t <? i + length p) eqn:Hend.
    + apply Nat.ltb_lt in Hend. cbn [replace_collect].
      pose proof (exec_end M i t) as He.
      destruct (exec _ t) as [[m|] r'] eqn:Hx; [|done].
      simpl in He. discriminate He. intros j Hj. rewrite HM.
      destruct (occurs_at cs ww p t j) eqn:Ho; [|done].
      apply occurs_at_bound in Ho; [lia|done].
    + apply Nat.ltb_ge in Hend.
      destruct (occurs_at cs ww p t i) eqn:Ho.
      * cbn [replace_collect].
        rewrite (exec_hit M i t (length p) []) by (try lia; by rewrite HM, Ho).
        assert (Hm : slice t i (i + length p) <> []).
        { intros E. apply (f_equal length) in E. rewrite slice_length_in in E by done.
          simpl in E. lia. }
        destruct (slice t i (i + length p)) as [|c0 sl] eqn:Hsl; [done|].
        cbn [m_matched map]. f_equal.
        -- unfold position_of, occurrence_span, m_end. cbn [m_index m_matched].
           rewrite Hsl. f_equal. rewrite <- Hsl, slice_length_in by done. lia.
        -- apply IH; lia.
      * rewrite replace_collect_skip by (try lia; by rewrite HM, Ho).
        apply IH; lia.
Qed.

Lemma buildRegex_literal (cs ww : bool) c (rest : jsstring) :
  @buildRegex FragmentEngine (c :: rest) (literalOptions cs ww)
  = Ok (Some {| matcher :=
                  matcher_of (negb cs)
                    (if ww then RSeq (RWordB false)
                                  (chars (c :: rest) (RSeq (RWordB false) REmpty))
                     else chars (c :: rest) REmpty) 0;
                lastIndex := 0 |}).
Proof.
  rewrite buildRegex_spec. cbn [literalOptions isRegex isWholeWord isCaseSensitive].
  cbn [compile_pattern FragmentEngine]. by rewrite literal_compile.
Qed.

(** The whole-word example of the specification: with the whole-word
    option the matcher of a literal pattern matches only the occurrences
    between word boundaries, so for the pattern cat in the text
    concatenate cat the count is 1, while without the option the text
    holds 2 occurrences of cat. *)
Lemma whole_word_count_differs :
  @findMatches FragmentEngine (str "concatenate cat") (str "cat") (literalOptions false true)
  = Ok {| count := 1;
          positions := [ {| pos_start := 12; pos_end := 15; pos_match := str "cat" |} ] |} /\
  occurrences false false (str "cat") (str "concatenate cat") = [3; 12] /\
  length (occurrences false false (str "cat") (str "concatenate cat")) = 2.
Proof. repeat split; by vm_compute. Qed.

(** C8. Literal-mode escaping.  For every non-empty find string, text,
    case option and whole-word option, with regex mode off (texts are
    strings of 8-bit code units): [escapeRegexChars] writes a
    backslash before each of the characters . * + ? ^ $ { } ( ) | [ ] \
    and copies every other character, and [findMatches] with the engine of
    the fragment reports exactly the non-overlapping left-to-right
    occurrences of the find string in the text under the case rule, each
    with the span and the text of the occurrence; with the whole-word
    option these are the occurrences between two word boundaries.  Without
    that option the count is the number of occurrences of the find
    string. *)
Theorem literal_patterns_match_literally :
  forall (c : ascii) (rest text : jsstring) (caseSensitive wholeWord : bool),
    let pattern := c :: rest in
    escapeRegexChars pattern = flat_map escape_char pattern /\
    @findMatches FragmentEngine text pattern (literalOptions caseSensitive wholeWord)
    = Ok {| count := length (occurrences caseSensitive wholeWord pattern text);
            positions := map (occurrence_span pattern text)
                             (occurrences caseSensitive wholeWord pattern text) |}.
Proof.
  intros c rest text cs ww pattern. split; [apply escapeRegexChars_spec|].
  rewrite (findMatches_matchAll _ _ _ _ (buildRegex_literal cs ww c rest)).
  cbn [matcher]. unfold matchAll, occurrences.
  rewrite (literal_scan _ cs ww pattern text) with (f := length text + 1);
    [|done|apply literal_matcher|lia|lia].
  f_equal. f_equal. rewrite <- (length_map position_of).
  rewrite (literal_scan _ cs ww pattern text) with (f := length text + 1);
    [|done|apply literal_matcher|lia|lia].
  by rewrite length_map.
Qed.

End LiteralPatterns.

(* ===================================================================== *)
(** ** The text of a document *)
(* ===================================================================== *)

Section ExtractText.
Import PatternEngine.

Lemma textMatch_compile :
  compile (str "<w:t[^>]*>([^<]*)<\/w:t>") false = Some (matcher_of false textMatch_re 1).
Proof. reflexivity. Qed.

Lemma openTag_compile :
  compile (str "<w:t[^>]*>") false = Some (matcher_of false openTag_re 0).
Proof. reflexivity. Qed.

Lemma closeTag_compile :
  compile (str "<\/w:t>") false = Some (matcher_of false (chars (str "</w:t>") REmpty) 0).
Proof. reflexivity. Qed.

Lemma set_not_char (c x : ascii) :
  xorb true (set_mem false [CChar c] x) = true <-> x <> c.
Proof.
  unfold set_mem. cbn [existsb item_mem andb]. rewrite !orb_false_r.
  destruct (Ascii.eqb c x) eqn:E; simpl.
  - apply Ascii.eqb_eq in E. split; [done|congruence].
  - apply Ascii.eqb_neq in E. split; [congruence|done].
Qed.

Lemma textMatch_sound s i len caps :
  matcher_of false textMatch_re 1 s i = Some (len, caps) ->
  exists a t, caps = [Some t] /\ tag_at (drop i s) a t /\ len = length (render a t).
Proof.
  unfold matcher_of.
  destruct (rmatch _ _ _ _ _ _) as [[e cs]|] eqn:H; [|done].
  intros [= <- <-]. unfold textMatch_re in H.
  apply rmatch_chars in H as [H1 H].
  apply rmatch_star in H as (j1 & Hj1 & Hb1 & Hall1 & H).
  apply rmatch_chars in H as [H2 H].
  apply rmatch_group_star in H as (j2 & Hj2 & Hb2 & Hall2 & H).
  apply rmatch_chars in H as [H3 H]. simpl in H. simplify_eq H; intros <- <-.
  change (length (str "<w:t")) with 4 in *. change (length (str ">")) with 1 in *.
  change (length (str "</w:t>")) with 6 in *.
  assert (He : j2 + 6 <= length s).
  { apply (slice_full_length s j2); [rewrite H3; simpl; lia|lia]. }
  exists (slice s (i + 4) j1), (slice s (j1 + 1) j2).
  split; [done|].
  assert (Hs : slice s i (j2 + 6)
               = render (slice s (i + 4) j1) (slice s (j1 + 1) j2)).
  { unfold render.
    rewrite (slice_split s i (i + 4) (j2 + 6)) by lia. rewrite H1. f_equal.
    rewrite (slice_split s (i + 4) j1 (j2 + 6)) by lia. f_equal.
    rewrite (slice_split s j1 (j1 + 1) (j2 + 6)) by lia. rewrite H2. f_equal.
    rewrite (slice_split s (j1 + 1) j2 (j2 + 6)) by lia. by rewrite H3. }
  split; [split; [split|]|].
  - eapply Forall_impl; [exact Hall1|]. intros c Hc. by apply set_not_char.
  - eapply Forall_impl; [exact Hall2|]. intros c Hc. by apply set_not_char.
  - exists (drop (j2 + 6) s). rewrite <- Hs. symmetry. apply slice_app_drop. lia.
  - rewrite <- Hs. rewrite slice_length_in by done. done.
Qed.

Lemma textMatch_complete s i a t post :
  tag_ok a t ->
  drop i s = render a t ++ post ->
  matcher_of false textMatch_re 1 s i = Some (length (render a t), [Some t]).
Proof.
  intros [Ha Ht] Hd. unfold render in Hd. rewrite <- !app_assoc in Hd.
  set (j1 := i + 4 + length a). set (j2 := j1 + 1 + length t).
  assert (H1 : slice s i (i + 4) = str "<w:t").
  { apply (slice_of_drop s [] _ (a ++ str ">" ++ t ++ str "</w:t>" ++ post) i);
      [done|simpl; lia|simpl; lia]. }
  assert (H2 : slice s (i + 4) j1 = a).
  { apply (slice_of_drop s (str "<w:t") _ (str ">" ++ t ++ str "</w:t>" ++ post) i);
      [done|simpl; lia|unfold j1; lia]. }
  assert (H3 : s !! j1 = Some ">"%char).
  { apply (lookup_of_drop s (str "<w:t" ++ a) (t ++ str "</w:t>" ++ post) _ i).
    - by rewrite <- app_assoc.
    - rewrite length_app. simpl. unfold j1. lia. }
  assert (H4 : slice s (j1 + 1) j2 = t).
  { apply (slice_of_drop s (str "<w:t" ++ a ++ str ">") _ (str "</w:t>" ++ post) i).
    - by rewrite <- !app_assoc.
    - rewrite !length_app. simpl. unfold j1. lia.
    - unfold j2. lia. }
  assert (H5 : slice s j2 (j2 + 6) = str "</w:t>").
  { apply (slice_of_drop s (str "<w:t" ++ a ++ str ">" ++ t) _ post i).
    - by rewrite <- !app_assoc.
    - rewrite !length_app. simpl. unfold j2, j1. lia.
    - simpl. lia. }
  assert (H6 : s !! j2 = Some "<"%char).
  { apply (lookup_of_drop s (str "<w:t" ++ a ++ str ">" ++ t) (str "/w:t>" ++ post) _ i).
    - by rewrite <- !app_assoc.
    - rewrite !length_app. simpl. unfold j2, j1. lia. }
  assert (Hlen : i + (11 + length a + length t) <= length s).
  { apply (f_equal length) in Hd. rewrite length_drop, !length_app in Hd.
    simpl in Hd. lia. }
  assert (Hr : rmatch false s textMatch_re i [None] (fun j cs => Some (j, cs))
               = Some (j2 + 6, [Some (j1 + 1, j2)])).
  { unfold textMatch_re. rewrite rmatch_chars_text.
    change (length (str "<w:t")) with 4. rewrite H1, same_text_refl.
    cbn [rmatch star_of groups app].
    apply (star_greedy s (fun c => xorb true (set_mem false [CChar ">"%char] c)))
      with (j := j1); [done|unfold j1; lia| | | | |unfold j1; lia].
    - rewrite H2. eapply Forall_impl; [exact Ha|]. intros c Hc. by apply set_not_char.
    - rewrite H2. unfold j1. lia.
    - rewrite H3. by vm_compute.
    - rewrite rmatch_chars_text. change (length (str ">")) with 1.
      rewrite (slice_cons _ _ _ _ H3) by lia. rewrite slice_nil by lia.
      rewrite same_text_refl.
      cbn [rmatch star_of groups app].
      apply (star_greedy s (fun c => xorb true (set_mem false [CChar "<"%char] c)))
        with (j := j2); [done|unfold j2; lia| | | | |unfold j2, j1; lia].
      + rewrite H4. eapply Forall_impl; [exact Ht|]. intros c Hc. by apply set_not_char.
      + rewrite H4. unfold j2. lia.
      + rewrite H6. by vm_compute.
      + rewrite rmatch_chars_text. change (length (str "</w:t>")) with 6.
        rewrite H5, same_text_refl. reflexivity. }
  unfold matcher_of. change (replicate 1 None) with [@None (nat * nat)].
  rewrite Hr. cbn [capture_strings map]. rewrite H4.
  f_equal. f_equal. rewrite render_length. unfold j2, j1. lia.
Qed.

Lemma openTag_complete s a t post :
  Forall (fun c => c <> ">"%char) a ->
  s = render a t ++ post ->
  matcher_of false openTag_re 0 s 0 = Some (5 + length a, []).
Proof.
  intros Ha Hs.
  assert (Hd : drop 0 s = str "<w:t" ++ a ++ str ">" ++ t ++ str "</w:t>" ++ post).
  { rewrite Hs. unfold render. by rewrite <- !app_assoc. }
  clear Hs.
  set (j1 := 4 + length a).
  assert (H1 : slice s 0 4 = str "<w:t").
  { apply (slice_of_drop s [] _ (a ++ str ">" ++ t ++ str "</w:t>" ++ post) 0);
      [done|simpl; lia|simpl; lia]. }
  assert (H2 : slice s 4 j1 = a).
  { apply (slice_of_drop s (str "<w:t") _ (str ">" ++ t ++ str "</w:t>" ++ post) 0);
      [done|simpl; lia|unfold j1; lia]. }
  assert (H3 : s !! j1 = Some ">"%char).
  { apply (lookup_of_drop s (str "<w:t" ++ a) (t ++ str "</w:t>" ++ post) _ 0).
    - by rewrite <- app_assoc.
    - rewrite length_app. simpl. unfold j1. lia. }
  assert (Hlen : 11 + length a + length t <= length s).
  { apply (f_equal length) in Hd. rewrite length_drop, !length_app in Hd.
    simpl in Hd. lia. }
  assert (Hr : rmatch false s openTag_re 0 [] (fun j cs => Some (j, cs))
               = Some (j1 + 1, [])).
  { unfold openTag_re. rewrite rmatch_chars_text.
    change (length (str "<w:t")) with 4. cbn [Nat.add]. rewrite H1, same_text_refl.
    cbn [rmatch star_of groups app].
    apply (star_greedy s (fun c => xorb true (set_mem false [CChar ">"%char] c)))
      with (j := j1); [done|unfold j1; lia| | | | |unfold j1; lia].
    - rewrite H2. eapply Forall_impl; [exact Ha|]. intros c Hc. by apply set_not_char.
    - rewrite H2. unfold j1. lia.
    - rewrite H3. by vm_compute.
    - rewrite rmatch_chars_text. change (length (str ">")) with 1.
      rewrite (slice_cons _ _ _ _ H3) by lia. rewrite slice_nil by lia.
      rewrite same_text_refl. reflexivity. }
  unfold matcher_of. change (replicate 0 None) with (@nil (option (nat * nat))).
  rewrite Hr. cbn [capture_strings map]. do 2 f_equal. unfold j1. lia.
Qed.

End ExtractText.

(** Two matchers that match at the same indices with the same lengths find
    the same spans; the captures go along. *)
Lemma exec_scan_ext (M1 M2 : Matcher) (g : list (option jsstring) -> list (option jsstring))
    s n i :
  (forall i, M1 s i = (fun '(len, caps) => (len, g caps)) <$> M2 s i) ->
  exec_scan M1 s n i
  = (fun '(m, e) => ({| m_index := m_index m; m_matched := m_matched m;
                        m_captures := g (m_captures m) |}, e)) <$> exec_scan M2 s n i.
Proof.
  intros HM. revert i. induction n as [|n IH]; intros i; [done|]. simpl.
  rewrite HM. destruct (M2 s i) as [[len caps]|]; simpl; [done|]. apply IH.
Qed.

Lemma replace_collect_ext (M1 M2 : Matcher)
    (g : list (option jsstring) -> list (option jsstring)) s fuel li :
  (forall i, M1 s i = (fun '(len, caps) => (len, g caps)) <$> M2 s i) ->
  replace_collect fuel {| matcher := M1; lastIndex := li |} s
  = map (fun m => {| m_index := m_index m; m_matched := m_matched m;
                     m_captures := g (m_captures m) |})
        (replace_collect fuel {| matcher := M2; lastIndex := li |} s).
Proof.
  intros HM. revert li. induction fuel as [|fuel IH]; intros li; [done|].
  cbn [replace_collect]. unfold exec. cbn [matcher lastIndex].
  rewrite (exec_scan_ext M1 M2 g) by done.
  destruct (exec_scan M2 s _ _) as [[m e]|]; [|done].
  cbn [fmap option_map option_fmap m_matched map set_lastIndex matcher lastIndex].
  destruct (m_matched m); cbn [map]; f_equal; apply IH.
Qed.

Lemma textMatch_matcher s i :
  regex_literal "<w:t[^>]*>([^<]*)<\/w:t>" s i
  = (fun '(len, caps) => (len, drop 1 caps)) <$> matcher textTagRegex s i.
Proof.
  change (regex_literal "<w:t[^>]*>([^<]*)<\/w:t>")
    with (PatternEngine.matcher_of false textMatch_re 1).
  destruct (matcher textTagRegex s i) as [[len caps]|] eqn:E2.
  - rewrite textTagRegex_matcher in E2.
    destruct (textTag_match _ _ _ _ E2) as (a & t & -> & Hs & Hlen & Hb & Ha & Ht).
    fold (render a t) in Hs, Hlen.
    rewrite (textMatch_complete s i a t (drop (i + len) s)); [by rewrite Hlen| done |].
    rewrite <- Hs. symmetry. apply slice_app_drop. lia.
  - destruct (PatternEngine.matcher_of false textMatch_re 1 s i) as [[len caps]|] eqn:E1;
      [|done].
    destruct (textMatch_sound _ _ _ _ E1) as (a & t & _ & Hat & _).
    apply textTag_some in Hat. congruence.
Qed.

(** The matches [extractTextFromXml] reads are the text tags
    [replaceInParagraph] reads. *)
Lemma textMatches_segments xml :
  map m_matched (matchAll (regex_literal "<w:t[^>]*>([^<]*)<\/w:t>") xml)
  = map seg_fullMatch (collectSegments xml).
Proof.
  rewrite collectSegments_matchAll. unfold matchAll.
  rewrite (replace_collect_ext _ (matcher textTagRegex) (drop 1))
    by apply textMatch_matcher.
  by rewrite !map_map.
Qed.

Lemma closeTag_matcher s i :
  regex_literal "<\/w:t>" s i
  = if occurs_at true false (str "</w:t>") s i then Some (6, []) else None.
Proof.
  change (regex_literal "<\/w:t>")
    with (PatternEngine.matcher_of (negb true)
            (if false then PatternEngine.RSeq (PatternEngine.RWordB false)
                             (chars (str "</w:t>")
                                (PatternEngine.RSeq (PatternEngine.RWordB false)
                                   PatternEngine.REmpty))
             else chars (str "</w:t>") PatternEngine.REmpty) 0).
  by rewrite literal_matcher.
Qed.

(** Removing the opening and the closing tag from a text tag leaves its
    text. *)
Lemma strip_tag a t :
  tag_ok a t ->
  String_replace_first (regex_literal "<\/w:t>")
    (String_replace_first (regex_literal "<w:t[^>]*>") (render a t) []) [] = t.
Proof.
  intros [Ha Ht].
  assert (Hopen : String_replace_first (regex_literal "<w:t[^>]*>") (render a t) []
                  = t ++ str "</w:t>").
  { unfold String_replace_first.
    change (regex_literal "<w:t[^>]*>") with (PatternEngine.matcher_of false openTag_re 0).
    cbn [exec_scan].
    rewrite (openTag_complete (render a t) a t []) by (done || by rewrite app_nil_r).
    cbn [m_index m_matched m_captures take GetSubstitution app Nat.add].
    rewrite slice_0, length_take. rewrite render_length.
    rewrite Nat.min_l by lia. unfold render.
    rewrite (app_assoc (str "<w:t")), (app_assoc _ (str ">")).
    rewrite drop_app_length'; [done|]. rewrite !length_app. simpl. lia. }
  rewrite Hopen. unfold String_replace_first.
  set (s := t ++ str "</w:t>").
  assert (Hnone : forall j, 0 <= j < 0 + length t -> regex_literal "<\/w:t>" s j = None).
  { intros j Hj. rewrite closeTag_matcher. unfold occurs_at.
    destruct (lookup_lt_is_Some_2 t j) as [c Hc]; [lia|].
    assert (Hsc : s !! j = Some c) by (unfold s; by rewrite lookup_app_l by lia).
    rewrite (slice_cons _ _ _ _ Hsc) by (simpl; lia).
    change (str "</w:t>") with ("<"%char :: str "/w:t>").
    cbn [same_text fold_case].
    assert (c <> "<"%char).
    { eapply Forall_forall in Ht; [exact Ht|]. by eapply list_elem_of_lookup_2. }
    replace (Ascii.eqb "<" c) with false; [done|].
    symmetry. apply Ascii.eqb_neq. congruence. }
  replace (S (length s)) with (length t + 7).
  2:{ unfold s. rewrite length_app. simpl. lia. }
  rewrite (exec_scan_skip _ _ 7 0 (length t) Hnone).
  cbn [exec_scan Nat.add]. rewrite closeTag_matcher.
  assert (Hocc : occurs_at true false (str "</w:t>") s (length t) = true).
  { unfold occurs_at. cbn [negb orb]. rewrite andb_true_r.
    replace (slice s (length t) (length t + length (str "</w:t>"))) with (str "</w:t>").
    - apply same_text_refl.
    - symmetry. apply (slice_of_drop s t _ [] 0); [by rewrite app_nil_r|lia|done]. }
  rewrite Hocc. cbn [m_index m_matched m_captures GetSubstitution app].
  assert (Hsl : slice s (length t) (length t + 6) = str "</w:t>").
  { apply (slice_of_drop s t _ [] 0); [by rewrite app_nil_r|lia|done]. }
  rewrite Hsl. unfold s. rewrite take_app_length.
  change (length (str "</w:t>")) with 6.
  rewrite drop_ge by (rewrite length_app; simpl; lia). apply app_nil_r.
Qed.

Lemma extractTextFromXml_concat xml :
  extractTextFromXml xml = concat (map seg_text (collectSegments xml)).
Proof.
  unfold extractTextFromXml. rewrite textMatches_segments, map_map. f_equal.
  apply Forall_fmap_ext_1.
  eapply Forall_impl; [apply collectSegments_wellformed|].
  intros seg (Hr & _ & _ & Ha & Ht). rewrite Hr. by apply strip_tag.
Qed.

(** X1.  The text [extractTextFromXml] returns is the concatenation of the
    texts of the segments [replaceInParagraph] collects from the same
    input, text tag by text tag: the two patterns read the same tags, and
    removing the opening and the closing tag leaves the text of a tag. *)
Theorem extractTextFromXml_segments :
  forall xml : jsstring,
    map m_matched (matchAll (regex_literal "<w:t[^>]*>([^<]*)<\/w:t>") xml)
    = map seg_fullMatch (collectSegments xml) /\
    extractTextFromXml xml = concat (map seg_text (collectSegments xml)).
Proof.
  intros xml. split; [apply textMatches_segments|apply extractTextFromXml_concat].
Qed.

(** X2.  On a paragraph with at least one text tag, replacing in the markup
    and replacing in the text agree: when the replaced text holds no opening
    bracket, the text extracted from the rewritten paragraph is the
    replacement applied to the text extracted from the paragraph. *)
Theorem replaceInParagraph_text (p : jsstring) (regex : RegExp) (replacement : jsstring) :
  collectSegments p <> [] ->
  markup_free (String_replace (matcher regex) (extractTextFromXml p) replacement) = true ->
  extractTextFromXml (replaceInParagraph p regex replacement)
  = String_replace (matcher regex) (extractTextFromXml p) replacement.
Proof.
  intros Hne Hfree. rewrite !extractTextFromXml_concat in *.
  destruct (collectSegments p) as [|first rest] eqn:Hsegs; [done|].
  destruct (decide (String_replace (matcher regex)
                      (concat (map seg_text (first :: rest))) replacement
                    = concat (map seg_text (first :: rest)))) as [E|E].
  - rewrite replaceInParagraph_spec, Hsegs.
    rewrite bool_decide_eq_true_2 by done. by rewrite Hsegs, E.
  - pose proof (replaceInParagraph_reread p regex replacement first rest Hsegs) as Hre.
    cbv zeta in Hre. rewrite Hsegs in Hre. specialize (Hre E Hfree).
    apply (f_equal (map snd)) in Hre. rewrite map_map in Hre. cbn [map snd] in Hre.
    rewrite map_map in Hre.
    assert (Hre' : map seg_text (collectSegments (replaceInParagraph p regex replacement))
                   = String_replace (matcher regex)
                       (concat (map seg_text (first :: rest))) replacement
                     :: map (fun _ => []) rest) by exact Hre.
    rewrite Hre'. cbn [concat]. by rewrite concat_empty, app_nil_r.
Qed.

Lemma replaceInParagraph_text_witness :
  exists regex,
    @buildRegex FragmentEngine (str "foo") defaultOptions = Ok (Some regex) /\
    extractTextFromXml foo_bar_paragraph = str "foo bar" /\
    extractTextFromXml (replaceInParagraph foo_bar_paragraph regex (str "baz"))
    = str "baz bar".
Proof.
  eexists. split; [reflexivity|]. split; [by vm_compute|].
  rewrite replaceInParagraph_text; by vm_compute.
Defined.

(* ===================================================================== *)
(** ** [replaceAll] and [findMatches] *)
(* ===================================================================== *)

(** A template without a dollar sign is copied as it is. *)
Lemma GetSubstitution_plain matched s position captures template :
  Forall (fun c => c <> "$"%char) template ->
  GetSubstitution matched s position captures template = template.
Proof.
  induction 1 as [|c rest Hc _ IH]; [done|].
  assert (Hstep : GetSubstitution matched s position captures (c :: rest)
                  = c :: GetSubstitution matched s position captures rest).
  { destruct c as [[] [] [] [] [] [] [] []]; try reflexivity. done. }
  by rewrite Hstep, IH.
Qed.

Lemma buildRegex_lastIndex `{RegExpEngine} pattern options regex :
  buildRegex pattern options = Ok (Some regex) -> lastIndex regex = 0.
Proof.
  unfold buildRegex. destruct pattern; [done|]. unfold RegExp_new.
  destruct (compile_pattern _ _); simpl; [|done]. by intros [= <-].
Qed.

(** [findMatches] and [replaceAll] on the same pattern: both throw what
    [buildRegex] throws, or both work on the matches of one global scan. *)
Lemma findMatches_replaceAll `{RegExpEngine} text pattern replacement options :
  match buildRegex pattern options with
  | Throw e =>
      findMatches text pattern options = Throw e /\
      replaceAll text pattern replacement options = Throw e
  | Ok None =>
      findMatches text pattern options = Ok {| count := 0; positions := [] |} /\
      replaceAll text pattern replacement options = Ok text
  | Ok (Some regex) =>
      let ms := matchAll (matcher regex) text in
      findMatches text pattern options
      = Ok {| count := length ms; positions := map position_of ms |} /\
      replaceAll text pattern replacement options
      = Ok (splice text 0
              (map (span_with (fun m => GetSubstitution (m_matched m) text (m_index m)
                                          (m_captures m) replacement)) ms))
  end.
Proof.
  destruct (buildRegex pattern options) as [[regex|]|e] eqn:Hb.
  - cbv zeta. split; [by apply findMatches_matchAll|].
    unfold replaceAll. rewrite Hb. cbn [bind]. unfold String_replace.
    by rewrite String_replace_fn_splice.
  - unfold findMatches, findMatches_fuel, replaceAll. by rewrite Hb.
  - unfold findMatches, findMatches_fuel, replaceAll. by rewrite Hb.
Qed.

(** X3.  With a replacement that holds no dollar sign, [replaceAll] puts the
    replacement, as it is, at the spans [findMatches] reports for the same
    text, pattern and options, and copies the rest of the text. *)
Theorem replaceAll_at_found_spans `{RegExpEngine} (text pattern replacement : jsstring)
    (options : Options) (found : Matches) :
  Forall (fun c => c <> "$"%char) replacement ->
  findMatches text pattern options = Ok found ->
  replaceAll text pattern replacement options
  = Ok (splice text 0
          (map (fun p => (pos_start p, pos_end p, replacement)) (positions found))).
Proof.
  intros Hplain Hfound.
  pose proof (findMatches_replaceAll text pattern replacement options) as H0.
  destruct (buildRegex pattern options) as [[regex|]|e].
  - cbv zeta in H0. destruct H0 as [Hf Hr]. rewrite Hf in Hfound.
    injection Hfound as <-. rewrite Hr. cbn [positions]. do 2 f_equal.
    rewrite map_map. apply map_ext. intros m. unfold span_with. cbn.
    by rewrite GetSubstitution_plain.
  - destruct H0 as [Hf Hr]. rewrite Hf in Hfound. injection Hfound as <-.
    rewrite Hr. cbn. by rewrite drop_0.
  - destruct H0 as [Hf _]. congruence.
Qed.

Lemma replaceAll_at_found_spans_witness :
  @findMatches FragmentEngine (str "a cat, a Cat") (str "cat") defaultOptions
  = Ok {| count := 2;
          positions := [ {| pos_start := 2; pos_end := 5; pos_match := str "cat" |};
                         {| pos_start := 9; pos_end := 12; pos_match := str "Cat" |} ] |} /\
  @replaceAll FragmentEngine (str "a cat, a Cat") (str "cat") (str "dog") defaultOptions
  = Ok (str "a dog, a dog").
Proof.
  assert (Hf : @findMatches FragmentEngine (str "a cat, a Cat") (str "cat") defaultOptions
               = Ok {| count := 2;
                       positions := [ {| pos_start := 2; pos_end := 5;
                                         pos_match := str "cat" |};
                                      {| pos_start := 9; pos_end := 12;
                                         pos_match := str "Cat" |} ] |})
    by (by vm_compute).
  split; [exact Hf|].
  assert (Hp : Forall (fun c => c <> "$"%char) (str "dog")).
  { change (str "dog") with ["d"%char; "o"%char; "g"%char].
    repeat (constructor; [discriminate|]). constructor. }
  rewrite (replaceAll_at_found_spans _ _ (str "dog") _ _ Hp Hf).
  reflexivity.
Defined.

(** X4.  The replacement is a template: the reference to the whole match
    puts every match back, so [replaceAll] with it returns the text as it
    is whenever the pattern compiles, and throws what [buildRegex] throws
    otherwise.  Two dollar signs stand for one. *)
Theorem replaceAll_whole_match_template :
  (forall (E : RegExpEngine) (text pattern : jsstring) (options : Options),
     replaceAll text pattern (str "$&") options
     = (_ <- buildRegex pattern options ;; Ok text)) /\
  @replaceAll FragmentEngine (str "a+a") (str "+") (str "$$") defaultOptions
  = Ok (str "a$a").
Proof.
  split; [|by vm_compute].
  intros E text pattern options.
  pose proof (findMatches_replaceAll text pattern (str "$&") options) as H0.
  destruct (buildRegex pattern options) as [[regex|]|e].
  - cbv zeta in H0. destruct H0 as [_ ->]. cbn [bind]. f_equal.
    rewrite <- (drop_0 text) at 3.
    rewrite <- (splice_id text 0 (matchAll (matcher regex) text)) by apply matchAll_chain.
    f_equal. apply map_ext. intros m. unfold span_with. f_equal.
    cbn. apply app_nil_r.
  - by destruct H0 as [_ ->].
  - by destruct H0 as [_ ->].
Qed.

(** X5.  When [findMatches] reports no match, [replaceAll] with the same
    pattern and options returns the text as it is, whatever the
    replacement. *)
Theorem replaceAll_without_match `{RegExpEngine} (text pattern replacement : jsstring)
    (options : Options) (found : Matches) :
  findMatches text pattern options = Ok found ->
  count found = 0 ->
  replaceAll text pattern replacement options = Ok text.
Proof.
  intros Hfound Hcount.
  pose proof (findMatches_replaceAll text pattern replacement options) as H0.
  destruct (buildRegex pattern options) as [[regex|]|e].
  - cbv zeta in H0. destruct H0 as [Hf Hr]. rewrite Hf in Hfound.
    injection Hfound as <-. cbn [count] in Hcount.
    apply length_zero_iff_nil in Hcount. rewrite Hr, Hcount. cbn. by rewrite drop_0.
  - by destruct H0 as [_ ->].
  - destruct H0 as [Hf _]. congruence.
Qed.

Lemma replaceAll_without_match_witness :
  @replaceAll FragmentEngine (str "a dog") (str "cat") (str "$&$&") defaultOptions
  = Ok (str "a dog").
Proof.
  apply (replaceAll_without_match _ _ _ _ {| count := 0; positions := [] |});
    [by vm_compute|reflexivity].
Defined.

(* ===================================================================== *)
(** ** The archives *)
(* ===================================================================== *)

(** What one call of [replaceInDocx] does to the archives. *)
Lemma replaceInDocx_spec `{RegExpEngine} zip pattern replacement options (h : Heap) :
  replaceInDocx zip pattern replacement options h
  = match h !! zip with
    | None => (Throw (Error "not an archive"), h)
    | Some z =>
        match getDocumentXml z with
        | Throw e => (Throw e, h)
        | Ok xml =>
            match replaceInXml xml pattern replacement options with
            | Throw e => (Throw e, h)
            | Ok modifiedXml =>
                (Ok zip, <[zip := zip_file_write z modifiedXml]> h)
            end
        end
    end.
Proof.
  unfold replaceInDocx, bindM, get, liftR, modify, ret, throw.
  destruct (h !! zip) as [z|]; [|done].
  destruct (getDocumentXml z) as [xml|e]; [|done].
  by destruct (replaceInXml xml pattern replacement options).
Qed.

Lemma zip_file_write_payload z data :
  zip_file_write z data !! DOCUMENT_XML_PATH = Some data.
Proof. unfold zip_file_write. by rewrite lookup_insert_eq. Qed.

Lemma zip_file_write_folder z data :
  zip_file_write z data !! WORD_FOLDER
  = Some (match z !! WORD_FOLDER with Some contents => contents | None => [] end).
Proof.
  unfold zip_file_write. rewrite lookup_insert_ne by done.
  destruct (z !! WORD_FOLDER) eqn:E; [done|]. by rewrite lookup_insert_eq.
Qed.

Lemma zip_file_write_other z data path :
  path <> DOCUMENT_XML_PATH -> path <> WORD_FOLDER ->
  zip_file_write z data !! path = z !! path.
Proof.
  intros H1 H2. unfold zip_file_write. rewrite lookup_insert_ne by done.
  destruct (z !! WORD_FOLDER); [done|]. by rewrite lookup_insert_ne.
Qed.

(** X6.  [replaceInDocx] returns the reference it was given.  When it
    succeeds, the archive behind the reference has the entry
    word/document.xml replaced by the result of [replaceInXml] on the old
    entry, and an entry for the folder word/: the one it had, or a new one
    without contents.  Every other entry of the archive and every other
    archive is as before.  When the archive has no entry word/document.xml
    or the pattern does not compile, it throws and no archive is changed. *)
Theorem replaceInDocx_frame :
  forall (E : RegExpEngine) (zip : loc) (pattern replacement : jsstring)
         (options : Options) (h : Heap),
    match replaceInDocx zip pattern replacement options h with
    | (Ok zip', h') =>
        zip' = zip /\ length h' = length h /\
        (forall other, other <> zip -> h' !! other = h !! other) /\
        exists archive archive' xml modifiedXml,
          h !! zip = Some archive /\ h' !! zip = Some archive' /\
          archive !! DOCUMENT_XML_PATH = Some xml /\
          replaceInXml xml pattern replacement options = Ok modifiedXml /\
          archive' !! DOCUMENT_XML_PATH = Some modifiedXml /\
          archive' !! WORD_FOLDER
            = Some (match archive !! WORD_FOLDER with
                    | Some contents => contents
                    | None => []
                    end) /\
          (forall path, path <> DOCUMENT_XML_PATH -> path <> WORD_FOLDER ->
                        archive' !! path = archive !! path)
    | (Throw e, h') =>
        h' = h /\
        (forall archive, h !! zip = Some archive ->
           match archive !! DOCUMENT_XML_PATH with
           | None => e = Error "Invalid .docx: word/document.xml not found."
           | Some xml => replaceInXml xml pattern replacement options = Throw e
           end)
    end.
Proof.
  intros E zip pattern replacement options h. rewrite replaceInDocx_spec.
  destruct (h !! zip) as [z|] eqn:Hz; [|done].
  unfold getDocumentXml.
  destruct (z !! DOCUMENT_XML_PATH) as [xml|] eqn:Hxml.
  - destruct (replaceInXml xml pattern replacement options) as [xml'|e] eqn:Hr.
    + split; [done|]. split; [by rewrite length_insert|].
      split; [intros other Ho; by rewrite list_lookup_insert_ne|].
      exists z, (zip_file_write z xml'), xml, xml'.
      split; [done|]. split.
      { apply list_lookup_insert_eq. by eapply lookup_lt_Some. }
      split; [done|]. split; [done|]. split; [apply zip_file_write_payload|].
      split; [apply zip_file_write_folder|].
      intros path Hp Hf. by apply zip_file_write_other.
    + split; [done|]. intros archive [= <-]. by rewrite Hxml.
  - split; [done|]. intros archive [= <-]. by rewrite Hxml.
Qed.

Lemma replaceInDocx_other `{RegExpEngine} zip pattern replacement options (h : Heap) z :
  z <> zip ->
  snd (replaceInDocx zip pattern replacement options h) !! z = h !! z /\
  (forall zip', fst (replaceInDocx zip pattern replacement options h) = Ok zip' -> zip' = zip).
Proof.
  intros Hz. rewrite replaceInDocx_spec.
  destruct (h !! zip) as [a|]; [|done].
  destruct (getDocumentXml a) as [xml|e]; [|done].
  destruct (replaceInXml xml pattern replacement options) as [xml'|e]; [|done].
  simpl. split; [by rewrite list_lookup_insert_ne|]. by intros zip' [= <-].
Qed.

Lemma applyDocxReplacements_loop_other `{RegExpEngine} pairs options zip (h : Heap) z :
  z <> zip ->
  snd (applyDocxReplacements_loop pairs options zip h) !! z = h !! z /\
  (forall zip', fst (applyDocxReplacements_loop pairs options zip h) = Ok zip' -> zip' = zip).
Proof.
  intros Hz. revert h. induction pairs as [|p ps IH]; intros h; simpl.
  - split; [done|]. by intros zip' [= <-].
  - unfold bindM.
    destruct (replaceInDocx_other zip (find p) (replace p) options h z Hz) as [H1 H2].
    destruct (replaceInDocx zip (find p) (replace p) options h) as [[zip1|e] h1];
      simpl in *; [|done].
    rewrite (H2 zip1 eq_refl). destruct (IH h1) as [IH1 IH2]. split; [|done].
    by rewrite IH1.
Qed.

#[local] Arguments applyDocxReplacements : simpl never.

(** Where [applyDocxReplacements] writes: the working archive, the
    preview and the text; nothing else, also when it throws. *)
Lemma applyDocxReplacements_writes `{RegExpEngine} `{Browser} pairs options w z2 :
  currentZip (state w) = Some z2 ->
  let w' := snd (applyDocxReplacements pairs options w) in
  currentZip (state w') = Some z2 /\
  originalZip (state w') = originalZip (state w) /\
  undoZip (state w') = undoZip (state w) /\
  undoText (state w') = undoText (state w) /\
  hasReplaced (state w') = hasReplaced (state w) /\
  currentFile (state w') = currentFile (state w) /\
  fileType (state w') = fileType (state w) /\
  originalText (state w') = originalText (state w) /\
  toasts w' = toasts w /\
  length (heap w') = length (heap w) /\
  forall z, z <> z2 -> heap w' !! z = heap w !! z.
Proof.
  intros Hc. unfold applyDocxReplacements.
  cbv [bindM getState]. rewrite Hc.
  cbv [with_heap bindM assign modify exportDocx get ret throw liftR]. cbn.
  pose proof (fun z => applyDocxReplacements_loop_other pairs options z2 (heap w) z) as Hl.
  assert (Hlen : length (snd (applyDocxReplacements_loop pairs options z2 (heap w)))
                 = length (heap w)).
  { clear. generalize (heap w). induction pairs as [|p ps IH]; intros h; [done|].
    simpl. unfold bindM. rewrite replaceInDocx_spec.
    destruct (h !! z2) as [a|]; [|done].
    destruct (getDocumentXml a) as [xml|e]; [|done].
    destruct (replaceInXml xml (find p) (replace p) options) as [xml'|e]; [|done].
    rewrite IH. by rewrite length_insert. }
  destruct (applyDocxReplacements_loop pairs options z2 (heap w)) as [[zip|e] h'];
    simpl in *.
  2:{ repeat split; try done. intros z Hz. by apply Hl. }
  assert (zip = z2) as ->.
  { destruct (Hl (S z2)) as [_ Hz]; [lia|]. by apply Hz. }
  destruct (h' !! z2) as [a|]; simpl.
  2:{ repeat split; try done. intros z Hz. by apply Hl. }
  destruct (generateHtmlPreview a) as [html|e]; simpl.
  2:{ repeat split; try done. intros z Hz. by apply Hl. }
  destruct (getDocumentXml a) as [xml|e]; simpl.
  all: repeat split; try done; intros z Hz; by apply Hl.
Qed.

Lemma handleInputChange_kept `{RegExpEngine} `{Browser} dom z1 archive w :
  original_kept z1 archive w -> original_kept z1 archive (snd (handleInputChange dom w)).
Proof.
  unfold original_kept. destruct (handleInputChange_state dom w) as [-> ->]. done.
Qed.

Lemma handleReplaceAll_kept `{RegExpEngine} `{Browser} dom z1 archive w :
  original_kept z1 archive w -> original_kept z1 archive (snd (handleReplaceAll dom w)).
Proof.
  intros (Ho & Hh & (z2 & Hc & Hne) & Hu & Hr).
  unfold handleReplaceAll. run_monad.
  destruct (getPairs dom) as [|p ps]; [simpl; unfold original_kept; eauto 10|].
  set (w1 := {| state := set_undoZip (currentZip (state w))
                           (set_undoText (Some (currentText (state w))) (state w));
                heap := heap w; toasts := toasts w;
                matchCountBadge := matchCountBadge w; buttons := buttons w |}).
  assert (Hgoal : forall w2 : World,
            currentZip (state w2) = Some z2 ->
            originalZip (state w2) = Some z1 ->
            undoZip (state w2) = Some z2 ->
            heap w2 !! z1 = Some archive ->
            original_kept z1 archive w2).
  { intros w2 H1 H2 H3 H4. unfold original_kept. rewrite H1, H2, H3.
    split; [done|]. split; [done|]. split; [eauto|]. split; [congruence|done]. }
  assert (Hw2 : forall w2 : World,
            currentZip (state w2) = Some z2 ->
            originalZip (state w2) = Some z1 ->
            undoZip (state w2) = Some z2 ->
            heap w2 !! z1 = Some archive ->
            original_kept z1 archive
              (let (r, s') :=
                 let (r0, s'0) := handleInputChange dom
                   {| state := set_hasReplaced true (state w2); heap := heap w2;
                      toasts := toasts w2; matchCountBadge := matchCountBadge w2;
                      buttons := buttons w2 |} in
                 match r0 with
                 | Ok _ =>
                     (Ok (),
                      {| state := state s'0; heap := heap s'0;
                         toasts := toasts s'0 ++ [(Replaced (length (p :: ps)), success)];
                         matchCountBadge := matchCountBadge s'0; buttons := buttons s'0 |})
                 | Throw e => (Throw e, s'0)
                 end in
               match r with
               | Ok a => (Ok a, s')
               | Throw _ =>
                   (Ok (),
                    {| state := state s'; heap := heap s';
                       toasts := toasts s' ++ [(ReplacementFailed, error)];
                       matchCountBadge := matchCountBadge s'; buttons := buttons s' |})
               end).2).
  { intros w2 H1 H2 H3 H4.
    match goal with
    | |- context [handleInputChange ?d ?w'] =>
        pose proof (handleInputChange_state d w') as [Hs Hh'];
        destruct (handleInputChange d w') as [[[]|?] ?]
    end; simpl in *; apply Hgoal; simpl; rewrite ?Hs, ?Hh'; simpl; done. }
  assert (Hdocx : original_kept z1 archive
            (let (r, s') :=
               let (r, s') := applyDocxReplacements (p :: ps) (getOptions dom) w1 in
               match r with
               | Ok _ =>
                   let (r0, s'0) := handleInputChange dom
                     {| state := set_hasReplaced true (state s'); heap := heap s';
                        toasts := toasts s'; matchCountBadge := matchCountBadge s';
                        buttons := buttons s' |} in
                   match r0 with
                   | Ok _ =>
                       (Ok (),
                        {| state := state s'0; heap := heap s'0;
                           toasts := toasts s'0 ++ [(Replaced (length (p :: ps)), success)];
                           matchCountBadge := matchCountBadge s'0;
                           buttons := buttons s'0 |})
                   | Throw e => (Throw e, s'0)
                   end
               | Throw e => (Throw e, s')
               end in
             match r with
             | Ok a => (Ok a, s')
             | Throw _ =>
                 (Ok (),
                  {| state := state s'; heap := heap s';
                     toasts := toasts s' ++ [(ReplacementFailed, error)];
                     matchCountBadge := matchCountBadge s'; buttons := buttons s' |})
             end).2).
  { pose proof (applyDocxReplacements_writes (p :: ps) (getOptions dom) w1 z2) as Hw.
    cbv zeta in Hw.
    destruct Hw as (H1 & H2 & H3 & _ & _ & _ & _ & _ & _ & _ & H4); [by subst w1|].
    destruct (applyDocxReplacements (p :: ps) (getOptions dom) w1) as [[[]|e] w2];
      simpl in H1, H2, H3, H4.
    - apply Hw2; [done|by rewrite H2|by rewrite H3| by rewrite H4].
    - simpl. apply Hgoal; simpl; [done|by rewrite H2|by rewrite H3|by rewrite H4]. }
  destruct (fileType (state w)) as [[]|] eqn:Hft; [exact Hdocx| |exact Hdocx].
  rewrite applyTextReplacements_spec.
  destruct (applyTextReplacements_loop _ _ _) as [text|e].
  - unfold assign, modify. apply Hw2; simpl; done.
  - simpl. apply Hgoal; simpl; done.
Qed.

Lemma handleUndo_kept `{RegExpEngine} `{Browser} dom z1 archive w :
  original_kept z1 archive w -> original_kept z1 archive (snd (handleUndo dom w)).
Proof.
  intros (Ho & Hh & (z2 & Hc & Hne) & Hu & Hr).
  unfold handleUndo. run_monad.
  destruct (hasReplaced (state w)) eqn:Hhas; [|unfold original_kept; simpl; eauto 10].
  specialize (Hr eq_refl).
  destruct (undoZip (state w)) as [zu|] eqn:Hzu; [|done].
  assert (Hzu1 : zu <> z1) by congruence.
  simpl.
  assert (Hgoal : forall w2 : World,
            currentZip (state w2) = Some zu ->
            originalZip (state w2) = Some z1 ->
            (undoZip (state w2) = Some zu /\ hasReplaced (state w2) = true \/
             undoZip (state w2) = None /\ hasReplaced (state w2) = false) ->
            heap w2 !! z1 = Some archive ->
            original_kept z1 archive w2).
  { intros w2 H1 H2 H3 H4. unfold original_kept. rewrite H1, H2.
    split; [done|]. split; [done|]. split; [eauto|].
    destruct H3 as [[-> ->]|[-> ->]]; split; congruence. }
  assert (Hin : forall w2 : World,
            currentZip (state w2) = Some zu ->
            originalZip (state w2) = Some z1 ->
            undoZip (state w2) = None -> hasReplaced (state w2) = false ->
            heap w2 !! z1 = Some archive ->
            original_kept z1 archive
              (let (r0, s'0) := handleInputChange dom w2 in
               match r0 with
               | Ok _ =>
                   (Ok (),
                    {| state := state s'0; heap := heap s'0;
                       toasts := toasts s'0 ++ [(UndoSuccessful, success)];
                       matchCountBadge := matchCountBadge s'0; buttons := buttons s'0 |})
               | Throw e => (Throw e, s'0)
               end).2).
  { intros w2 H1 H2 H3 H5 H4.
    pose proof (handleInputChange_state dom w2) as [Hs Hh'].
    destruct (handleInputChange dom w2) as [[[]|?] ?]; simpl in *;
      apply Hgoal; simpl; rewrite ?Hs, ?Hh'; auto. }
  destruct (fileType (state w)) as [[]|]; [|by apply Hin..].
  cbn. destruct (heap w !! zu) as [a|] eqn:Ha; cbv [ret throw]; simpl.
  2:{ apply Hgoal; simpl; [done|done|rewrite ?Hzu; eauto|done]. }
  destruct (generateHtmlPreview a) as [html|e]; simpl.
  - by apply Hin.
  - apply Hgoal; simpl; [done|done|rewrite ?Hzu; eauto|done].
Qed.

(** The original archive stays as it was loaded through the listeners of
    the replace-all and undo buttons and the inputs, run one after the
    other. *)
Lemma after_events_kept `{RegExpEngine} `{Browser} es z1 archive w :
  original_kept z1 archive w -> original_kept z1 archive (after_events es w).
Proof.
  revert w. induction es as [|e es IH]; intros w Hk; [done|].
  apply IH. destruct e; simpl.
  - by apply handleReplaceAll_kept.
  - by apply handleUndo_kept.
  - by apply handleInputChange_kept.
Qed.

#[local] Arguments extractTextFromXml : simpl never.

(** After a .docx file has been loaded, [state.originalZip] and
    [state.currentZip] refer to two archives of their own, both with the
    contents of the file. *)
Lemma handleFileSelected_docx `{RegExpEngine} `{Browser} dom file archive w :
  fileType_of file = docx ->
  file_zip file = Ok archive ->
  let w0 := snd (handleFileSelected dom file w) in
  toasts w0 = toasts w ++ [(FileLoaded, success)] ->
  original_kept (length (heap w)) archive w0 /\
  currentZip (state w0) = Some (S (length (heap w))) /\
  heap w0 = heap w ++ [archive; archive] /\
  hasReplaced (state w0) = false.
Proof.
  intros Hft Hzip. unfold handleFileSelected, loadDocxFile, loadDocx, exportDocx.
  rewrite Hft, Hzip. run_monad.
  rewrite lookup_app_l by (rewrite length_app; simpl; lia).
  rewrite lookup_app_r by lia. rewrite Nat.sub_diag. cbn.
  assert (Hfail : forall (ts : list (ToastMessage * ToastType)),
            ts ++ [(LoadFailed, error)] <> toasts w ++ [(FileLoaded, success)]).
  { intros ts E. apply app_inj_tail in E as [_ E]. discriminate E. }
  destruct (generateHtmlPreview archive) as [html|e]; cbn; [|intros E; by apply Hfail in E].
  destruct (getDocumentXml archive) as [xml|e]; cbn; [|intros E; by apply Hfail in E].
  match goal with
  | |- context [handleInputChange ?d ?w'] =>
      pose proof (handleInputChange_state d w') as [Hs Hh];
      destruct (handleInputChange d w') as [[[]|?] w2]
  end; cbn in *; [|intros E; by apply Hfail in E].
  intros _. unfold original_kept. rewrite Hs, Hh. cbn.
  rewrite length_app. cbn. rewrite <- app_assoc. cbn.
  split; [|split; [f_equal; lia|done]].
  split; [done|]. split.
  { rewrite lookup_app_r by lia. by rewrite Nat.sub_diag. }
  split; [exists (length (heap w) + 1); split; [done|lia]|]. done.
Qed.

(** X7.  After a .docx file has been loaded, the archive
    [state.originalZip] refers to keeps the contents of the file through
    every sequence of replace-all clicks, undo clicks and input changes
    whose listeners run one after the other, each finished before the next
    event is handled: the replacements are written into another archive. *)
Theorem original_archive_is_kept `{RegExpEngine} `{Browser} (dom : Dom) (file : File)
    (archive : Zip) (w : World) (es : list Event) :
  fileType_of file = docx ->
  file_zip file = Ok archive ->
  toasts (snd (handleFileSelected dom file w)) = toasts w ++ [(FileLoaded, success)] ->
  let w' := after_events es (snd (handleFileSelected dom file w)) in
  exists z1,
    originalZip (state w') = Some z1 /\ heap w' !! z1 = Some archive /\
    currentZip (state w') <> Some z1.
Proof.
  intros Hft Hzip Hok w'.
  destruct (handleFileSelected_docx dom file archive w Hft Hzip Hok) as [Hk _].
  apply (after_events_kept es) in Hk.
  destruct Hk as (H1 & H2 & (z2 & H3 & H4) & _).
  exists (length (heap w)). subst w'. rewrite H3. split; [done|]. split; [done|congruence].
Qed.

Lemma original_archive_is_kept_witness :
  let dom := typed [pair_of "a" "b"] defaultOptions in
  let w' := @after_events FragmentEngine PlainBrowser
              [ReplaceAllClicked dom; UndoClicked dom; ReplaceAllClicked dom]
              (snd (@handleFileSelected FragmentEngine PlainBrowser dom
                      (documentFile letter_a) initialWorld)) in
  currentPayload w' = Some letter_b /\
  exists z1,
    originalZip (state w') = Some z1 /\
    heap w' !! z1 = Some {[ DOCUMENT_XML_PATH := letter_a ]} /\
    currentZip (state w') <> Some z1.
Proof.
  intros dom w'. split; [by vm_compute|].
  assert (H1 : fileType_of (documentFile letter_a) = docx) by (by vm_compute).
  assert (H2 : toasts (snd (@handleFileSelected FragmentEngine PlainBrowser dom
                              (documentFile letter_a) initialWorld))
               = toasts initialWorld ++ [(FileLoaded, success)]) by (by vm_compute).
  exact (@original_archive_is_kept FragmentEngine PlainBrowser dom (documentFile letter_a)
           {[ DOCUMENT_XML_PATH := letter_a ]} initialWorld
           [ReplaceAllClicked dom; UndoClicked dom; ReplaceAllClicked dom]
           H1 eq_refl H2).
Defined.

(** X8.  When [applyDocxReplacements] returns, the text and the preview of
    the state are those of the working archive: [state.currentText] is the
    text extracted from its entry word/document.xml, and
    [state.previewHtml] is its HTML preview. *)
Theorem applyDocxReplacements_agreement `{RegExpEngine} `{Browser}
    (pairs : list ReplacementPair) (options : Options) (w : World) :
  fst (applyDocxReplacements pairs options w) = Ok tt ->
  let w' := snd (applyDocxReplacements pairs options w) in
  exists zip archive xml,
    currentZip (state w') = Some zip /\ heap w' !! zip = Some archive /\
    archive !! DOCUMENT_XML_PATH = Some xml /\
    currentText (state w') = extractTextFromXml xml /\
    generateHtmlPreview archive = Ok (previewHtml (state w')) /\
    currentPayloadText w' = Some (currentText (state w')).
Proof.
  unfold applyDocxReplacements. cbv [bindM getState].
  destruct (currentZip (state w)) as [z2|] eqn:Hc; [|done].
  cbv [with_heap bindM assign modify exportDocx get ret throw liftR]. cbn.
  destruct (applyDocxReplacements_loop pairs options z2 (heap w)) as [[zip|e] h'];
    cbn; [|done].
  destruct (h' !! zip) as [a|] eqn:Ha; cbn; [|done].
  destruct (generateHtmlPreview a) as [html|e] eqn:Hg; cbn; [|done].
  unfold getDocumentXml.
  destruct (a !! DOCUMENT_XML_PATH) as [xml|] eqn:Hx; cbn; [|done].
  intros _. exists zip, a, xml. unfold currentPayloadText, currentPayload. cbn.
  rewrite Ha, Hx. done.
Qed.

Lemma applyDocxReplacements_agreement_witness :
  let dom := typed [pair_of "a" "b"] defaultOptions in
  let w0 := snd (@handleFileSelected FragmentEngine PlainBrowser dom
                   (documentFile letter_a) initialWorld) in
  let w' := snd (@applyDocxReplacements FragmentEngine PlainBrowser
                   [pair_of "a" "b"] defaultOptions w0) in
  currentText (state w') = str "b" /\
  exists zip archive xml,
    currentZip (state w') = Some zip /\ heap w' !! zip = Some archive /\
    archive !! DOCUMENT_XML_PATH = Some xml /\
    currentText (state w') = extractTextFromXml xml /\
    @generateHtmlPreview PlainBrowser archive = Ok (previewHtml (state w')) /\
    currentPayloadText w' = Some (currentText (state w')).
Proof.
  intros dom w0 w'. split; [by vm_compute|].
  apply (@applyDocxReplacements_agreement FragmentEngine PlainBrowser). by vm_compute.
Defined.

(* ===================================================================== *)
(** ** Upload and download *)
(* ===================================================================== *)

(** [lastIndexOf] finds the last dot. *)
Lemma lastIndexOf_dot_spec name i found :
  (Forall (fun c => c <> "."%char) name /\ lastIndexOf_dot name i found = found) \/
  (exists base ext, name = base ++ "."%char :: ext /\
     Forall (fun c => c <> "."%char) ext /\
     lastIndexOf_dot name i found = Some (i + length base)).
Proof.
  revert i found. induction name as [|c name IH]; intros i found; [left; by split|].
  cbn [lastIndexOf_dot].
  destruct (IH (S i) (if Ascii.eqb c "." then Some i else found))
    as [[Hall Hr]|(base & ext & -> & Hext & Hr)].
  - destruct (Ascii.eqb c ".") eqn:E.
    + apply Ascii.eqb_eq in E as ->. right. exists [], name.
      split; [done|]. split; [done|]. rewrite Hr. f_equal. simpl. lia.
    + apply Ascii.eqb_neq in E. left. split; [by constructor|done].
  - right. exists (c :: base), ext. split; [done|]. split; [done|].
    rewrite Hr. f_equal. simpl. lia.
Qed.

Lemma getFileExtension_cases (file : File) :
  (Forall (fun c => c <> "."%char) (file_name file) /\ getFileExtension file = []) \/
  (exists base ext,
     file_name file = base ++ "."%char :: ext /\
     Forall (fun c => c <> "."%char) ext /\
     getFileExtension file = "."%char :: map PatternEngine.to_lower ext).
Proof.
  unfold getFileExtension.
  destruct (lastIndexOf_dot_spec (file_name file) 0 None)
    as [[Hall ->]|(base & ext & Hn & Hext & ->)].
  - by left.
  - right. exists base, ext. split; [done|]. split; [done|].
    rewrite Hn. cbn [Nat.add]. by rewrite drop_app_length.
Qed.

(** X9.  [getFileExtension] returns the empty string for a name without a
    dot; otherwise the name ends in a dot and a part without a dot, and the
    result is that dot with that part in lower case. *)
Theorem getFileExtension_spec :
  forall file : File,
    (Forall (fun c => c <> "."%char) (file_name file) /\ getFileExtension file = []) \/
    (exists base ext,
       file_name file = base ++ "."%char :: ext /\
       Forall (fun c => c <> "."%char) ext /\
       getFileExtension file = "."%char :: map PatternEngine.to_lower ext).
Proof. apply getFileExtension_cases. Qed.

Lemma lastIndexOf_dot_none name i found :
  Forall (fun c => c <> "."%char) name -> lastIndexOf_dot name i found = found.
Proof.
  intros Hall. revert i found. induction Hall as [|c name Hc _ IH]; intros i found; [done|].
  cbn [lastIndexOf_dot]. rewrite IH.
  destruct (Ascii.eqb c ".") eqn:E; [|done]. by apply Ascii.eqb_eq in E.
Qed.

Lemma lastIndexOf_dot_app base ext i found :
  Forall (fun c => c <> "."%char) ext ->
  lastIndexOf_dot (base ++ "."%char :: ext) i found = Some (i + length base).
Proof.
  intros Hext. revert i found. induction base as [|c base IH]; intros i found.
  - cbn. rewrite lastIndexOf_dot_none by done. f_equal. lia.
  - cbn [app lastIndexOf_dot length]. rewrite IH. f_equal. lia.
Qed.

Lemma getFileExtension_app base ext ft fz :
  Forall (fun c => c <> "."%char) ext ->
  getFileExtension {| file_name := base ++ "."%char :: ext; file_text := ft; file_zip := fz |}
  = "."%char :: map PatternEngine.to_lower ext.
Proof.
  intros Hext. unfold getFileExtension. cbn [file_name].
  rewrite lastIndexOf_dot_app by done. cbn [Nat.add]. by rewrite drop_app_length.
Qed.

(** X10.  The name [handleDownload] saves under.  When the name of the
    file has its last dot behind the first character, _replaced is put in
    front of that dot, and the new name has the extension of the old one.
    Otherwise (no dot, or the only dot in front) _replaced is put at the
    end of the name. *)
Theorem downloadName_spec :
  forall file : File,
    let name := file_name file in
    let saved := {| file_name := downloadName name; file_text := file_text file;
                    file_zip := file_zip file |} in
    (exists c base ext,
       name = (c :: base) ++ "."%char :: ext /\ Forall (fun c => c <> "."%char) ext /\
       downloadName name = (c :: base) ++ str "_replaced" ++ "."%char :: ext /\
       getFileExtension saved = getFileExtension file) \/
    ((Forall (fun c => c <> "."%char) name \/
      exists ext, name = "."%char :: ext /\ Forall (fun c => c <> "."%char) ext) /\
     downloadName name = name ++ str "_replaced").
Proof.
  intros [name ft fz]. cbn [file_name file_text file_zip]. unfold downloadName.
  destruct (lastIndexOf_dot_spec name 0 None) as [[Hall Hr]|(base & ext & -> & Hext & Hr)].
  - right. rewrite Hr. split; [by left|]. by rewrite app_nil_r.
  - rewrite Hr. cbn [Nat.add]. destruct base as [|c base].
    + right. cbn [length]. split; [right; eauto|]. by rewrite app_nil_r.
    + left. exists c, base, ext. cbn [length]. split; [done|]. split; [done|].
      rewrite slice_0.
      change (S (length base)) with (length (c :: base)).
      rewrite take_app_length, drop_app_length.
      split; [done|].
      rewrite getFileExtension_app by done.
      rewrite (app_assoc (c :: base) (str "_replaced")).
      by rewrite getFileExtension_app.
Qed.

Lemma jsstring_eqb_eq a b : jsstring_eqb a b = true <-> a = b.
Proof. unfold jsstring_eqb. apply bool_decide_eq_true. Qed.

(** X11.  [handleFile] passes a file on exactly when its name ends in .docx
    or .txt, in any case of the letters, and its size is at most 52428800
    bytes; such a file is then loaded as a .docx document in the first case
    and as text in the second.  Otherwise one error is reported: the
    extension is checked before the size. *)
Theorem handleFile_spec :
  forall (file : File) (size : N),
    match handleFile file size inr inl with
    | inr f =>
        f = file /\ (size <= 52428800)%N /\
        exists base ext,
          file_name file = base ++ "."%char :: ext /\
          (map PatternEngine.to_lower ext = str "docx" /\ fileType_of file = docx \/
           map PatternEngine.to_lower ext = str "txt" /\ fileType_of file = txt)
    | inl UnsupportedFileType =>
        getFileExtension file <> str ".docx" /\ getFileExtension file <> str ".txt"
    | inl FileTooLarge =>
        isSupported file = true /\ (52428800 < size)%N
    end.
Proof.
  intros file size. unfold handleFile, isSupported, SUPPORTED_EXTENSIONS.
  cbn [existsb]. rewrite orb_false_r.
  destruct (jsstring_eqb (getFileExtension file) (str ".docx")) eqn:E1;
    [|destruct (jsstring_eqb (getFileExtension file) (str ".txt")) eqn:E2]; cbn [orb negb].
  3:{ split; intros E; apply jsstring_eqb_eq in E; congruence. }
  all: unfold isWithinSizeLimit, MAX_FILE_SIZE_MB;
    change (50 * 1024 * 1024)%N with 52428800%N;
    destruct (N.leb_spec size 52428800) as [Hs|Hs]; cbn [negb]; [|done].
  all: split; [done|]; split; [done|].
  all: destruct (getFileExtension_cases file) as [[_ Hx]|(base & ext & Hn & _ & Hx)].
  - apply jsstring_eqb_eq in E1. rewrite Hx in E1. discriminate E1.
  - exists base, ext. split; [done|]. left.
    apply jsstring_eqb_eq in E1. split; [rewrite Hx in E1; by injection E1|].
    unfold fileType_of. by rewrite bool_decide_eq_true_2.
  - apply jsstring_eqb_eq in E2. rewrite Hx in E2. discriminate E2.
  - exists base, ext. split; [done|]. right.
    apply jsstring_eqb_eq in E2. split; [rewrite Hx in E2; by injection E2|].
    unfold fileType_of. rewrite bool_decide_eq_false_2; [done|].
    intros E. apply jsstring_eqb_eq in E. congruence.
Qed.

(* ===================================================================== *)
(** ** The preview *)
(* ===================================================================== *)

Lemma chars_set_mem (l : jsstring) c :
  PatternEngine.set_mem false (map PatternEngine.CChar l) c = existsb (Ascii.eqb c) l.
Proof.
  unfold PatternEngine.set_mem. cbn [andb].
  induction l as [|a l IH]; [done|].
  cbn [map existsb PatternEngine.item_mem]. rewrite orb_false_r, IH.
  by rewrite Ascii.eqb_sym.
Qed.

Lemma htmlSpecial_matcher s i :
  htmlSpecialRegex s i
  = match s !! i with
    | Some c => if is_html_special c then Some (1, []) else None
    | None => None
    end.
Proof.
  change htmlSpecialRegex
    with (PatternEngine.matcher_of false
            (PatternEngine.RSeq
               (PatternEngine.RSet false (map PatternEngine.CChar html_special_chars))
               PatternEngine.REmpty) 0).
  unfold PatternEngine.matcher_of. cbn [PatternEngine.rmatch].
  destruct (s !! i) as [c|]; [|done].
  cbn [xorb]. rewrite chars_set_mem. fold (is_html_special c).
  destruct (is_html_special c); [|done].
  cbn. do 2 f_equal. lia.
Qed.

Lemma escapeHtml_chars s : escapeHtml s = flat_map html_escape_char s.
Proof.
  unfold escapeHtml.
  rewrite (single_char_replace _ is_html_special (fun c => entity_map [c])).
  - done.
  - apply htmlSpecial_matcher.
  - intros i c caps _. reflexivity.
Qed.

Lemma newline_matcher s i :
  regex_literal "\n" s i
  = match s !! i with
    | Some c => if Ascii.eqb "010" c then Some (1, []) else None
    | None => None
    end.
Proof.
  change (regex_literal "\n")
    with (PatternEngine.matcher_of false
            (PatternEngine.RSeq (PatternEngine.RChar "010") PatternEngine.REmpty) 0).
  unfold PatternEngine.matcher_of. cbn [PatternEngine.rmatch PatternEngine.canonicalize].
  destruct (s !! i) as [c|]; [|done].
  destruct (Ascii.eqb "010" c); [|done]. cbn. do 2 f_equal. lia.
Qed.

Lemma newlines_to_br_chars s :
  newlines_to_br s = flat_map (fun c => if Ascii.eqb "010" c then str "<br>" else [c]) s.
Proof.
  unfold newlines_to_br, String_replace.
  rewrite (single_char_replace _ (Ascii.eqb "010") (fun _ => str "<br>")).
  - done.
  - apply newline_matcher.
  - intros i c caps _. reflexivity.
Qed.

Lemma html_escape_char_safe c :
  Forall (fun x => x <> "<"%char /\ x <> ">"%char /\ x <> dquote /\ x <> "'"%char)
         (html_escape_char c).
Proof.
  destruct c as [[] [] [] [] [] [] [] []]; vm_compute; repeat constructor; discriminate.
Qed.

Lemma escapeHtml_safe s :
  Forall (fun x => x <> "<"%char /\ x <> ">"%char /\ x <> dquote /\ x <> "'"%char)
         (escapeHtml s).
Proof.
  rewrite escapeHtml_chars. induction s as [|c s IH]; [constructor|].
  cbn [flat_map]. apply Forall_app_2; [apply html_escape_char_safe|done].
Qed.

(** X12.  [escapeHtml] writes each of the five characters it looks for as
    its entity and copies every other character, so its result holds no
    angle bracket and no quote. *)
Theorem escapeHtml_spec :
  forall s : jsstring,
    escapeHtml s = flat_map html_escape_char s /\
    html_escape_char "&" = str "&amp;" /\ html_escape_char "<" = str "&lt;" /\
    html_escape_char ">" = str "&gt;" /\ html_escape_char dquote = str "&quot;" /\
    html_escape_char "'" = str "&#039;" /\
    (forall c, is_html_special c = false -> html_escape_char c = [c]) /\
    Forall (fun x => x <> "<"%char /\ x <> ">"%char /\ x <> dquote /\ x <> "'"%char)
           (escapeHtml s).
Proof.
  intros s. split; [apply escapeHtml_chars|]. do 5 (split; [reflexivity|]).
  split; [intros c Hc; unfold html_escape_char; by rewrite Hc|].
  apply escapeHtml_safe.
Qed.

Lemma markup_only_app h1 h2 : markup_only h1 -> markup_only h2 -> markup_only (h1 ++ h2).
Proof.
  induction 1 as [|c h Hc1 Hc2 _ IH|tag h Htag _ IH]; intros H2; [done|..].
  - cbn. apply markup_char; auto.
  - rewrite <- app_assoc. apply markup_tag; auto.
Qed.

Lemma markup_only_escaped s : markup_only (newlines_to_br (escapeHtml s)).
Proof.
  rewrite newlines_to_br_chars.
  pose proof (escapeHtml_safe s) as Hsafe.
  induction Hsafe as [|c h (H1 & H2 & _) _ IH]; [constructor|].
  cbn [flat_map]. destruct (Ascii.eqb "010" c).
  - apply markup_tag; [by left|done].
  - cbn. by apply markup_char.
Qed.

Lemma markup_only_plain s :
  Forall (fun x => x <> "<"%char /\ x <> ">"%char /\ x <> dquote /\ x <> "'"%char) s ->
  markup_only s.
Proof.
  induction 1 as [|c h (H1 & H2 & _) _ IH]; [constructor|by apply markup_char].
Qed.

Lemma buildHighlightedHtml_loop_markup text positions result lastIndex :
  markup_only result ->
  markup_only (fst (buildHighlightedHtml_loop text positions result lastIndex)).
Proof.
  revert result lastIndex. induction positions as [|pos rest IH]; intros result lastIndex Hr;
    [done|].
  cbn [buildHighlightedHtml_loop]. apply IH.
  apply markup_only_app; [apply markup_only_app; [done|apply markup_only_escaped]|].
  apply markup_tag; [auto|]. apply markup_only_app.
  - apply markup_only_plain, escapeHtml_safe.
  - rewrite <- (app_nil_r mark_close). apply markup_tag; [auto|constructor].
Qed.

(** X13.  Whatever the text, the pattern and the options, the HTML
    [renderTextPreview] assigns to the preview panel holds no angle bracket
    of the text: every bracket in it belongs to a br tag or to the opening
    or closing tag of a mark element that the function writes itself.  An
    empty text gives the placeholder; a pattern that does not compile gives
    the exception and no HTML. *)
Theorem renderTextPreview_markup :
  forall (E : RegExpEngine) (text pattern : jsstring) (options : Options),
    (forall positions, markup_only (buildHighlightedHtml text positions)) /\
    match renderTextPreview_innerHTML text pattern options with
    | Ok EmptyState => text = []
    | Ok (InnerHTML html) => markup_only html
    | Throw e => buildRegex pattern options = Throw e
    end.
Proof.
  intros E text pattern options.
  assert (Hb : forall positions, markup_only (buildHighlightedHtml text positions)).
  { intros [|pos rest]; [apply markup_only_escaped|].
    unfold buildHighlightedHtml.
    pose proof (buildHighlightedHtml_loop_markup text (pos :: rest) [] 0 markup_nil) as Hl.
    destruct (buildHighlightedHtml_loop text (pos :: rest) [] 0) as [result lastIndex].
    apply markup_only_app; [exact Hl|apply markup_only_escaped]. }
  split; [exact Hb|].
  unfold renderTextPreview_innerHTML. destruct text as [|c text]; [done|].
  destruct (bool_decide (pattern = []) || bool_decide (trim pattern = []));
    [apply markup_only_escaped|].
  pose proof (findMatches_replaceAll (c :: text) pattern [] options) as H0.
  destruct (buildRegex pattern options) as [[regex|]|e].
  - cbv zeta in H0. destruct H0 as [-> _]. cbn [bind]. apply Hb.
  - destruct H0 as [-> _]. cbn [bind]. apply Hb.
  - destruct H0 as [-> _]. done.
Qed.

(* ===================================================================== *)
(** ** Undo, and documents without a match *)
(* ===================================================================== *)


Lemma highlightInHtml_loop_sum `{RegExpEngine} nodes pattern options regex total :
  buildRegex pattern options = Ok regex ->
  highlightInHtml_loop nodes pattern options total
  = Ok (total + sum_list (map (fun node =>
                                 match regex with
                                 | Some r => length (matchAll (matcher r) node)
                                 | None => 0
                                 end) nodes)).
Proof.
  intros Hb. revert total. induction nodes as [|node rest IH]; intros total.
  - cbn. f_equal. lia.
  - cbn [highlightInHtml_loop map sum_list sum_list_with].
    pose proof (findMatches_replaceAll node pattern [] options) as H0.
    rewrite Hb in H0. destruct regex as [r|].
    + cbv zeta in H0. destruct H0 as [-> _]. cbn [bind count]. rewrite IH.
      f_equal. destruct (length (matchAll (matcher r) node)); cbn; lia.
    + destruct H0 as [-> _]. cbn [bind count]. rewrite IH. f_equal; cbn; try lia.
Qed.

(** X14.  The count of the HTML preview is the sum of the counts of the
    text nodes, each scanned on its own, so a match is never counted across
    two text nodes; a pattern that does not compile makes it throw when
    there is a text node, and without text nodes the pattern is not
    compiled at all. *)
Theorem highlightInHtml_count :
  forall (E : RegExpEngine) (B : Browser) (html pattern : jsstring) (options : Options),
    highlightInHtml html pattern options
    = match html_textNodes html with
      | [] => Ok 0
      | _ :: _ =>
          regex <- buildRegex pattern options ;;
          Ok (sum_list (map (fun node =>
                               match regex with
                               | Some r => length (matchAll (matcher r) node)
                               | None => 0
                               end) (html_textNodes html)))
      end.
Proof.
  intros E B html pattern options. unfold highlightInHtml.
  destruct (html_textNodes html) as [|node rest] eqn:Hn; [done|].
  destruct (buildRegex pattern options) as [regex|e] eqn:Hb.
  - by rewrite (highlightInHtml_loop_sum _ _ _ regex).
  - cbn [highlightInHtml_loop bind].
    pose proof (findMatches_replaceAll node pattern [] options) as H0.
    rewrite Hb in H0. by destruct H0 as [-> _].
Qed.

(** What [handleUndo] leaves behind when it returns. *)
Lemma handleUndo_returns `{RegExpEngine} `{Browser} dom w :
  fst (handleUndo dom w) = Ok tt ->
  hasReplaced (state w) = false /\ snd (handleUndo dom w) = w \/
  hasReplaced (state w) = true /\
  hasReplaced (state (snd (handleUndo dom w))) = false /\
  undoText (state (snd (handleUndo dom w))) = None /\
  undoZip (state (snd (handleUndo dom w))) = None /\
  currentText (state (snd (handleUndo dom w)))
  = or_text (undoText (state w)) (originalText (state w)) /\
  currentZip (state (snd (handleUndo dom w)))
  = or_zip (undoZip (state w)) (originalZip (state w)) /\
  toasts (snd (handleUndo dom w)) = toasts w ++ [(UndoSuccessful, success)].
Proof.
  unfold handleUndo. run_monad.
  destruct (hasReplaced (state w)) eqn:Hhas; [|left; by split].
  intros Hok. right. split; [done|]. revert Hok. cbn.
  assert (Hin : forall w2 : World,
            fst (let (r0, s'0) := handleInputChange dom w2 in
                 match r0 with
                 | Ok _ =>
                     (Ok (),
                      {| state := state s'0; heap := heap s'0;
                         toasts := toasts s'0 ++ [(UndoSuccessful, success)];
                         matchCountBadge := matchCountBadge s'0; buttons := buttons s'0 |})
                 | Throw e => (Throw e, s'0)
                 end) = Ok tt ->
            let w3 := snd (let (r0, s'0) := handleInputChange dom w2 in
                 match r0 with
                 | Ok _ =>
                     (Ok (),
                      {| state := state s'0; heap := heap s'0;
                         toasts := toasts s'0 ++ [(UndoSuccessful, success)];
                         matchCountBadge := matchCountBadge s'0; buttons := buttons s'0 |})
                 | Throw e => (Throw e, s'0)
                 end) in
            state w3 = state w2 /\ toasts w3 = toasts w2 ++ [(UndoSuccessful, success)]).
  { intros w2. pose proof (handleInputChange_state dom w2) as [Hs _].
    assert (Ht : forall r w3, handleInputChange dom w2 = (r, w3) -> toasts w3 = toasts w2).
    { unfold handleInputChange.
      cbv [bindM ret getState liftR updateMatchCount setButtonStates modify].
      intros r w3. destruct (currentFile (state w2)); [|by intros [= <- <-]].
      destruct (match fileType (state w2) with Some txt => _ | _ => _ end);
        by intros [= <- <-]. }
    destruct (handleInputChange dom w2) as [[[]|e] w3] eqn:E; cbn; [|done].
    intros _. cbn in Hs. split; [done|]. by rewrite (Ht _ _ eq_refl). }
  destruct (fileType (state w)) as [[]|].
  2,3: intros Hok; destruct (Hin _ Hok) as [-> ->]; cbn; done.
  destruct (or_zip (undoZip (state w)) (originalZip (state w))) as [zip|] eqn:Hz; cbn.
  2:{ intros Hok. destruct (Hin _ Hok) as [-> ->]. cbn. done. }
  destruct (heap w !! zip) as [a|]; cbv [ret throw]; cbn; [|done].
  destruct (generateHtmlPreview a) as [html|e]; cbn; [|done].
  intros Hok. destruct (Hin _ Hok) as [-> ->]. cbn. done.
Qed.

(** X15.  One undo step is kept.  When [handleUndo] returns after a
    replace-all, the text is the saved one when that is not empty, and the
    original text when the saved text is null or the empty string; the
    working reference is the saved one, and the original one when none was
    saved.  The saved ones are dropped, and a second [handleUndo] changes
    nothing, whatever is typed then. *)
Theorem handleUndo_once `{RegExpEngine} `{Browser} (dom dom' : Dom) (w : World) :
  hasReplaced (state w) = true ->
  fst (handleUndo dom w) = Ok tt ->
  let w1 := snd (handleUndo dom w) in
  currentText (state w1) = or_text (undoText (state w)) (originalText (state w)) /\
  currentZip (state w1) = or_zip (undoZip (state w)) (originalZip (state w)) /\
  undoText (state w1) = None /\ undoZip (state w1) = None /\
  hasReplaced (state w1) = false /\
  handleUndo dom' w1 = (Ok tt, w1).
Proof.
  intros Hhas Hok w1.
  destruct (handleUndo_returns dom w Hok) as [[E _]|(_ & H1 & H2 & H3 & H4 & H5 & _)];
    [congruence|].
  fold w1 in H1, H2, H3, H4, H5. repeat split; try done.
  unfold handleUndo. cbv [bindM getState]. by rewrite H1.
Qed.

Lemma handleUndo_once_witness :
  let dom := typed [pair_of "a" "b"] defaultOptions in
  let w0 := snd (@handleFileSelected FragmentEngine PlainBrowser dom
                   (textFile (str "banana")) initialWorld) in
  let w1 := snd (@handleReplaceAll FragmentEngine PlainBrowser dom w0) in
  let w2 := snd (@handleUndo FragmentEngine PlainBrowser dom w1) in
  currentText (state w1) = str "bbnbnb" /\
  currentText (state w2) = str "banana" /\
  @handleUndo FragmentEngine PlainBrowser dom w2 = (Ok tt, w2).
Proof.
  intros dom w0 w1 w2. split; [by vm_compute|].
  destruct (@handleUndo_once FragmentEngine PlainBrowser dom dom w1)
    as (H1 & _ & _ & _ & _ & H6); [by vm_compute|by vm_compute|].
  split; [|exact H6]. fold w2 in H1. rewrite H1. by vm_compute.
Defined.

(** What a replace-all with at least one pair saves and what it leaves
    alone. *)
Lemma handleReplaceAll_saves `{RegExpEngine} `{Browser} (dom : Dom) (w : World) :
  getPairs dom <> [] ->
  let w' := snd (handleReplaceAll dom w) in
  undoText (state w') = Some (currentText (state w)) /\
  undoZip (state w') = currentZip (state w) /\
  originalText (state w') = originalText (state w) /\
  originalZip (state w') = originalZip (state w) /\
  currentFile (state w') = currentFile (state w) /\
  fileType (state w') = fileType (state w) /\
  (toasts w' = toasts w ++ [(Replaced (length (getPairs dom)), success)] \/
   toasts w' = toasts w ++ [(ReplacementFailed, error)]).
Proof.
  intros Hp. unfold handleReplaceAll. run_monad.
  destruct (getPairs dom) as [|p ps]; [done|].
  set (w1 := {| state := set_undoZip (currentZip (state w))
                           (set_undoText (Some (currentText (state w))) (state w));
                heap := heap w; toasts := toasts w;
                matchCountBadge := matchCountBadge w; buttons := buttons w |}).
  assert (Hin : forall w2 : World,
            undoText (state w2) = Some (currentText (state w)) ->
            undoZip (state w2) = currentZip (state w) ->
            originalText (state w2) = originalText (state w) ->
            originalZip (state w2) = originalZip (state w) ->
            currentFile (state w2) = currentFile (state w) ->
            fileType (state w2) = fileType (state w) ->
            toasts w2 = toasts w ->
            let w' :=
              (let (r, s') :=
                 let (r0, s'0) := handleInputChange dom
                   {| state := set_hasReplaced true (state w2); heap := heap w2;
                      toasts := toasts w2; matchCountBadge := matchCountBadge w2;
                      buttons := buttons w2 |} in
                 match r0 with
                 | Ok _ =>
                     (Ok (),
                      {| state := state s'0; heap := heap s'0;
                         toasts := toasts s'0 ++ [(Replaced (length (p :: ps)), success)];
                         matchCountBadge := matchCountBadge s'0; buttons := buttons s'0 |})
                 | Throw e => (Throw e, s'0)
                 end in
               match r with
               | Ok a => (Ok a, s')
               | Throw _ =>
                   (Ok (),
                    {| state := state s'; heap := heap s';
                       toasts := toasts s' ++ [(ReplacementFailed, error)];
                       matchCountBadge := matchCountBadge s'; buttons := buttons s' |})
               end).2 in
            undoText (state w') = Some (currentText (state w)) /\
            undoZip (state w') = currentZip (state w) /\
            originalText (state w') = originalText (state w) /\
            originalZip (state w') = originalZip (state w) /\
            currentFile (state w') = currentFile (state w) /\
            fileType (state w') = fileType (state w) /\
            (toasts w' = toasts w ++ [(Replaced (length (p :: ps)), success)] \/
             toasts w' = toasts w ++ [(ReplacementFailed, error)])).
  { intros w2 H1 H2 H3 H4 H5 H6 H7.
    match goal with
    | |- context [handleInputChange ?d ?w'] =>
        pose proof (handleInputChange_state d w') as [Hs _];
        assert (Ht : toasts (snd (handleInputChange d w')) = toasts w');
        [|destruct (handleInputChange d w') as [[[]|?] w3]]
    end.
    { unfold handleInputChange.
      cbv [bindM ret getState liftR updateMatchCount setButtonStates modify]. cbn.
      destruct (currentFile (state w2)); [|done].
      by destruct (match fileType (state w2) with Some txt => _ | _ => _ end). }
    all: cbn in *; rewrite Hs, Ht; cbn; rewrite H7; auto 10. }
  assert (Hdocx : let w' :=
            (let (r, s') :=
               let (r, s') := applyDocxReplacements (p :: ps) (getOptions dom) w1 in
               match r with
               | Ok _ =>
                   let (r0, s'0) := handleInputChange dom
                     {| state := set_hasReplaced true (state s'); heap := heap s';
                        toasts := toasts s'; matchCountBadge := matchCountBadge s';
                        buttons := buttons s' |} in
                   match r0 with
                   | Ok _ =>
                       (Ok (),
                        {| state := state s'0; heap := heap s'0;
                           toasts := toasts s'0 ++ [(Replaced (length (p :: ps)), success)];
                           matchCountBadge := matchCountBadge s'0;
                           buttons := buttons s'0 |})
                   | Throw e => (Throw e, s'0)
                   end
               | Throw e => (Throw e, s')
               end in
             match r with
             | Ok a => (Ok a, s')
             | Throw _ =>
                 (Ok (),
                  {| state := state s'; heap := heap s';
                     toasts := toasts s' ++ [(ReplacementFailed, error)];
                     matchCountBadge := matchCountBadge s'; buttons := buttons s' |})
             end).2 in
            undoText (state w') = Some (currentText (state w)) /\
            undoZip (state w') = currentZip (state w) /\
            originalText (state w') = originalText (state w) /\
            originalZip (state w') = originalZip (state w) /\
            currentFile (state w') = currentFile (state w) /\
            fileType (state w') = fileType (state w) /\
            (toasts w' = toasts w ++ [(Replaced (length (p :: ps)), success)] \/
             toasts w' = toasts w ++ [(ReplacementFailed, error)])).
  { destruct (currentZip (state w)) as [z2|] eqn:Hc.
    - pose proof (applyDocxReplacements_writes (p :: ps) (getOptions dom) w1 z2) as Hw.
      cbv zeta in Hw.
      destruct Hw as (_ & H2 & H3 & H4 & _ & H6 & H7 & H8 & H9 & _);
        [subst w1; cbn; by rewrite ?Hc|].
      destruct (applyDocxReplacements (p :: ps) (getOptions dom) w1) as [[[]|e] w2];
        cbn in H2, H3, H4, H6, H7, H8, H9.
      + apply Hin; cbn; rewrite ?H2, ?H3, ?H4, ?H6, ?H7, ?H8, ?H9; cbn;
          rewrite ?Hc; done.
      + cbn. rewrite H2, H3, H4, H6, H7, H8, H9. cbn. rewrite ?Hc. auto 10.
    - assert (Hthrow : applyDocxReplacements (p :: ps) (getOptions dom) w1
                       = (Throw (Error "Cannot read properties of null"), w1)).
      { unfold applyDocxReplacements. cbv [bindM getState throw]. subst w1. cbn.
        by rewrite ?Hc. }
      rewrite Hthrow. subst w1. cbn. rewrite ?Hc. auto 10. }
  destruct (fileType (state w)) as [[]|] eqn:Hft; [exact Hdocx| |exact Hdocx].
  rewrite applyTextReplacements_spec.
  destruct (applyTextReplacements_loop _ _ _) as [text|e].
  - unfold assign, modify. apply Hin; cbn; done.
  - cbn. auto 10.
Qed.

(** X16.  A replace-all with at least one pair whose find value is not
    blank first saves the current text and the working reference as the
    undo snapshot: they are saved also when the replace-all fails
    afterwards, so a failing replace-all drops the snapshot of the
    replace-all before it.  The original text and reference, the file and
    its type are not written. *)
Theorem handleReplaceAll_snapshot `{RegExpEngine} `{Browser} (dom : Dom) (w : World) :
  getPairs dom <> [] ->
  let w' := snd (handleReplaceAll dom w) in
  undoText (state w') = Some (currentText (state w)) /\
  undoZip (state w') = currentZip (state w) /\
  originalText (state w') = originalText (state w) /\
  originalZip (state w') = originalZip (state w) /\
  currentFile (state w') = currentFile (state w) /\
  fileType (state w') = fileType (state w) /\
  (toasts w' = toasts w ++ [(Replaced (length (getPairs dom)), success)] \/
   toasts w' = toasts w ++ [(ReplacementFailed, error)]).
Proof. exact (handleReplaceAll_saves dom w). Qed.

Lemma handleReplaceAll_snapshot_witness :
  let good := typed [pair_of "a" "b"] regexOptions in
  let bad := typed [pair_of "(" "x"] regexOptions in
  let w0 := snd (@handleFileSelected FragmentEngine PlainBrowser good
                   (textFile (str "a")) initialWorld) in
  let w1 := snd (@handleReplaceAll FragmentEngine PlainBrowser good w0) in
  let w2 := snd (@handleReplaceAll FragmentEngine PlainBrowser bad w1) in
  let w3 := snd (@handleUndo FragmentEngine PlainBrowser good w2) in
  undoText (state w1) = Some (str "a") /\ currentText (state w1) = str "b" /\
  undoText (state w2) = Some (str "b") /\ currentText (state w2) = str "b" /\
  last (toasts w2) = Some (ReplacementFailed, error) /\
  currentText (state w3) = str "b".
Proof.
  intros good bad w0 w1 w2 w3.
  assert (Hp : getPairs bad <> []) by (by vm_compute).
  assert (H1 := proj1 (@handleReplaceAll_snapshot FragmentEngine PlainBrowser bad w1 Hp)).
  assert (H2 : currentText (state w1) = str "b") by (by vm_compute).
  split; [by vm_compute|]. split; [exact H2|].
  split; [exact (eq_trans H1 (f_equal Some H2))|]. repeat split; by vm_compute.
Defined.

(* ===================================================================== *)
(** ** Sessions on a .docx document *)
(* ===================================================================== *)

Lemma handleInputChange_toasts `{RegExpEngine} `{Browser} dom w :
  toasts (snd (handleInputChange dom w)) = toasts w.
Proof.
  unfold handleInputChange.
  cbv [bindM ret getState liftR updateMatchCount setButtonStates modify]. cbn.
  destruct (currentFile (state w)); [|done].
  by destruct (match fileType (state w) with Some txt => _ | _ => _ end).
Qed.

(** The loop of [applyDocxReplacements] on the archives: it stops at the
    first pair that throws, and the payload of the working archive is then
    what the pairs before have written. *)
Lemma applyDocxReplacements_loop_payload `{RegExpEngine} pairs options z (h : Heap) a xml :
  h !! z = Some a -> a !! DOCUMENT_XML_PATH = Some xml ->
  fst (applyDocxReplacements_loop pairs options z h)
  = match replaceInXml_pairs pairs options xml with
    | Ok _ => Ok z
    | Throw e => Throw e
    end /\
  (forall xml', replaceInXml_pairs pairs options xml = Ok xml' ->
                payload_after pairs options xml = xml') /\
  exists a', snd (applyDocxReplacements_loop pairs options z h) !! z = Some a' /\
             a' !! DOCUMENT_XML_PATH = Some (payload_after pairs options xml).
Proof.
  revert h a xml. induction pairs as [|p ps IH]; intros h a xml Hz Hx.
  - cbn. split; [done|]. split; [by intros xml' [= <-]|]. eauto.
  - cbn [applyDocxReplacements_loop replaceInXml_pairs payload_after].
    unfold bindM. rewrite replaceInDocx_spec, Hz. unfold getDocumentXml. rewrite Hx.
    destruct (replaceInXml xml (find p) (replace p) options) as [xml1|e] eqn:Hr; cbn.
    + apply (IH _ (zip_file_write a xml1)).
      * apply list_lookup_insert_eq. by eapply lookup_lt_Some.
      * apply zip_file_write_payload.
    + split; [done|]. split; [done|]. eauto.
Qed.

(** The state after a .docx file has been loaded. *)
Lemma handleFileSelected_docx_state `{RegExpEngine} `{Browser} dom file archive xml w :
  fileType_of file = docx -> file_zip file = Ok archive ->
  archive !! DOCUMENT_XML_PATH = Some xml ->
  let w0 := snd (handleFileSelected dom file w) in
  toasts w0 = toasts w ++ [(FileLoaded, success)] ->
  fileType (state w0) = Some docx /\
  currentZip (state w0) = Some (S (length (heap w))) /\
  heap w0 = heap w ++ [archive; archive] /\
  originalText (state w0) = extractTextFromXml xml /\
  currentText (state w0) = extractTextFromXml xml /\
  hasReplaced (state w0) = false.
Proof.
  intros Hft Hzip Hxml. unfold handleFileSelected, loadDocxFile, loadDocx, exportDocx.
  rewrite Hft, Hzip. run_monad.
  rewrite lookup_app_l by (rewrite length_app; simpl; lia).
  rewrite lookup_app_r by lia. rewrite Nat.sub_diag. cbn.
  assert (Hfail : forall (ts : list (ToastMessage * ToastType)),
            ts ++ [(LoadFailed, error)] <> toasts w ++ [(FileLoaded, success)]).
  { intros ts E. apply app_inj_tail in E as [_ E]. discriminate E. }
  destruct (generateHtmlPreview archive) as [html|e]; cbn; [|intros E; by apply Hfail in E].
  unfold getDocumentXml. rewrite Hxml. cbn.
  match goal with
  | |- context [handleInputChange ?d ?w'] =>
      pose proof (handleInputChange_state d w') as [Hs Hh];
      destruct (handleInputChange d w') as [[[]|?] w2]
  end; cbn in *; [|intros E; by apply Hfail in E].
  intros _. rewrite Hs, Hh. cbn.
  rewrite length_app. cbn. rewrite <- app_assoc. cbn.
  repeat split; try done. f_equal. lia.
Qed.

(** What [applyDocxReplacements] does to the archives and the text: the
    archives are those the loop leaves, and the text is not written when it
    throws. *)
Lemma applyDocxReplacements_heap `{RegExpEngine} `{Browser} pairs options w z :
  currentZip (state w) = Some z ->
  let w' := snd (applyDocxReplacements pairs options w) in
  heap w' = snd (applyDocxReplacements_loop pairs options z (heap w)) /\
  (forall e, fst (applyDocxReplacements_loop pairs options z (heap w)) = Throw e ->
             fst (applyDocxReplacements pairs options w) = Throw e) /\
  (forall e, fst (applyDocxReplacements pairs options w) = Throw e ->
             currentText (state w') = currentText (state w)).
Proof.
  intros Hc. unfold applyDocxReplacements.
  cbv [bindM getState]. rewrite Hc.
  cbv [with_heap bindM assign modify exportDocx get ret throw liftR]. cbn.
  destruct (applyDocxReplacements_loop pairs options z (heap w)) as [[zip|e] h']; cbn.
  2:{ repeat split; try done. by intros ? [= <-]. }
  destruct (h' !! zip) as [a|]; cbn; [|repeat split; done].
  destruct (generateHtmlPreview a) as [html|e]; cbn; [|repeat split; done].
  destruct (getDocumentXml a) as [xml|e]; cbn; repeat split; done.
Qed.

(** A replace-all on a loaded .docx document. *)
Lemma handleReplaceAll_docx `{RegExpEngine} `{Browser} dom w z :
  fileType (state w) = Some docx -> currentZip (state w) = Some z ->
  getPairs dom <> [] ->
  let w1 := snd (handleReplaceAll dom w) in
  let run := applyDocxReplacements_loop (getPairs dom) (getOptions dom) z (heap w) in
  heap w1 = snd run /\
  currentZip (state w1) = Some z /\ undoZip (state w1) = Some z /\
  undoText (state w1) = Some (currentText (state w)) /\
  originalText (state w1) = originalText (state w) /\
  fileType (state w1) = Some docx /\
  (hasReplaced (state w1) = true \/ currentText (state w1) = currentText (state w)) /\
  (forall e, fst run = Throw e ->
             currentText (state w1) = currentText (state w) /\
             toasts w1 = toasts w ++ [(ReplacementFailed, error)]).
Proof.
  intros Hft Hz Hp. unfold handleReplaceAll. run_monad.
  destruct (getPairs dom) as [|p ps]; [done|]. rewrite Hft.
  set (ws := {| state := set_undoZip (currentZip (state w))
                           (set_undoText (Some (currentText (state w))) (state w));
                heap := heap w; toasts := toasts w;
                matchCountBadge := matchCountBadge w; buttons := buttons w |}).
  assert (Hzs : currentZip (state ws) = Some z) by (subst ws; cbn; by rewrite ?Hz).
  pose proof (applyDocxReplacements_writes (p :: ps) (getOptions dom) ws z Hzs) as Hw.
  pose proof (applyDocxReplacements_heap (p :: ps) (getOptions dom) ws z Hzs) as Hh.
  cbv zeta in Hw, Hh.
  destruct Hw as (W1 & W2 & W3 & W4 & W5 & W6 & W7 & W8 & W9 & _).
  destruct Hh as (H1 & H2 & H3).
  change (heap ws) with (heap w) in H1, H2.
  destruct (applyDocxReplacements (p :: ps) (getOptions dom) ws) as [[[]|e] w2];
    cbn in W1, W2, W3, W4, W5, W6, W7, W8, W9, H1, H2, H3.
  - match goal with
    | |- context [handleInputChange ?d ?w'] =>
        pose proof (handleInputChange_state d w') as [Hs Hh'];
        pose proof (handleInputChange_toasts d w') as Ht;
        destruct (handleInputChange d w') as [[[]|?] w3]
    end; cbn in *; rewrite Hs, Hh'; cbn; rewrite W1, W3, W4, W7, W8, H1; cbn;
      rewrite ?Hz, ?Hft; (repeat split; try done); try (by left);
      match goal with Hx : _ = Throw _ |- _ => by specialize (H2 _ Hx) end.
  - cbn. rewrite W1, W3, W4, W7, W8, H1, W9. cbn. rewrite ?Hz, ?Hft.
    repeat split; try done; [right|]; by rewrite (H3 e eq_refl).
Qed.

(** What [handleUndo] writes: no archive; the text and the working
    reference when there is something to undo. *)
Lemma handleUndo_restores `{RegExpEngine} `{Browser} dom w :
  let w' := snd (handleUndo dom w) in
  heap w' = heap w /\
  currentText (state w')
  = (if hasReplaced (state w) then or_text (undoText (state w)) (originalText (state w))
     else currentText (state w)) /\
  currentZip (state w')
  = (if hasReplaced (state w) then or_zip (undoZip (state w)) (originalZip (state w))
     else currentZip (state w)).
Proof.
  unfold handleUndo. run_monad.
  destruct (hasReplaced (state w)) eqn:Hhas; [|done]. cbn.
  destruct (fileType (state w)) as [[]|].
  2,3: match goal with
       | |- context [handleInputChange ?d ?w'] =>
           pose proof (handleInputChange_state d w') as [Hs Hh];
           destruct (handleInputChange d w') as [[[]|?] ?]
       end; cbn in *; rewrite ?Hs, ?Hh; cbn; done.
  destruct (or_zip (undoZip (state w)) (originalZip (state w))) as [zip|] eqn:Hz; cbn.
  2:{ match goal with
      | |- context [handleInputChange ?d ?w'] =>
          pose proof (handleInputChange_state d w') as [Hs Hh];
          destruct (handleInputChange d w') as [[[]|?] ?]
      end; cbn in *; rewrite ?Hs, ?Hh; cbn; by rewrite ?Hz. }
  destruct (heap w !! zip) as [a|]; cbv [ret throw]; cbn; [|by rewrite ?Hz].
  destruct (generateHtmlPreview a) as [html|e]; cbn; [|by rewrite ?Hz].
  match goal with
  | |- context [handleInputChange ?d ?w'] =>
      pose proof (handleInputChange_state d w') as [Hs Hh];
      destruct (handleInputChange d w') as [[[]|?] ?]
  end; cbn in *; rewrite ?Hs, ?Hh; cbn; by rewrite ?Hz.
Qed.

(** A session on a .docx document: load, replace-all, undo. *)
Lemma docx_session `{RegExpEngine} `{Browser} dom0 dom1 dom2 file archive xml w :
  fileType_of file = docx -> file_zip file = Ok archive ->
  archive !! DOCUMENT_XML_PATH = Some xml ->
  let w0 := snd (handleFileSelected dom0 file w) in
  let w1 := snd (handleReplaceAll dom1 w0) in
  let w2 := snd (handleUndo dom2 w1) in
  toasts w0 = toasts w ++ [(FileLoaded, success)] ->
  getPairs dom1 <> [] ->
  currentText (state w0) = extractTextFromXml xml /\
  currentPayload w0 = Some xml /\
  currentPayload w1 = Some (payload_after (getPairs dom1) (getOptions dom1) xml) /\
  undoZip (state w1) = currentZip (state w1) /\
  (forall e, replaceInXml_pairs (getPairs dom1) (getOptions dom1) xml = Throw e ->
             currentText (state w1) = extractTextFromXml xml /\
             toasts w1 = toasts w0 ++ [(ReplacementFailed, error)]) /\
  currentText (state w2) = extractTextFromXml xml /\
  currentPayload w2 = Some (payload_after (getPairs dom1) (getOptions dom1) xml).
Proof.
  intros Hft Hzip Hxml w0 w1 w2 Hok Hp.
  destruct (handleFileSelected_docx_state dom0 file archive xml w Hft Hzip Hxml Hok)
    as (F1 & F2 & F3 & F4 & F5 & F6).
  fold w0 in F1, F2, F3, F4, F5, F6.
  set (z := S (length (heap w))) in *.
  assert (Hz0 : heap w0 !! z = Some archive).
  { rewrite F3. subst z. rewrite lookup_app_r by lia.
    by replace (S (length (heap w)) - length (heap w)) with 1 by lia. }
  destruct (handleReplaceAll_docx dom1 w0 z F1 F2 Hp)
    as (R1 & R2 & R3 & R4 & R5 & R6 & R7 & R8).
  fold w1 in R1, R2, R3, R4, R5, R6, R7, R8.
  destruct (applyDocxReplacements_loop_payload (getPairs dom1) (getOptions dom1) z
              (heap w0) archive xml Hz0 Hxml) as (L1 & L2 & a' & L3 & L4).
  rewrite <- R1 in L3.
  destruct (handleUndo_restores dom2 w1) as (U1 & U2 & U3). fold w2 in U1, U2, U3.
  assert (P1 : currentPayload w1
               = Some (payload_after (getPairs dom1) (getOptions dom1) xml)).
  { unfold currentPayload. by rewrite R2, L3. }
  split; [done|]. split; [unfold currentPayload; by rewrite F2, Hz0|].
  split; [done|]. split; [congruence|]. split.
  { intros e He. rewrite He in L1. destruct (R8 e L1) as [T1 T2]. split; congruence. }
  split.
  - rewrite U2. destruct (hasReplaced (state w1)) eqn:Hhas.
    + rewrite R4, R5, F4, F5. apply or_text_same.
    + destruct R7 as [R7|R7]; congruence.
  - rewrite <- P1. unfold currentPayload. rewrite U1, U3.
    destruct (hasReplaced (state w1)); [|done]. by rewrite R3, R2.
Qed.

(** C1. Undo round trip.  For a text file the claim holds for every
    engine, browser and typed input: after load, replace-all and undo,
    [state.currentText] is the text of the file.  For a .docx document it
    fails, for every engine and every browser with which the file loads:
    [state.undoZip] is the same JSZip object as [state.currentZip], which
    [replaceInDocx] overwrites in place, so after load, a replace-all with
    at least one pair, and undo, [state.currentText] is the text of the
    loaded payload again, but the payload of [state.currentZip] is still
    the one the pairs have written.  With a document of one paragraph with
    the text a and the pair a to b that payload has the text b.
    One undo step is kept: every replace-all with a pair saves the text and
    the reference it starts from in place of what was saved before, and
    when [handleUndo] returns nothing is saved any more and a second
    [handleUndo] changes nothing; after two replace-alls on the text a (a
    to b, then b to c) undo gives b.  A saved text that is the empty string
    is not restored: undo then gives the original text. *)
Theorem undo_restores_text_not_payload :
  (forall (E : RegExpEngine) (B : Browser) (dom0 dom1 dom2 : Dom) (content : jsstring)
          (w : World),
     let w0 := snd (handleFileSelected dom0 (textFile content) w) in
     let w1 := snd (handleReplaceAll dom1 w0) in
     let w2 := snd (handleUndo dom2 w1) in
     currentText (state w0) = content /\ currentText (state w2) = content) /\
  (forall (E : RegExpEngine) (B : Browser) (dom0 dom1 dom2 : Dom) (file : File)
          (archive : Zip) (xml : jsstring) (w : World),
     let w0 := snd (handleFileSelected dom0 file w) in
     let w1 := snd (handleReplaceAll dom1 w0) in
     let w2 := snd (handleUndo dom2 w1) in
     fileType_of file = docx -> file_zip file = Ok archive ->
     archive !! DOCUMENT_XML_PATH = Some xml ->
     toasts w0 = toasts w ++ [(FileLoaded, success)] ->
     getPairs dom1 <> [] ->
     currentText (state w0) = extractTextFromXml xml /\
     currentPayload w0 = Some xml /\
     currentPayload w1 = Some (payload_after (getPairs dom1) (getOptions dom1) xml) /\
     undoZip (state w1) = currentZip (state w1) /\
     currentText (state w2) = extractTextFromXml xml /\
     currentPayload w2 = Some (payload_after (getPairs dom1) (getOptions dom1) xml)) /\
  (extractTextFromXml letter_a = str "a" /\
   @payload_after FragmentEngine [pair_of "a" "b"] defaultOptions letter_a = letter_b /\
   extractTextFromXml letter_b = str "b") /\
  (let dom := typed [pair_of "a" "b"] defaultOptions in
   let w0 := snd (@handleFileSelected FragmentEngine PlainBrowser dom
                    (documentFile letter_a) initialWorld) in
   let w1 := snd (@handleReplaceAll FragmentEngine PlainBrowser dom w0) in
   let w2 := snd (@handleUndo FragmentEngine PlainBrowser dom w1) in
   currentText (state w0) = str "a" /\ currentPayloadText w0 = Some (str "a") /\
   currentText (state w1) = str "b" /\ currentPayloadText w1 = Some (str "b") /\
   undoZip (state w1) = currentZip (state w1) /\
   toasts w2 = [(FileLoaded, success);
                (Replaced 1, success);
                (UndoSuccessful, success)] /\
   currentText (state w2) = str "a" /\ currentPayloadText w2 = Some (str "b")) /\
  (forall (E : RegExpEngine) (B : Browser) (dom dom' dom'' : Dom) (w : World),
     let w1 := snd (handleReplaceAll dom w) in
     let w2 := snd (handleUndo dom' w1) in
     (getPairs dom <> [] ->
      undoText (state w1) = Some (currentText (state w)) /\
      undoZip (state w1) = currentZip (state w)) /\
     (hasReplaced (state w1) = true -> fst (handleUndo dom' w1) = Ok tt ->
      currentText (state w2) = or_text (undoText (state w1)) (originalText (state w1)) /\
      currentZip (state w2) = or_zip (undoZip (state w1)) (originalZip (state w1)) /\
      undoText (state w2) = None /\ undoZip (state w2) = None /\
      hasReplaced (state w2) = false /\
      handleUndo dom'' w2 = (Ok tt, w2))) /\
  (let dom1 := typed [pair_of "a" "b"] defaultOptions in
   let dom2 := typed [pair_of "b" "c"] defaultOptions in
   let w0 := snd (@handleFileSelected FragmentEngine PlainBrowser dom1
                    (textFile (str "a")) initialWorld) in
   let w1 := snd (@handleReplaceAll FragmentEngine PlainBrowser dom1 w0) in
   let w2 := snd (@handleReplaceAll FragmentEngine PlainBrowser dom2 w1) in
   let w3 := snd (@handleUndo FragmentEngine PlainBrowser dom2 w2) in
   let w4 := snd (@handleUndo FragmentEngine PlainBrowser dom2 w3) in
   currentText (state w2) = str "c" /\ currentText (state w3) = str "b" /\
   currentText (state w4) = str "b") /\
  (let dom1 := typed [pair_of "a" ""] defaultOptions in
   let dom2 := typed [pair_of "b" "c"] defaultOptions in
   let w0 := snd (@handleFileSelected FragmentEngine PlainBrowser dom1
                    (textFile (str "a")) initialWorld) in
   let w1 := snd (@handleReplaceAll FragmentEngine PlainBrowser dom1 w0) in
   let w2 := snd (@handleReplaceAll FragmentEngine PlainBrowser dom2 w1) in
   let w3 := snd (@handleUndo FragmentEngine PlainBrowser dom2 w2) in
   currentText (state w1) = [] /\ currentText (state w2) = [] /\
   undoText (state w2) = Some [] /\ currentText (state w3) = str "a").
Proof.
  split; [intros E B dom0 dom1 dom2 content w; exact (undo_roundtrip_text dom0 dom1 dom2 content w)|].
  split.
  { intros E B dom0 dom1 dom2 file archive xml w w0 w1 w2 Hft Hzip Hxml Hok Hp.
    destruct (docx_session dom0 dom1 dom2 file archive xml w Hft Hzip Hxml Hok Hp)
      as (S1 & S2 & S3 & S4 & _ & S6 & S7).
    done. }
  split; [repeat split; by vm_compute|].
  split; [vm_compute; done|].
  split.
  { intros E B dom dom' dom'' w w1 w2. split.
    - intros Hp. destruct (handleReplaceAll_saves dom w Hp) as (H1 & H2 & _). done.
    - intros Hhas Hok.
      destruct (handleUndo_returns dom' w1 Hok) as [[Hf _]|(_ & H1 & H2 & H3 & H4 & H5 & _)];
        [congruence|].
      fold w2 in H1, H2, H3, H4, H5. repeat split; try done.
      unfold handleUndo. cbv [bindM getState]. by rewrite H1. }
  split; vm_compute; done.
Qed.

(** C2. Atomicity of replace-all on failure.  In the text path the claim
    holds for every engine: when the loop over the pairs throws,
    [applyTextReplacements] leaves the world as it was (with a to b, then
    an unterminated group, the text a stays a).  In the .docx path it
    fails, for every engine and every browser with which the file loads:
    each pair is written into the archive before the next pair is compiled,
    so when a pair throws the handler reports the failure and
    [state.currentText] is what it was, but the payload of
    [state.currentZip] is what the pairs before have written.  With a
    document of one paragraph with the text a and the same pairs the
    payload has the text b. *)
Theorem failed_replace_all_docx_keeps_earlier_pairs :
  (forall (E : RegExpEngine) pairs options w,
     match fst (applyTextReplacements pairs options w) with
     | Throw _ => snd (applyTextReplacements pairs options w) = w
     | Ok _ => True
     end) /\
  (let dom := typed [pair_of "a" "b"; pair_of "(" "x"] regexOptions in
   let w0 := snd (@handleFileSelected FragmentEngine PlainBrowser
                    (typed [] regexOptions) (textFile (str "a")) initialWorld) in
   let w1 := snd (@handleReplaceAll FragmentEngine PlainBrowser dom w0) in
   toasts w1 = [(FileLoaded, success);
                (ReplacementFailed, error)] /\
   currentText (state w0) = str "a" /\ currentText (state w1) = str "a") /\
  (forall (E : RegExpEngine) (B : Browser) (dom0 dom : Dom) (file : File)
          (archive : Zip) (xml : jsstring) (w : World) (e : exn),
     let w0 := snd (handleFileSelected dom0 file w) in
     let w1 := snd (handleReplaceAll dom w0) in
     fileType_of file = docx -> file_zip file = Ok archive ->
     archive !! DOCUMENT_XML_PATH = Some xml ->
     toasts w0 = toasts w ++ [(FileLoaded, success)] ->
     replaceInXml_pairs (getPairs dom) (getOptions dom) xml = Throw e ->
     toasts w1 = toasts w0 ++ [(ReplacementFailed, error)] /\
     currentText (state w0) = extractTextFromXml xml /\
     currentText (state w1) = extractTextFromXml xml /\
     currentPayload w0 = Some xml /\
     currentPayload w1 = Some (payload_after (getPairs dom) (getOptions dom) xml)) /\
  (@replaceInXml_pairs FragmentEngine [pair_of "a" "b"; pair_of "(" "x"] regexOptions letter_a
   = Throw (SyntaxError (str "(")) /\
   @payload_after FragmentEngine [pair_of "a" "b"; pair_of "(" "x"] regexOptions letter_a
   = letter_b /\
   extractTextFromXml letter_a = str "a" /\ extractTextFromXml letter_b = str "b") /\
  (let dom := typed [pair_of "a" "b"; pair_of "(" "x"] regexOptions in
   let w0 := snd (@handleFileSelected FragmentEngine PlainBrowser
                    (typed [] regexOptions) (documentFile letter_a) initialWorld) in
   let w1 := snd (@handleReplaceAll FragmentEngine PlainBrowser dom w0) in
   toasts w1 = [(FileLoaded, success);
                (ReplacementFailed, error)] /\
   currentPayload w0 = Some letter_a /\
   currentPayloadText w0 = Some (str "a") /\ currentText (state w0) = str "a" /\
   currentPayload w1 = Some letter_b /\
   currentPayloadText w1 = Some (str "b") /\ currentText (state w1) = str "a").
Proof.
  split.
  { intros. rewrite applyTextReplacements_spec.
    by destruct (applyTextReplacements_loop _ _ _). }
  split; [vm_compute; done|].
  split.
  { intros E B dom0 dom file archive xml w e w0 w1 Hft Hzip Hxml Hok He.
    assert (Hp : getPairs dom <> []).
    { intros Hnil. rewrite Hnil in He. discriminate He. }
    destruct (docx_session dom0 dom dom file archive xml w Hft Hzip Hxml Hok Hp)
      as (S1 & S2 & S3 & _ & S5 & _).
    destruct (S5 e He) as [T1 T2]. done. }
  split; [repeat split; by vm_compute|].
  vm_compute. done.
Qed.

(* ===================================================================== *)
(** ** Documents without a match *)
(* ===================================================================== *)

(** A paragraph whose text the pattern does not match is returned by
    [replaceInParagraph] as it is. *)
Lemma replaceInParagraph_without_match p regex replacement :
  matchAll (matcher regex) (extractTextFromXml p) = [] ->
  replaceInParagraph p regex replacement = p.
Proof.
  intros Hno. rewrite replaceInParagraph_spec.
  destruct (collectSegments p) as [|first rest] eqn:Hsegs; [done|].
  rewrite bool_decide_eq_true_2; [done|].
  rewrite <- Hsegs. rewrite <- extractTextFromXml_concat.
  unfold String_replace. rewrite String_replace_fn_splice, Hno. cbn. by rewrite drop_0.
Qed.

(** The matches of the paragraph pattern are paragraph spans of the
    document, each with the text at its span. *)
Lemma paragraphs_spans xml :
  Forall (fun m => paragraph_span xml (m_index m) (m_end m) /\
                   m_matched m = slice xml (m_index m) (m_end m))
         (matchAll paragraphRegex xml).
Proof.
  pose proof (paragraphs_scanned xml) as Hs.
  pose proof (matchAll_chain paragraphRegex xml) as Hc.
  revert Hs Hc. generalize (matchAll paragraphRegex xml). generalize 0 at 1 2.
  intros lo ms. revert lo. induction ms as [|m rest IH]; intros lo; [constructor|].
  cbn [paragraph_scan chain]. intros (_ & _ & Hspan & Hrest) (_ & _ & Hm & Hchain).
  constructor; [done|]. apply (IH (m_end m)); [done|].
  eapply chain_weaken; [|exact Hchain]. unfold next_index. destruct (m_matched m); lia.
Qed.

(** X17.  When the pattern matches in the text of no paragraph span of
    the document, a span being what lies between an opening paragraph tag
    and the end of the first closing paragraph tag after it,
    [replaceInXml] returns the document as it is. *)
Theorem replaceInXml_without_match `{RegExpEngine} (xml pattern replacement : jsstring)
    (options : Options) (regex : RegExp) :
  buildRegex pattern options = Ok (Some regex) ->
  (forall i e, paragraph_span xml i e ->
               matchAll (matcher regex) (extractTextFromXml (slice xml i e)) = []) ->
  replaceInXml xml pattern replacement options = Ok xml.
Proof.
  intros Hb Hno. unfold replaceInXml. rewrite Hb. cbn [bind]. f_equal.
  rewrite String_replace_fn_splice.
  transitivity (splice xml 0 (map (span_with m_matched) (matchAll paragraphRegex xml)));
    [|rewrite splice_id by apply matchAll_chain; apply drop_0].
  f_equal. apply Forall_fmap_ext_1.
  eapply Forall_impl; [apply paragraphs_spans|]. intros m [Hspan Hm]. unfold span_with. f_equal.
  apply replaceInParagraph_without_match. rewrite Hm. by apply Hno.
Qed.

Lemma replaceInXml_without_match_witness :
  @replaceInXml FragmentEngine foo_bar_paragraph (str "fob") (str "x") defaultOptions
  = Ok foo_bar_paragraph.
Proof.
  eapply (@replaceInXml_without_match FragmentEngine); [reflexivity|].
  intros i e [Hopen (j & Hj & -> & Hclose & _)].
  assert (Hi : i + 4 <= length foo_bar_paragraph).
  { destruct Hopen as [Ho _]. apply (slice_full_length _ i); [rewrite Ho; simpl; lia|lia]. }
  assert (Hjb : j + 6 <= length foo_bar_paragraph).
  { apply (slice_full_length _ j); [unfold closes_at in Hclose; rewrite Hclose; simpl; lia|lia]. }
  assert (Hopens : Forall (fun i => opens_at foo_bar_paragraph i -> i = 0)
                          (seq 0 (length foo_bar_paragraph))).
  { apply (bool_decide_unpack _). by vm_compute. }
  assert (Hcloses : Forall (fun j => closes_at foo_bar_paragraph j -> j + 6 = length foo_bar_paragraph)
                           (seq 0 (length foo_bar_paragraph))).
  { apply (bool_decide_unpack _). by vm_compute. }
  rewrite Forall_forall in Hopens, Hcloses.
  rewrite (Hopens i), (Hcloses j); [by vm_compute| | | |]; try done.
  all: apply elem_of_seq; lia.
Defined.

(* ===================================================================== *)
(** ** Highlighted text nodes and the theme *)
(* ===================================================================== *)

Lemma scan_order_weaken text lo lo' ps :
  lo' <= lo -> scan_order text lo ps -> scan_order text lo' ps.
Proof.
  destruct ps as [|p rest]; [done|]. cbn. intros ? (? & ? & ? & ? & ?).
  repeat split; try done. lia.
Qed.

Lemma createHighlightFragment_loop_spec text ps fragment lo :
  lo <= length text ->
  scan_order text lo ps ->
  let '(fragment', lastIndex) := createHighlightFragment_loop text ps fragment lo in
  lo <= lastIndex <= length text /\
  slice text lo lastIndex
  = concat (map node_textContent (drop (length fragment) fragment')) /\
  take (length fragment) fragment' = fragment /\
  Forall (fun n => n <> TextNode []) (drop (length fragment) fragment') /\
  omap (fun n => match n with MarkElement t => Some t | TextNode _ => None end)
       (drop (length fragment) fragment')
  = map pos_match ps.
Proof.
  revert fragment lo. induction ps as [|p rest IH]; intros fragment lo Hlo Hs.
  - cbn. rewrite drop_all, take_ge by lia. rewrite slice_nil by lia. by repeat split.
  - cbn [createHighlightFragment_loop]. destruct Hs as (H1 & H2 & H3 & H4 & Hrest).
    set (fragment1 := (if lo <? pos_start p
                       then fragment ++ [TextNode (slice text lo (pos_start p))]
                       else fragment)
                      ++ [MarkElement (slice text (pos_start p) (pos_end p))]).
    assert (Hrest' : scan_order text (pos_end p) rest).
    { eapply scan_order_weaken; [|exact Hrest]. destruct (_ =? _); lia. }
    specialize (IH fragment1 (pos_end p) H3 Hrest').
    destruct (createHighlightFragment_loop text rest fragment1 (pos_end p))
      as [fragment' lastIndex].
    destruct IH as (Hb & Hsl & Htk & Hne & Hmk).
    assert (Hse : pos_start p <= pos_end p) by lia.
    assert (Hf1 : exists new, fragment1 = fragment ++ new /\
              concat (map node_textContent new) = slice text lo (pos_end p) /\
              Forall (fun n => n <> TextNode []) new /\
              omap (fun n => match n with MarkElement t => Some t | TextNode _ => None end)
                   new = [pos_match p]).
    { subst fragment1. destruct (lo <? pos_start p) eqn:E.
      - apply Nat.ltb_lt in E.
        exists [TextNode (slice text lo (pos_start p));
                MarkElement (slice text (pos_start p) (pos_end p))].
        split; [by rewrite <- app_assoc|]. split.
        { cbn. rewrite app_nil_r. symmetry. apply slice_split; lia. }
        split.
        { constructor; [|by repeat constructor].
          intros [= E0]. apply (f_equal length) in E0.
          rewrite slice_length_in in E0 by lia. simpl in E0. lia. }
        cbn. by rewrite H4.
      - apply Nat.ltb_ge in E. assert (lo = pos_start p) as -> by lia.
        exists [MarkElement (slice text (pos_start p) (pos_end p))].
        split; [done|]. split; [cbn; by rewrite app_nil_r|].
        split; [by repeat constructor|]. cbn. by rewrite H4. }
    destruct Hf1 as (new & Hf1 & Hc & Hn & Hm).
    assert (Hfr : fragment' = fragment ++ new ++ drop (length fragment1) fragment').
    { rewrite <- (take_drop (length fragment1) fragment') at 1. rewrite Htk, Hf1.
      by rewrite <- app_assoc. }
    assert (Hdrop : drop (length fragment) fragment'
                    = new ++ drop (length fragment1) fragment').
    { rewrite Hfr at 1. by rewrite drop_app_length. }
    split; [lia|]. rewrite Hdrop. split.
    { rewrite map_app, concat_app, Hc, <- Hsl. apply slice_split; lia. }
    split.
    { rewrite Hfr. by rewrite take_app_length. }
    split; [by apply Forall_app_2|].
    rewrite omap_app, Hm, Hmk. done.
Qed.

(** X18.  The fragment [createHighlightFragment] builds for a text node
    from the positions [findMatches] reports for its text has the text of
    the node: the text contents of its children concatenate to the text,
    the mark elements hold the matches in order, and no text node in it is
    empty. *)
Theorem createHighlightFragment_text `{RegExpEngine} (text pattern : jsstring)
    (options : Options) (found : Matches) :
  findMatches text pattern options = Ok found ->
  let fragment := createHighlightFragment text (positions found) in
  concat (map node_textContent fragment) = text /\
  omap (fun n => match n with MarkElement t => Some t | TextNode _ => None end) fragment
  = map pos_match (positions found) /\
  Forall (fun n => n <> TextNode []) fragment.
Proof.
  intros Hfound.
  assert (Hs : scan_order text 0 (positions found)).
  { pose proof (findMatches_replaceAll text pattern [] options) as H0.
    destruct (buildRegex pattern options) as [[regex|]|e].
    - cbv zeta in H0. destruct H0 as [Hf _]. rewrite Hf in Hfound.
      injection Hfound as <-. cbn. apply chain_scan_order, matchAll_chain.
    - destruct H0 as [Hf _]. rewrite Hf in Hfound. by injection Hfound as <-.
    - destruct H0 as [Hf _]. congruence. }
  unfold createHighlightFragment.
  pose proof (createHighlightFragment_loop_spec text (positions found) [] 0
                ltac:(lia) Hs) as Hl.
  destruct (createHighlightFragment_loop text (positions found) [] 0)
    as [fragment lastIndex].
  cbn [length] in Hl. rewrite drop_0 in Hl. destruct Hl as (Hb & Hsl & _ & Hne & Hmk).
  destruct (lastIndex <? length text) eqn:E.
  - apply Nat.ltb_lt in E. cbv zeta. split; [|split].
    + rewrite map_app, concat_app, <- Hsl. cbn. rewrite app_nil_r.
      rewrite slice_app_drop by lia. apply drop_0.
    + rewrite omap_app, Hmk. cbn. by rewrite app_nil_r.
    + apply Forall_app_2; [done|]. constructor; [|constructor].
      intros [= E0]. apply (f_equal length) in E0. rewrite length_drop in E0.
      simpl in E0. lia.
  - apply Nat.ltb_ge in E. cbv zeta. split; [|by split].
    rewrite <- Hsl. assert (lastIndex = length text) as -> by lia.
    rewrite slice_0. by rewrite take_ge.
Qed.

Lemma createHighlightFragment_text_witness :
  @findMatches FragmentEngine (str "a cat") (str "cat") defaultOptions
  = Ok {| count := 1;
          positions := [ {| pos_start := 2; pos_end := 5; pos_match := str "cat" |} ] |} /\
  createHighlightFragment (str "a cat")
    [ {| pos_start := 2; pos_end := 5; pos_match := str "cat" |} ]
  = [TextNode (str "a "); MarkElement (str "cat")] /\
  concat (map node_textContent
            (createHighlightFragment (str "a cat")
               [ {| pos_start := 2; pos_end := 5; pos_match := str "cat" |} ]))
  = str "a cat".
Proof.
  assert (Hf : @findMatches FragmentEngine (str "a cat") (str "cat") defaultOptions
               = Ok {| count := 1;
                       positions := [ {| pos_start := 2; pos_end := 5;
                                         pos_match := str "cat" |} ] |})
    by (by vm_compute).
  split; [exact Hf|]. split; [by vm_compute|].
  destruct (@createHighlightFragment_text FragmentEngine _ _ _ _ Hf) as (H1 & _).
  exact H1.
Defined.

(** X19.  The theme toggle.  [initThemeToggle] applies the saved theme when
    there is one and the system preference otherwise, and saves nothing.
    After a click the theme is dark or light, whatever it was, and it is
    saved; the next click gives the other theme, and the one after that the
    first again. *)
Theorem themeToggle_spec :
  forall (prefersDark : bool) (store : ThemeStore),
    let store0 := initThemeToggle prefersDark store in
    let store1 := themeToggleClicked store0 in
    let store2 := themeToggleClicked store1 in
    savedTheme store0 = savedTheme store /\
    dataTheme store0
      = Some (or_string (savedTheme store) (if prefersDark then str "dark" else str "light")) /\
    (dataTheme store1 = Some (str "dark") \/ dataTheme store1 = Some (str "light")) /\
    savedTheme store1 = dataTheme store1 /\
    savedTheme store2 = dataTheme store2 /\
    dataTheme store2 <> dataTheme store1 /\
    themeToggleClicked store2 = store1.
Proof.
  intros prefersDark store. cbv zeta.
  split; [done|]. split; [done|].
  set (store0 := initThemeToggle prefersDark store).
  assert (Hc : forall st,
            themeToggleClicked st
            = {| savedTheme := Some (str "light"); dataTheme := Some (str "light") |} \/
            themeToggleClicked st
            = {| savedTheme := Some (str "dark"); dataTheme := Some (str "dark") |}).
  { intros st. unfold themeToggleClicked, applyTheme. cbn [dataTheme savedTheme].
    destruct (jsstring_eqb _ _); auto. }
  destruct (Hc store0) as [-> | ->].
  - change (themeToggleClicked
              {| savedTheme := Some (str "light"); dataTheme := Some (str "light") |})
      with {| savedTheme := Some (str "dark"); dataTheme := Some (str "dark") |}.
    cbn [dataTheme savedTheme]. repeat split; auto; discriminate.
  - change (themeToggleClicked
              {| savedTheme := Some (str "dark"); dataTheme := Some (str "dark") |})
      with {| savedTheme := Some (str "light"); dataTheme := Some (str "light") |}.
    cbn [dataTheme savedTheme]. repeat split; auto; discriminate.
Qed.
